(** * Iris-Properties-Manager: document model, parser, manager and auto-mapper

    A shallow embedding of [block_properties_parser.py],
    [block_properties_manager.py] and [auto_mapper.py], and the properties of
    the specification checked against it.

    Conventions of the embedding.
    - A Python [str] is a [string]; one [ascii] stands for one code point in
      the range 0..255, and the character classes below ([isspace], [isalnum],
      [lower], ...) are Python's on that range.
    - A Python [dict] whose insertion order is observable ([item_groups],
      the per-category variation lists) is an association list with unique
      keys; a [set], and a [dict] that is only read by key or folded
      commutatively, is a [gset] / [gmap].
    - Python leaves the iteration order of a [set] unspecified: the order is
      the section variable [set_iter], any enumeration of the set.
    - [copy.deepcopy] is the identity on immutable values.
    - A method that mutates [self] is a function from the state to the new
      state; a method that can raise returns an [outcome].
    - [print] diagnostics are not modelled. *)

From Stdlib Require Import QArith Ascii.
From stdpp Require Import gmap strings list sorting pretty.

Local Open Scope stdpp_scope.

(** ** Python string methods *)

Module PyStr.

Definition code (c : ascii) : N := Ascii.N_of_ascii c.

Definition NL : ascii := Ascii.ascii_of_N 10.
Definition CR : ascii := Ascii.ascii_of_N 13.
Definition nl : string := String NL "".

(** [str.isspace] on one character. *)
Definition isspace (c : ascii) : bool :=
  let n := code c in
  ((9 <=? n) && (n <=? 13) || (28 <=? n) && (n <=? 32)
   || (n =? 133) || (n =? 160))%N.

(** [str.isdecimal], [str.isnumeric] and [str.isalnum] on one character. *)
Definition isdecimal (c : ascii) : bool :=
  let n := code c in ((48 <=? n) && (n <=? 57))%N.

Definition isnumeric_char (c : ascii) : bool :=
  let n := code c in
  (isdecimal c || (n =? 178) || (n =? 179) || (n =? 185)
   || (188 <=? n) && (n <=? 190))%N.

Definition isalpha (c : ascii) : bool :=
  let n := code c in
  ((65 <=? n) && (n <=? 90) || (97 <=? n) && (n <=? 122)
   || (n =? 170) || (n =? 181) || (n =? 186)
   || (192 <=? n) && (n <=? 214) || (216 <=? n) && (n <=? 246)
   || (248 <=? n) && (n <=? 255))%N.

Definition isalnum (c : ascii) : bool := isalpha c || isnumeric_char c.

(** The class [\w] of the [re] module on [str] patterns. *)
Definition is_word_char (c : ascii) : bool :=
  isalnum c || bool_decide (c = "_"%char).

Definition lower_char (c : ascii) : ascii :=
  let n := code c in
  if ((65 <=? n) && (n <=? 90)
      || (192 <=? n) && (n <=? 222) && negb (n =? 215))%N
  then Ascii.ascii_of_N (n + 32) else c.

Fixpoint lower (s : string) : string :=
  match s with
  | "" => ""
  | String c s' => String (lower_char c) (lower s')
  end.

Fixpoint forallb_str (f : ascii → bool) (s : string) : bool :=
  match s with
  | "" => true
  | String c s' => f c && forallb_str f s'
  end.

Fixpoint existsb_str (f : ascii → bool) (s : string) : bool :=
  match s with
  | "" => false
  | String c s' => f c || existsb_str f s'
  end.

(** [s.isnumeric()]: every character numeric, and at least one. *)
Definition isnumeric (s : string) : bool :=
  negb (bool_decide (s = "")) && forallb_str isnumeric_char s.

Definition len (s : string) : nat := String.length s.

(** [s[n:]]. *)
Fixpoint skip_chars (n : nat) (s : string) : string :=
  match n, s with
  | 0, _ => s
  | S k, String _ s' => skip_chars k s'
  | S _, "" => ""
  end.

(** [s.lstrip()], [s.rstrip()], [s.strip()]. *)
Fixpoint lstrip (s : string) : string :=
  match s with
  | "" => ""
  | String c s' => if isspace c then lstrip s' else s
  end.

Fixpoint rstrip_if (f : ascii → bool) (s : string) : string :=
  match s with
  | "" => ""
  | String c s' =>
      let r := rstrip_if f s' in
      if bool_decide (r = "") && f c then "" else String c r
  end.

Definition rstrip : string → string := rstrip_if isspace.

Definition strip (s : string) : string := lstrip (rstrip s).

(** [s.rstrip('\n')]. *)
Definition rstrip_nl : string → string :=
  rstrip_if (λ c, bool_decide (c = NL)).

(** [s.startswith(p)] and [s.endswith(p)]. *)
Fixpoint startswith (p s : string) : bool :=
  match p, s with
  | "", _ => true
  | String a p', String b s' => bool_decide (a = b) && startswith p' s'
  | String _ _, "" => false
  end.

Definition endswith (p s : string) : bool :=
  startswith (String.rev p) (String.rev s).

(** [s.partition(sep)] restricted to the found case: the text before and
    after the first occurrence of [sep]. *)
Fixpoint find_split (sep s : string) : option (string * string) :=
  if startswith sep s then Some ("", skip_chars (len sep) s)
  else match s with
       | "" => None
       | String c s' =>
           match find_split sep s' with
           | Some (a, b) => Some (String c a, b)
           | None => None
           end
       end.

(** [sep in s]. *)
Definition contains (sep s : string) : bool :=
  bool_decide (is_Some (find_split sep s)).

(** [s.split(sep)] for a non-empty [sep]: [skip] counts the characters of
    a separator occurrence still to pass over. *)
Fixpoint split_go (sep : string) (skip : nat) (s : string) : list string :=
  match s with
  | "" => [""]
  | String c s' =>
      match skip with
      | S k => split_go sep k s'
      | 0 =>
          if startswith sep s then "" :: split_go sep (len sep - 1) s'
          else match split_go sep 0 s' with
               | p :: ps => String c p :: ps
               | [] => [String c ""]
               end
      end
  end.

Definition split (sep s : string) : list string := split_go sep 0 s.

(** [s.split(sep, 1)]. *)
Definition split1 (sep s : string) : list string :=
  match find_split sep s with
  | Some (a, b) => [a; b]
  | None => [s]
  end.

(** [sep.join(l)]. *)
Fixpoint join (sep : string) (l : list string) : string :=
  match l with
  | [] => ""
  | [x] => x
  | x :: l' => x +:+ sep +:+ join sep l'
  end.

(** [s.replace(old, new)] for a non-empty [old], and
    [s.replace(old, new, 1)]. *)
Definition replace (old new s : string) : string := join new (split old s).

Definition replace1 (old new s : string) : string :=
  match find_split old s with
  | Some (a, b) => a +:+ new +:+ b
  | None => s
  end.

(** Maximal runs of the characters that satisfy [keep]; [cur] is the run
    being read, if any. *)
Fixpoint runs_go (keep : ascii → bool) (cur : option string) (s : string)
  : list string :=
  match s with
  | "" => option_list (String.rev <$> cur)
  | String c s' =>
      if keep c
      then runs_go keep (Some (String c (default "" cur))) s'
      else option_list (String.rev <$> cur) ++ runs_go keep None s'
  end.

(** [s.split()]: the maximal runs of non-blank characters. *)
Definition split_ws (s : string) : list string :=
  runs_go (λ c, negb (isspace c)) None s.

(** [re.findall(r'\b\w+\b', s)]: the maximal runs of word characters. *)
Definition findall_words (s : string) : list string :=
  runs_go is_word_char None s.

(** The line boundaries of [str.splitlines]. *)
Definition is_linebreak (c : ascii) : bool :=
  let n := code c in
  ((10 <=? n) && (n <=? 13) || (28 <=? n) && (n <=? 30) || (n =? 133))%N.

(** [s.splitlines()]: [cur] is the line being read, reversed; a line feed
    right after a carriage return belongs to the same boundary. *)
Fixpoint splitlines_go (cur : string) (s : string) : list string :=
  match s with
  | "" => if bool_decide (cur = "") then [] else [String.rev cur]
  | String c s' =>
      if is_linebreak c then
        String.rev cur ::
          match s' with
          | String d s'' =>
              if bool_decide (c = CR) && bool_decide (d = NL)
              then splitlines_go "" s'' else splitlines_go "" s'
          | "" => []
          end
      else splitlines_go (String c cur) s'
  end.

Definition splitlines (s : string) : list string := splitlines_go "" s.

(** [str(n)] for a length. *)
Definition str_of_nat (n : nat) : string := pretty n.

(** [int(s)]: blanks around an optional sign and decimal digits, in which
    single underscores may separate digits; [None] is [ValueError]. *)
Fixpoint int_digits (acc : Z) (after_digit : bool) (s : string)
  : option Z :=
  match s with
  | "" => if after_digit then Some acc else None
  | String c s' =>
      if isdecimal c
      then int_digits (acc * 10 + Z.of_N (code c - 48)) true s'
      else if bool_decide (c = "_"%char) && after_digit
      then int_digits acc false s'
      else None
  end.

Definition py_int (s : string) : option Z :=
  match strip s with
  | String "-" body => Z.opp <$> int_digits 0 false body
  | String "+" body => int_digits 0 false body
  | body => int_digits 0 false body
  end.

End PyStr.

Import PyStr.

(** ** Insertion-ordered dictionaries

    A [dict] read in insertion order: an association list in which a key
    occurs once. [od_setdefault] is [d.setdefault(k, v)] (a new key goes to
    the end), [od_alter] changes the value stored under a key in place. *)

Section odict.
Context {V : Type}.

Fixpoint od_get (k : string) (d : list (string * V)) : option V :=
  match d with
  | [] => None
  | (k', v) :: d' => if decide (k' = k) then Some v else od_get k d'
  end.

Definition od_mem (k : string) (d : list (string * V)) : bool :=
  bool_decide (is_Some (od_get k d)).

Fixpoint od_alter (f : V → V) (k : string) (d : list (string * V))
  : list (string * V) :=
  match d with
  | [] => []
  | (k', v) :: d' =>
      if decide (k' = k) then (k', f v) :: d' else (k', v) :: od_alter f k d'
  end.

Definition od_setdefault (k : string) (v : V) (d : list (string * V))
  : list (string * V) :=
  if od_mem k d then d else d ++ [(k, v)].
End odict.

(** ** The document model ([block_properties_parser.py]) *)

(** [class Property]. [original_raw] and [processed_value] are the
    attributes that [regenerate_raw_value] creates on the instance; they are
    absent ([None]) until it runs. *)
Record Property : Type := mkProperty {
  key : string;
  item_groups : list (string * list string);
  all_items : gset string;
  _original_raw : option string;
  _preserve_original : bool;
  original_raw : option string;
  processed_value : option string
}.

Global Instance Property_eq_dec : EqDecision Property.
Proof. solve_decision. Defined.

(** The four element classes under [AbstractFileElement]. *)
Inductive Element : Type :=
  | Comment (content : string)
  | EmptyLine
  | Directive (content : string)
  | EProperty (p : Property).

Global Instance Element_eq_dec : EqDecision Element.
Proof. solve_decision. Defined.

(** [Property.add_item]. *)
Definition add_item (item mod_id : string) (p : Property) : Property :=
  let groups := od_setdefault mod_id [] (item_groups p) in
  if decide (item ∈ all_items p) then
    mkProperty (key p) groups (all_items p) (_original_raw p)
      (_preserve_original p) (original_raw p) (processed_value p)
  else
    mkProperty (key p) (od_alter (λ l, l ++ [item]) mod_id groups)
      (all_items p ∪ {[item]}) (_original_raw p) false
      (original_raw p) (processed_value p).

(** [Property._parse_value]: the body of the loop for line [i]. *)
Definition parse_value_line (i : nat) (line : string) (p : Property)
  : Property :=
  let items := split_ws (strip line) in
  match items with
  | [] => p
  | first :: _ =>
      let mod_id :=
        if decide (i = 0) then "minecraft"
        else if contains ":" first then default "" (head (split ":" first))
             else "minecraft" in
      let groups := od_setdefault mod_id [] (item_groups p) in
      let '(groups, all) :=
        foldl (λ '(g, a) item,
                 if decide (item ∈ a) then (g, a)
                 else (od_alter (λ l, l ++ [item]) mod_id g, a ∪ {[item]}))
              (groups, all_items p) items in
      mkProperty (key p) groups all (_original_raw p) (_preserve_original p)
        (original_raw p) (processed_value p)
  end.

Fixpoint parse_value_lines (i : nat) (lines : list string) (p : Property)
  : Property :=
  match lines with
  | [] => p
  | line :: lines' =>
      parse_value_lines (S i) lines' (parse_value_line i line p)
  end.

Definition _parse_value (raw_value : string) (p : Property) : Property :=
  parse_value_lines 0 (splitlines raw_value) p.

(** [Property.__init__]: an empty string is falsy, so an empty
    [original_raw] is stored as [None]. *)
Definition new_Property (k raw_value : string) (orig : option string)
  : Property :=
  let stored :=
    match orig with
    | Some r => if bool_decide (r = "") then None else Some r
    | None => None
    end in
  _parse_value raw_value
    (mkProperty k [] ∅ stored (bool_decide (is_Some stored)) None None).

(** [list.sort()] on strings: ascending code-point order. *)
Definition sort_strings (l : list string) : list string :=
  merge_sort String.le l.

(** [Property.sort_items_alphabetically]. *)
Definition sort_items_alphabetically (p : Property) : Property :=
  mkProperty (key p)
    ((λ '(mod_id, items), (mod_id, sort_strings items)) <$> item_groups p)
    (all_items p) (_original_raw p) false (original_raw p) (processed_value p).

(** The separator of the rebuilt value: a space, a backslash, a newline and
    a space. *)
Definition line_joint : string := " \" +:+ nl +:+ " ".

(** The value text that [Property.to_string] rebuilds from the groups: one
    line per non-empty group, its items joined by one space. *)
Definition value_lines (groups : list (string * list string)) : list string :=
  (λ g, join " " g.2) <$> filter (λ g, g.2 ≠ []) groups.

(** [Property.to_string]. *)
Definition Property_to_string (p : Property) : string :=
  match _preserve_original p, _original_raw p with
  | true, Some raw => key p +:+ "=" +:+ raw
  | _, _ =>
      match item_groups p with
      | [] => key p +:+ "="
      | _ => key p +:+ "=" +:+ join line_joint (value_lines (item_groups p))
      end
  end.

(** [to_string] of an element, by its class. *)
Definition to_string (el : Element) : string :=
  match el with
  | Comment content => content
  | EmptyLine => ""
  | Directive content => content
  | EProperty p => Property_to_string p
  end.

(** [Property._get_all_current_items]. *)
Definition _get_all_current_items (p : Property) : list string :=
  sort_strings (concat (snd <$> item_groups p)).

Definition max_line_length : nat := 120.

(** [Property.regenerate_raw_value]: the loop over the tokens, on the pair
    ([new_lines], [current_line]). *)
Definition regenerate_step (st : list string * string) (token : string)
  : list string * string :=
  let '(new_lines, current_line) := st in
  if bool_decide
       (max_line_length
        < len current_line + len token
          + (if bool_decide (current_line = "") then 0 else 2))
     && negb (bool_decide (current_line = ""))
  then (new_lines ++ [strip current_line +:+ " \"], token)
  else if negb (bool_decide (current_line = ""))
       then (new_lines, current_line +:+ ", " +:+ token)
       else (new_lines, token).

Definition regenerate_raw_value (p : Property) : Property :=
  let all := _get_all_current_items p in
  let full_text := join ", " all in
  let tokens := split ", " full_text in
  let '(new_lines, current_line) := foldl regenerate_step ([], "") tokens in
  let new_lines :=
    if bool_decide (current_line = "") then new_lines
    else new_lines ++ [strip current_line] in
  let raw := join nl new_lines in
  mkProperty (key p) (item_groups p) (all_items p) (_original_raw p)
    (_preserve_original p) (Some raw) (Some (replace " \" "" raw)).

(** ** The parser ([BlockPropertiesParser.parse]) *)

(** Text-mode [open] translates a carriage return, alone or followed by a
    line feed, into a line feed. *)
Fixpoint translate_newlines (s : string) : string :=
  match s with
  | "" => ""
  | String c s' =>
      if bool_decide (c = CR) then
        String NL
          match s' with
          | String d s'' =>
              if bool_decide (d = NL) then translate_newlines s''
              else translate_newlines s'
          | "" => ""
          end
      else String c (translate_newlines s')
  end.

(** [f.readlines()] on translated text: each line keeps its line feed. *)
Fixpoint split_keepends (s : string) : list string :=
  match s with
  | "" => []
  | String c s' =>
      if bool_decide (c = NL) then nl :: split_keepends s'
      else match split_keepends s' with
           | l :: ls => String c l :: ls
           | [] => [String c ""]
           end
  end.

Definition readlines (text : string) : list string :=
  split_keepends (translate_newlines text).

(** [r[:-1]]. *)
Fixpoint drop_last (s : string) : string :=
  match s with
  | "" => ""
  | String c "" => ""
  | String c s' => String c (drop_last s')
  end.

Definition directive_keywords : list string :=
  ["#ifdef"; "#ifndef"; "#else"; "#endif"; "#define"].

(** [ln.rstrip().endswith('\\')]. *)
Definition continues (ln : string) : bool := endswith "\" (rstrip ln).

(** The end of the [if '=' in line] branch: the element built from the key
    and the raw value lines collected by the inner [while]. *)
Definition property_of_lines (k : string) (raw_value_lines : list string)
  : Element :=
  let original_raw_value := join nl raw_value_lines in
  let processed_lines :=
    (λ ln, if continues ln then drop_last (rstrip ln) else ln)
      <$> raw_value_lines in
  let processed_value := lstrip (join nl processed_lines) in
  EProperty (new_Property k processed_value (Some original_raw_value)).

(** The [while i < len(lines)] loop. The inner [while] is the local
    [collect]: it appends the following lines to [raw_value_lines] as long
    as the last one collected ends in a backslash, and stops at the end of
    the file. *)
Fixpoint parse_lines (lines : list string) : list Element :=
  match lines with
  | [] => []
  | raw :: rest =>
      let line := rstrip_nl raw in
      let stripped_line := strip line in
      if bool_decide (stripped_line = "") then EmptyLine :: parse_lines rest
      else if existsb (λ kw, startswith kw stripped_line) directive_keywords
      then Directive line :: parse_lines rest
      else if startswith "#" stripped_line
      then Comment line :: parse_lines rest
      else
        match find_split "=" line with
        | Some (k, value) =>
            (fix collect (raw_value_lines todo : list string) {struct todo}
               : list Element :=
               if continues (default "" (last raw_value_lines)) then
                 match todo with
                 | next_line :: todo' =>
                     collect (raw_value_lines ++ [rstrip_nl next_line]) todo'
                 | [] => [property_of_lines (strip k) raw_value_lines]
                 end
               else
                 property_of_lines (strip k) raw_value_lines
                   :: parse_lines todo) [rstrip_nl value] rest
        | None => Comment ("# [UNPARSED] " +:+ line) :: parse_lines rest
        end
  end.

(** [parse(file_path)]: [None] is a file that cannot be opened or read. *)
Definition parse (file : option string) : list Element :=
  match file with
  | None => []
  | Some text => parse_lines (readlines text)
  end.

(** The text of a document, as [get_diff] builds it: every element's string
    followed by a line feed. *)
Definition serialize (els : list Element) : string :=
  foldr (λ el acc, to_string el +:+ nl +:+ acc) "" els.

(** ** The manager ([block_properties_manager.py]) *)

(** The state of a [BlockPropertiesManager]. The two stacks grow at the end
    ([append]) and shrink at the end ([pop]). *)
Record Manager : Type := mkManager {
  original_elements : option (list Element);
  modified_elements : option (list Element);
  history_stack : list (option (list Element));
  redo_stack : list (option (list Element));
  history_descriptions : list string;
  _suggestion_index : gmap string (gset string);
  _family_index : gmap string (gmap string nat);
  _all_item_values : gset string;
  _all_base_item_names : gset string
}.

(** [BlockPropertiesManager()]. *)
Definition new_Manager : Manager :=
  mkManager None None [] [] [] ∅ ∅ ∅ ∅.

Inductive exn : Type := IndexError | TypeError.

Inductive outcome (A : Type) : Type :=
  | Returns (a : A)
  | Raises (e : exn).
Global Arguments Returns {A} a.
Global Arguments Raises {A} e.

Definition bind_outcome {A B} (x : outcome A) (f : A → outcome B)
  : outcome B :=
  match x with
  | Returns a => f a
  | Raises e => Raises e
  end.

(** The truth value of a list attribute that may be [None]. *)
Definition truthy {A} (l : option (list A)) : bool :=
  match l with
  | Some (_ :: _) => true
  | _ => false
  end.

Definition set_modified (els : option (list Element)) (m : Manager)
  : Manager :=
  mkManager (original_elements m) els (history_stack m) (redo_stack m)
    (history_descriptions m) (_suggestion_index m) (_family_index m)
    (_all_item_values m) (_all_base_item_names m).

Definition set_history (h : list (option (list Element))) (m : Manager)
  : Manager :=
  mkManager (original_elements m) (modified_elements m) h (redo_stack m)
    (history_descriptions m) (_suggestion_index m) (_family_index m)
    (_all_item_values m) (_all_base_item_names m).

Definition set_redo (r : list (option (list Element))) (m : Manager)
  : Manager :=
  mkManager (original_elements m) (modified_elements m) (history_stack m) r
    (history_descriptions m) (_suggestion_index m) (_family_index m)
    (_all_item_values m) (_all_base_item_names m).

Definition set_descriptions (d : list string) (m : Manager) : Manager :=
  mkManager (original_elements m) (modified_elements m) (history_stack m)
    (redo_stack m) d (_suggestion_index m) (_family_index m)
    (_all_item_values m) (_all_base_item_names m).

(** [_save_state_for_undo]. *)
Definition _save_state_for_undo (action_description : string) (m : Manager)
  : Manager :=
  if truthy (modified_elements m) then
    mkManager (original_elements m) (modified_elements m)
      (history_stack m ++ [modified_elements m]) []
      (history_descriptions m ++ [action_description])
      (_suggestion_index m) (_family_index m)
      (_all_item_values m) (_all_base_item_names m)
  else m.

(** [_find_property] on the element list. *)
Fixpoint find_property (category_id : string) (els : list Element)
  : option Property :=
  match els with
  | [] => None
  | EProperty p :: els' =>
      if decide (key p = category_id) then Some p
      else find_property category_id els'
  | _ :: els' => find_property category_id els'
  end.

Definition _find_property (category_id : string) (m : Manager)
  : option Property :=
  if truthy (modified_elements m)
  then find_property category_id (default [] (modified_elements m))
  else None.

(** A method call on the object that [_find_property] returns changes that
    object inside the list: [update_property] applies [f] to the first
    [Property] with the key. *)
Fixpoint update_property (category_id : string) (f : Property → Property)
  (els : list Element) : list Element :=
  match els with
  | [] => []
  | EProperty p :: els' =>
      if decide (key p = category_id) then EProperty (f p) :: els'
      else EProperty p :: update_property category_id f els'
  | el :: els' => el :: update_property category_id f els'
  end.

(** [item.split(":")[-1].split("[")[0]], the base name of the suggestion
    engine, and [base_name.split("_")[-1]], its family key. *)
Definition suggestion_base_name (item : string) : string :=
  default "" (head (split "[" (default "" (last (split ":" item))))).

Definition family_key_of (base_name : string) : string :=
  default "" (last (split "_" base_name)).

(** [val.split(':')[0].split('[')[0]], the base name of the lookup sets. *)
Definition lookup_base_name (val : string) : string :=
  default "" (head (split "[" (default "" (head (split ":" val))))).

Section manager.

(** The order in which Python enumerates a set. *)
Variable set_iter : gset string → list string.
Hypothesis set_iter_perm : ∀ X, set_iter X ≡ₚ elements X.

(** [_build_suggestion_index], the keyword part for one property. *)
Definition words_in_prop (p : Property) : gset string :=
  list_to_set
    (findall_words
       (lower (replace "_" " " (join " " (set_iter (all_items p)))))).

Definition index_words (p : Property) (idx : gmap string (gset string))
  : gmap string (gset string) :=
  foldl (λ acc word, <[word := default ∅ (acc !! word) ∪ {[key p]}]> acc)
    idx (set_iter (words_in_prop p)).

(** [_build_suggestion_index], the family part for one item. *)
Definition index_family (k : string) (fam : gmap string (gmap string nat))
  (item : string) : gmap string (gmap string nat) :=
  let family_key := family_key_of (suggestion_base_name item) in
  if negb (bool_decide (family_key = "")) && negb (isnumeric family_key)
     && bool_decide (2 < len family_key)
  then
    let per_category := default ∅ (fam !! family_key) in
    <[family_key :=
        <[k := default 0 (per_category !! k) + 1]> per_category]> fam
  else fam.

Definition index_element
  (st : gmap string (gset string) * gmap string (gmap string nat))
  (el : Element)
  : gmap string (gset string) * gmap string (gmap string nat) :=
  match el with
  | EProperty p =>
      (index_words p st.1,
       foldl (index_family (key p)) st.2 (set_iter (all_items p)))
  | _ => st
  end.

Definition _build_suggestion_index (m : Manager) : Manager :=
  let '(idx, fam) :=
    if truthy (modified_elements m)
    then foldl index_element (∅, ∅) (default [] (modified_elements m))
    else (∅, ∅) in
  mkManager (original_elements m) (modified_elements m) (history_stack m)
    (redo_stack m) (history_descriptions m) idx fam
    (_all_item_values m) (_all_base_item_names m).

(** [_build_lookup_sets]. *)
Definition all_item_values_of (els : list Element) : gset string :=
  foldl (λ acc el,
           match el with
           | EProperty p => acc ∪ list_to_set (set_iter (all_items p))
           | _ => acc
           end) ∅ els.

Definition _build_lookup_sets (m : Manager) : Manager :=
  if truthy (modified_elements m) then
    let values := all_item_values_of (default [] (modified_elements m)) in
    mkManager (original_elements m) (modified_elements m) (history_stack m)
      (redo_stack m) (history_descriptions m) (_suggestion_index m)
      (_family_index m) values
      (list_to_set (lookup_base_name <$> set_iter values))
  else m.

(** [load_file]: the parsed elements become both documents. *)
Definition load_file (file : option string) (m : Manager)
  : bool * Manager :=
  let elements := parse file in
  match elements with
  | [] => (false, m)
  | _ =>
      (true,
       _build_lookup_sets
         (_build_suggestion_index
            (mkManager (Some elements) (Some elements) [] [] []
               (_suggestion_index m) (_family_index m)
               (_all_item_values m) (_all_base_item_names m))))
  end.

(** *** [add_items_to_category] *)

(** [":".join(template_item.split(":")[:2])]. *)
Definition template_base_name_of (template_item : string) : string :=
  join ":" (take 2 (split ":" template_item)).

(** Template mode, step 1: the variations of the template, per category
    key, in the order of the scan. [collect_item] is the body of the inner
    loop, [collect_element] the body of the outer one. *)
Definition collect_item (template_base_name k : string)
    (acc : list (string * list string)) (item_in_prop : string)
  : list (string * list string) :=
  if startswith template_base_name item_in_prop
  then od_alter (λ l, l ++ [item_in_prop]) k (od_setdefault k [] acc)
  else acc.

Definition collect_element (template_base_name : string)
    (acc : list (string * list string)) (el : Element)
  : list (string * list string) :=
  match el with
  | EProperty p =>
      foldl (collect_item template_base_name (key p)) acc
        (set_iter (all_items p))
  | _ => acc
  end.

Definition collect_variations (template_base_name : string)
  (els : list Element) : list (string * list string) :=
  foldl (collect_element template_base_name) [] els.

(** The mod id under which a new item is filed. *)
Definition mod_id_of (item : string) : string :=
  if contains ":" item then default "" (head (split ":" item))
  else "minecraft".

(** Template mode, step 2, the two inner loops on the target property:
    the property after the additions, and whether one was made. *)
Definition add_variation (template_base_name : string)
  (items_to_add : list string) (st : Property * bool)
  (template_variation : string) : Property * bool :=
  let suffix := replace1 template_base_name "" template_variation in
  foldl (λ '(target, added) new_item_base,
           let new_full_item := new_item_base +:+ suffix in
           if decide (new_full_item ∈ all_items target) then (target, added)
           else (add_item new_full_item (mod_id_of new_item_base) target,
                 true))
        st items_to_add.

(** Template mode, step 2, the loop over the categories: the elements, the
    flag [items_were_added] and the keys of [modified_properties]. *)
Definition apply_variations (template_base_name : string)
  (items_to_add : list string)
  (st : list Element * bool * list string)
  (entry : string * list string) : list Element * bool * list string :=
  let '(els, items_were_added, modified_properties) := st in
  let '(category_id, template_variations) := entry in
  match find_property category_id els with
  | None => st
  | Some target_property =>
      let '(target', added) :=
        foldl (add_variation template_base_name items_to_add)
          (target_property, false) template_variations in
      if added then
        (update_property category_id (λ _, target') els, true,
         if bool_decide (category_id ∈ modified_properties)
         then modified_properties
         else modified_properties ++ [category_id])
      else st
  end.

Definition rebuild_indices (m : Manager) : Manager :=
  _build_lookup_sets (_build_suggestion_index m).

Definition add_items_template (items_to_add : list string)
  (template_item : string) (m : Manager) : bool * Manager :=
  let template_base_name := template_base_name_of template_item in
  if truthy (modified_elements m) then
    let els := default [] (modified_elements m) in
    let template_variations_by_category :=
      collect_variations template_base_name els in
    let description :=
      "Template: Applied '" +:+ template_item +:+ "' to "
      +:+ str_of_nat (length items_to_add) +:+ " items" in
    let m := _save_state_for_undo description m in
    let '(els, items_were_added, modified_properties) :=
      foldl (apply_variations template_base_name items_to_add)
        (els, false, []) template_variations_by_category in
    let els :=
      foldl (λ els category_id,
               update_property category_id regenerate_raw_value els)
        els modified_properties in
    let m := set_modified (Some els) m in
    if items_were_added then (true, rebuild_indices m) else (false, m)
  else (false, m).

Definition add_items_simple (items_to_add : list string)
  (category_id : string) (m : Manager) : bool * Manager :=
  match _find_property category_id m with
  | None => (false, m)
  | Some target_property =>
      if forallb (λ item, bool_decide (item ∈ all_items target_property))
           items_to_add
      then (false, m)
      else
        let description :=
          "Added " +:+ str_of_nat (length items_to_add) +:+ " items to '"
          +:+ category_id +:+ "'" in
        let m := _save_state_for_undo description m in
        let els :=
          update_property category_id
            (λ target,
               regenerate_raw_value
                 (foldl (λ t item, add_item item (mod_id_of item) t)
                    target items_to_add))
            (default [] (modified_elements m)) in
        (true, rebuild_indices (set_modified (Some els) m))
  end.

(** [template_item] is [None] or a string; an empty string is falsy. *)
Definition add_items_to_category (items_to_add : list string)
  (category_id : string) (template_item : option string) (m : Manager)
  : bool * Manager :=
  match template_item with
  | Some t =>
      if bool_decide (t = "")
      then add_items_simple items_to_add category_id m
      else add_items_template items_to_add t m
  | None => add_items_simple items_to_add category_id m
  end.

(** *** [suggest_categories_for_items_list]

    The accumulated scores are sums of the integers 1 and 5 and of
    [count * 5.0]: they are integers, kept here as [Z]. The quotient
    [score / max_score] is the rational [Q]; Python's float quotient is its
    correctly rounded value, which is 1.0 exactly for [score = max_score]
    and orders two quotients as the rationals do while the scores stay
    below 2^53. *)

Definition add_score (weight : Z) (scores : gmap string Z)
  (category_id : string) : gmap string Z :=
  <[category_id := (default 0 (scores !! category_id) + weight)%Z]> scores.

Definition FAMILY_MATCH_BONUS_PER_ITEM : Z := 5.

Definition keywords_of (base_name : string) : gset string :=
  list_to_set (split_ws (replace "_" " " base_name)) ∪ {[base_name]}.

Definition score_keyword (m : Manager) (base_name : string)
  (scores : gmap string Z) (keyword : string) : gmap string Z :=
  let weight := if bool_decide (keyword = base_name) then 5%Z else 1%Z in
  match _suggestion_index m !! keyword with
  | Some categories => foldl (add_score weight) scores (set_iter categories)
  | None => scores
  end.

Definition score_family (m : Manager) (base_name : string)
  (scores : gmap string Z) : gmap string Z :=
  let family_key := family_key_of base_name in
  if bool_decide (family_key = "") then scores
  else match _family_index m !! family_key with
       | Some per_category =>
           foldl (λ acc '(category_id, count),
                    add_score (Z.of_nat count * FAMILY_MATCH_BONUS_PER_ITEM)
                      acc category_id)
             scores (map_to_list per_category)
       | None => scores
       end.

Definition score_item (m : Manager) (scores : gmap string Z)
  (item_name : string) : gmap string Z :=
  let base_name := suggestion_base_name item_name in
  score_family m base_name
    (foldl (score_keyword m base_name) scores
       (set_iter (keywords_of base_name))).

Definition category_scores (m : Manager) (item_names : list string)
  : gmap string Z :=
  foldl (score_item m) ∅ item_names.

(** [max(category_scores.values())] of a non-empty dictionary. *)
Definition max_of (scores : gmap string Z) : Z :=
  match (map_to_list scores).*2 with
  | [] => 1
  | v :: vs => foldl Z.max v vs
  end.

Definition normalize (max_score score : Z) : Q :=
  if bool_decide (0 < max_score)%Z then Qmake score (Z.to_pos max_score)
  else 0%Q.

(** The order of the sort key [(-x[1], x[0])]. *)
Definition suggestion_le (x y : string * Q) : Prop :=
  match (y.2 ?= x.2)%Q with
  | Lt => True
  | Eq => String.le x.1 y.1
  | Gt => False
  end.

Global Instance suggestion_le_dec : RelDecision suggestion_le.
Proof.
  intros x y. unfold suggestion_le. destruct (y.2 ?= x.2)%Q; apply _.
Defined.

Definition suggest_categories_for_items_list (item_names : list string)
  (m : Manager) : list (string * Q) :=
  if bool_decide (item_names = [])
     || bool_decide (_suggestion_index m = ∅)
  then []
  else
    let scores := category_scores m item_names in
    let max_score := max_of scores in
    merge_sort suggestion_le
      ((λ '(category_id, score), (category_id, normalize max_score score))
         <$> map_to_list scores).

(** *** [check_item_existence] *)

Inductive existence : Type := EXISTS | PARTIAL | NEW.

Definition check_item_existence (item_name : string) (m : Manager)
  : existence * Manager :=
  let m :=
    if bool_decide (_all_item_values m = ∅) then _build_lookup_sets m
    else m in
  if bool_decide (item_name ∈ _all_item_values m) then (EXISTS, m)
  else if bool_decide
            (lookup_base_name item_name ∈ _all_base_item_names m)
  then (PARTIAL, m)
  else (NEW, m).

(** *** [sort_category] *)

Definition sort_category (category_id : string) (m : Manager)
  : outcome Manager :=
  let m := _save_state_for_undo
             ("Sorted category '" +:+ category_id +:+ "'") m in
  match _find_property category_id m with
  | Some _ =>
      Returns
        (set_modified
           (Some
              (update_property category_id
                 (λ prop,
                    regenerate_raw_value (sort_items_alphabetically prop))
                 (default [] (modified_elements m)))) m)
  | None =>
      match history_stack m with
      | [] => Raises IndexError
      | _ => Returns (set_history (removelast (history_stack m)) m)
      end
  end.

(** *** [create_new_category] *)

(** [int(key.split(".")[-1])]. *)
Definition numeric_id (k : string) : option Z :=
  py_int (default "" (last (split "." k))).

(** The [for i, el in enumerate(...)] scan: the index of the first
    property whose numeric id exceeds [new_id_num]. *)
Fixpoint insert_scan (new_id_num : Z) (i : nat) (els : list Element)
  : option nat :=
  match els with
  | [] => None
  | EProperty p :: els' =>
      match numeric_id (key p) with
      | Some current_id_num =>
          if bool_decide (new_id_num < current_id_num)%Z then Some i
          else insert_scan new_id_num (S i) els'
      | None => insert_scan new_id_num (S i) els'
      end
  | _ :: els' => insert_scan new_id_num (S i) els'
  end.

(** [l.insert(pos, x)] for [pos] within the list. *)
Definition list_insert_at {A} (pos : nat) (x : A) (l : list A) : list A :=
  take pos l ++ x :: drop pos l.

Definition create_new_category (category_id : string) (m : Manager)
  : outcome Manager :=
  match _find_property category_id m with
  | Some _ => Returns m
  | None =>
      let m := _save_state_for_undo
                 ("Created category '" +:+ category_id +:+ "'") m in
      let new_prop := new_Property category_id "" None in
      match modified_elements m with
      | None => Raises TypeError
      | Some els =>
          let insert_pos :=
            match numeric_id category_id with
            | Some new_id_num =>
                default (length els) (insert_scan new_id_num 0 els)
            | None => length els
            end in
          let els := list_insert_at insert_pos (EProperty new_prop) els in
          let els :=
            if bool_decide (insert_pos < length els - 1)
            then list_insert_at (insert_pos + 1) EmptyLine els
            else els in
          Returns (_build_suggestion_index (set_modified (Some els) m))
      end
  end.

(** *** [get_diff], [undo] and [redo] *)

Definition text_of (els : option (list Element)) : string :=
  if truthy els then serialize (default [] els) else "".

Definition get_diff (m : Manager) : string * string :=
  (text_of (original_elements m), text_of (modified_elements m)).

Definition undo (m : Manager) : outcome Manager :=
  match last (history_stack m) with
  | None => Returns m
  | Some previous =>
      let m := set_redo (redo_stack m ++ [modified_elements m]) m in
      let m := set_history (removelast (history_stack m)) m in
      let m := set_modified previous m in
      match history_descriptions m with
      | [] => Raises IndexError
      | _ =>
          Returns
            (_build_suggestion_index
               (set_descriptions (removelast (history_descriptions m)) m))
      end
  end.

Definition redo (m : Manager) : Manager :=
  match last (redo_stack m) with
  | None => m
  | Some undone =>
      let m := set_history (history_stack m ++ [modified_elements m]) m in
      let m := set_redo (removelast (redo_stack m)) m in
      _build_suggestion_index (set_modified undone m)
  end.

(** *** Template resolution, used by the auto-mapper's preview *)

(** The base name of [get_all_base_item_names]: the text before the first
    bracket, cut before its first colon-separated part that holds an equals
    sign. *)
Fixpoint parts_before_state (parts : list string) : list string :=
  match parts with
  | [] => []
  | part :: parts' =>
      if contains "=" part then [] else part :: parts_before_state parts'
  end.

Definition full_base_name (item : string) : string :=
  join ":"
    (parts_before_state (split ":" (default "" (head (split "[" item))))).

Definition get_all_base_item_names (m : Manager) : list string :=
  if truthy (modified_elements m) then
    sort_strings
      (set_iter
         (foldl (λ base_names el,
                   match el with
                   | EProperty p =>
                       foldl (λ acc item,
                                let base_name := full_base_name item in
                                if bool_decide (base_name = "") then acc
                                else acc ∪ {[base_name]})
                             base_names (set_iter (all_items p))
                   | _ => base_names
                   end) (∅ : gset string)
                (default [] (modified_elements m))))
  else [].

Definition resolve_template_name_to_base_item (template_name : string)
  (m : Manager) : option string :=
  if bool_decide (template_name = "") || negb (truthy (modified_elements m))
  then None
  else
    let base_names := get_all_base_item_names m in
    match List.find (λ b, bool_decide (b = template_name)
                          || endswith (":" +:+ template_name) b)
            base_names with
    | Some b => Some b
    | None => List.find (λ b, contains template_name b) base_names
    end.

Definition get_target_categories_for_template (template_item : string)
  (m : Manager) : list string :=
  if negb (truthy (modified_elements m)) || bool_decide (template_item = "")
  then []
  else
    let template_base_name := template_base_name_of template_item in
    sort_strings
      (set_iter
         (foldl (λ target_categories el,
                   match el with
                   | EProperty p =>
                       if existsb (startswith template_base_name)
                            (set_iter (all_items p))
                       then target_categories ∪ {[key p]}
                       else target_categories
                   | _ => target_categories
                   end) (∅ : gset string)
                (default [] (modified_elements m)))).

Definition get_template_target_property (template_name : string)
  (m : Manager) : option string :=
  let candidate_item :=
    if contains ":" template_name then Some template_name
    else resolve_template_name_to_base_item template_name m in
  match candidate_item with
  | None => None
  | Some candidate =>
      if bool_decide (candidate = "") then None
      else head (get_target_categories_for_template candidate m)
  end.

End manager.

(** ** The rule-based auto-mapper ([auto_mapper.py]) *)

(** [Rule = (matcher_type, matcher_value, template_name)]. *)
Definition Rule : Type := string * string * string.

Definition template_name_of (rule : Rule) : string := rule.2.

Section auto_mapper.

(** [re.search(val, item) is not None]; [None] stands for [re.error], an
    invalid pattern. The regular-expression engine is Python's library, not
    code of the repository. *)
Variable re_search : string → string → option bool.

(** [matches]. *)
Definition matches (item : string) (rule : Rule) : bool :=
  let '(t, val, _) := rule in
  if bool_decide (t = "contains") then contains val item
  else if bool_decide (t = "prefix") then startswith val item
  else if bool_decide (t = "suffix") then endswith val item
  else if bool_decide (t = "exact") then bool_decide (item = val)
  else if bool_decide (t = "regex") then default false (re_search val item)
  else false.

(** The inner [for rule in rules] loop with its [break]. *)
Fixpoint first_match (item : string) (rules : list Rule) : option Rule :=
  match rules with
  | [] => None
  | rule :: rules' =>
      if matches item rule then Some rule else first_match item rules'
  end.

(** The caller's state, which only the resolver callback can reach. *)
Context {S : Type}.
Variable template_resolver : string → S → option string * S.

Definition no_rule_matched : string := "no rule matched".

Definition template_not_found (template_name : string) : string :=
  "template '" +:+ template_name +:+ "' not found".

(** The body of the [for item in new_items] loop, on the two result lists
    and the caller's state. A resolver result that is [None] or the empty
    string is falsy. *)
Definition automap_step (rules : list Rule)
  (st : list (string * string * string) * list (string * string) * S)
  (item : string)
  : list (string * string * string) * list (string * string) * S :=
  let '(mapped, unmapped, s) := st in
  match first_match item rules with
  | None => (mapped, unmapped ++ [(item, no_rule_matched)], s)
  | Some chosen =>
      let template_name := template_name_of chosen in
      let '(target_key, s) := template_resolver template_name s in
      match target_key with
      | Some target =>
          if bool_decide (target = "")
          then (mapped,
                unmapped ++ [(item, template_not_found template_name)], s)
          else (mapped ++ [(item, template_name, target)], unmapped, s)
      | None =>
          (mapped, unmapped ++ [(item, template_not_found template_name)],
           s)
      end
  end.

(** [automap_items]; the parameter [dry_run] is never read. *)
Definition automap_items (new_items : list string) (rules : list Rule)
  (s : S)
  : list (string * string * string) * list (string * string) * S :=
  foldl (automap_step rules) ([], [], s) new_items.

End auto_mapper.

(** ** Sample documents *)

(** A small properties file: a comment, three categories, one of them
    continued over two lines. *)
Definition sample_text : string :=
  "# blocks" +:+ nl
  +:+ "block.3=stone ns:base[facing=north] ns:base[facing=south]" +:+ nl
  +:+ "block.10=oak_stairs minecraft:birch_stairs[half=top] \" +:+ nl
  +:+ " modx:red_stairs" +:+ nl
  +:+ "block.20=oak_log" +:+ nl.

(** The manager after [load_file] on the sample, sets enumerated in the
    order of [elements]. *)
Definition sample_manager : Manager :=
  (load_file elements (Some sample_text) new_Manager).2.

(** The sample after sorting one category and undoing it: the undo stack is
    empty again and the redo stack holds the sorted document. *)
Definition sample_undone : Manager :=
  match bind_outcome (sort_category "block.10" sample_manager)
          (undo elements) with
  | Returns m => m
  | Raises _ => sample_manager
  end.

(** ** Sequences of operations *)

(** The operations of the manager that record history. *)
Inductive operation : Type :=
  | AddItems (items_to_add : list string) (category_id : string)
      (template_item : option string)
  | SortCategory (category_id : string)
  | CreateCategory (category_id : string).

Section operations.

Variable set_iter : gset string → list string.

Definition run_operation (op : operation) (m : Manager) : outcome Manager :=
  match op with
  | AddItems items_to_add category_id template_item =>
      Returns
        (add_items_to_category set_iter items_to_add category_id
           template_item m).2
  | SortCategory category_id => sort_category category_id m
  | CreateCategory category_id =>
      create_new_category set_iter category_id m
  end.

Fixpoint run_operations (ops : list operation) (m : Manager)
  : outcome Manager :=
  match ops with
  | [] => Returns m
  | op :: ops' => bind_outcome (run_operation op m) (run_operations ops')
  end.

(** The call returned and left one more snapshot on the undo stack. *)
Definition records_history (op : operation) (m : Manager) : bool :=
  match run_operation op m with
  | Returns m' =>
      bool_decide (length (history_stack m') = S (length (history_stack m)))
  | Raises _ => false
  end.

Fixpoint all_record_history (ops : list operation) (m : Manager) : bool :=
  match ops with
  | [] => true
  | op :: ops' =>
      records_history op m
      && match run_operation op m with
         | Returns m' => all_record_history ops' m'
         | Raises _ => false
         end
  end.

Fixpoint undo_times (n : nat) (m : Manager) : outcome Manager :=
  match n with
  | 0 => Returns m
  | S n' => bind_outcome (undo set_iter m) (undo_times n')
  end.

Fixpoint redo_times (n : nat) (m : Manager) : Manager :=
  match n with
  | 0 => m
  | S n' => redo_times n' (redo set_iter m)
  end.

End operations.

(** What one operation does to the history of a loaded document: either
    it pushes the live document (and a description), or it leaves both the
    undo stack and the live document alone. *)
Definition pushes (m m' : Manager) : Prop :=
  history_stack m' = history_stack m ++ [modified_elements m]
  ∧ length (history_descriptions m') = S (length (history_descriptions m)).

Definition leaves (m m' : Manager) : Prop :=
  history_stack m' = history_stack m
  ∧ modified_elements m' = modified_elements m
  ∧ length (history_descriptions m) ≤ length (history_descriptions m').

Definition well_behaved (m m' : Manager) : Prop :=
  truthy (modified_elements m') = true
  ∧ original_elements m' = original_elements m
  ∧ (pushes m m' ∨ leaves m m').

(** ** The auto-mapper's preview on a manager *)

(** The resolver closure of the preview: it asks the manager for the target
    category of a template and hands the manager back. *)
Definition manager_resolver (set_iter : gset string → list string)
  (template_name : string) (m : Manager) : option string * Manager :=
  (get_template_target_property set_iter template_name m, m).

(** How one item is classified. *)
Inductive classification : Type :=
  | Mapped (template_name target_key : string)
  | Unmapped (reason : string).

(** The classification of [item] against the rules in their file order, for
    a resolver read in state [s]: the deciding rule [rule] is preceded only
    by rules that do not match. *)
Inductive classifies {S : Type} (re_search : string → string → option bool)
    (template_resolver : string → S → option string * S)
    (rules : list Rule) (s : S) (item : string) : classification → Prop :=
  | classifies_no_rule :
      Forall (λ rule, matches re_search item rule = false) rules →
      classifies re_search template_resolver rules s item
        (Unmapped "no rule matched")
  | classifies_unresolved pre rule post :
      rules = pre ++ rule :: post →
      Forall (λ rule, matches re_search item rule = false) pre →
      matches re_search item rule = true →
      (template_resolver (template_name_of rule) s).1 = None
      ∨ (template_resolver (template_name_of rule) s).1 = Some "" →
      classifies re_search template_resolver rules s item
        (Unmapped ("template '" +:+ template_name_of rule +:+ "' not found"))
  | classifies_mapped pre rule post target :
      rules = pre ++ rule :: post →
      Forall (λ rule, matches re_search item rule = false) pre →
      matches re_search item rule = true →
      (template_resolver (template_name_of rule) s).1 = Some target →
      target ≠ "" →
      classifies re_search template_resolver rules s item
        (Mapped (template_name_of rule) target).

(** The two result lists that a list of classified items stands for. *)
Definition mapped_of (items : list (string * classification))
  : list (string * string * string) :=
  omap (λ '(item, c),
          match c with
          | Mapped template_name target => Some (item, template_name, target)
          | Unmapped _ => None
          end) items.

Definition unmapped_of (items : list (string * classification))
  : list (string * string) :=
  omap (λ '(item, c),
          match c with
          | Mapped _ _ => None
          | Unmapped reason => Some (item, reason)
          end) items.

(** Two rules that both match every item whose name holds [stairs]. *)
Definition sample_rules : list Rule :=
  [("suffix", "_wall", "andesite_wall");
   ("contains", "stairs", "oak_stairs");
   ("suffix", "_stairs", "birch_stairs");
   ("exact", "mod:lamp", "no_such_template")].

(** ** Notions for the template propagation *)

(** The items of a property as [get_items_in_category] lists them: the
    groups, flattened in order. *)
Definition items_of (p : Property) : list string :=
  concat (item_groups p).*2.

(** Every member of [all_items] is filed in a group. *)
Definition items_filed (p : Property) : Prop :=
  ∀ item, item ∈ all_items p → item ∈ items_of p.

(** [p'] is [p] with items added: the same key, no item lost. *)
Definition extends (p p' : Property) : Prop :=
  key p' = key p
  ∧ all_items p ⊆ all_items p'
  ∧ (items_filed p → items_filed p').


(** A document in which one category holds the two facing variants of
    [ns:base] and another category holds unrelated items. *)
Definition facing_text : string :=
  "block.1=stone dirt" +:+ nl
  +:+ "block.2=ns:base[facing=north] ns:base[facing=south]" +:+ nl.

Definition facing_manager : Manager :=
  (load_file elements (Some facing_text) new_Manager).2.

Definition facing_elements : list Element :=
  default [] (modified_elements facing_manager).

Definition facing_property : Property :=
  default (new_Property "" "" None) (find_property "block.2" facing_elements).

(** The item is among the variations collected under the key. *)
Definition recorded (acc : list (string * list string)) (k item : string)
  : Prop :=
  ∃ vars, (k, vars) ∈ acc ∧ item ∈ vars.

(** ** Notions for the existence check *)

(** The lookup sets are the ones [_build_lookup_sets] computes from the live
    document [els]. *)
Definition lookup_sets_fresh (set_iter : gset string → list string)
    (m : Manager) (els : list Element) : Prop :=
  modified_elements m = Some els
  ∧ truthy (Some els) = true
  ∧ _all_item_values m = all_item_values_of set_iter els
  ∧ _all_base_item_names m
    = list_to_set (lookup_base_name <$> set_iter (_all_item_values m)).

(** The item is in some category of the document. *)
Definition item_in_document (els : list Element) (item : string) : Prop :=
  ∃ q, EProperty q ∈ els ∧ item ∈ all_items q.





(** ** Notions for the rebuilt text of a property *)











(** ** Notions for the round trip *)

(** The text of a list of lines, each ended by a line feed. *)
Definition text_of_lines (lines : list string) : string :=
  foldr (λ line acc, line +:+ nl +:+ acc) "" lines.

(** The line holds neither a line feed nor a carriage return. *)
Definition line_clean (line : string) : Prop :=
  forallb_str (λ c, negb (bool_decide (c = NL)) && negb (bool_decide (c = CR)))
    line = true.

(** The raw value lines [v :: conts] of one property: every line but the
    last ends in a continuation backslash, and the last one does not, unless
    the file ends there ([at_eof]). *)
Fixpoint well_continued (v : string) (conts : list string) (at_eof : Prop)
  : Prop :=
  match conts with
  | [] => continues v = false ∨ at_eof
  | c :: conts' => continues v = true ∧ well_continued c conts' at_eof
  end.

(** The lines of a properties file that holds only the four element kinds:
    blank lines, lines whose first non-blank character is [#] (comments and
    directives), and properties [key=value] with their continuation lines.
    [blank_ok] and [key_ok] say which blank lines and which keys are
    admitted. *)
Inductive file_lines (blank_ok key_ok : string → Prop)
  : list string → Prop :=
  | file_end : file_lines blank_ok key_ok []
  | file_blank line lines :
      strip line = "" →
      blank_ok line →
      file_lines blank_ok key_ok lines →
      file_lines blank_ok key_ok (line :: lines)
  | file_hash line lines :
      startswith "#" (strip line) = true →
      file_lines blank_ok key_ok lines →
      file_lines blank_ok key_ok (line :: lines)
  | file_property k v conts lines :
      contains "=" k = false →
      startswith "#" (strip (k +:+ "=" +:+ v)) = false →
      key_ok k →
      well_continued v conts (lines = []) →
      file_lines blank_ok key_ok lines →
      file_lines blank_ok key_ok ((k +:+ "=" +:+ v) :: conts ++ lines).

(** The files of the claim as stated: any blank line, any key. *)
Definition four_kinds : list string → Prop :=
  file_lines (λ _, True) (λ _, True).

(** The files that come back unchanged: a blank line is empty and a key has
    no blank around it. *)
Definition canonical_file : list string → Prop :=
  file_lines (λ line, line = "") (λ k, strip k = k).

(** Loading a text and serializing the document, [n] times over. *)
Definition reload (text : string) : string := serialize (parse (Some text)).

(** The inner [while] of [parse_lines], by name. *)
Definition collect_from (k : string)
  : list string → list string → list Element :=
  fix collect (raw_value_lines todo : list string) {struct todo}
    : list Element :=
    if continues (default "" (last raw_value_lines)) then
      match todo with
      | next_line :: todo' =>
          collect (raw_value_lines ++ [rstrip_nl next_line]) todo'
      | [] => [property_of_lines (strip k) raw_value_lines]
      end
    else
      property_of_lines (strip k) raw_value_lines :: parse_lines todo.

(** A file with a comment, a directive, a blank line and a property
    continued over three lines. *)
Definition canonical_sample : list string :=
  ["# Iris block ids"; "#ifdef NEW_BLOCKS"; "";
   "block.10=oak_stairs birch_stairs \";
   " modx:red_stairs modx:blue_stairs \";
   "   modx:green_stairs"; "#endif"; "block.20="].

(** ** Notions for the suggestions *)

(** The score accumulated for a category, 0 when it has none. *)
Definition score_of (scores : gmap string Z) (category_id : string) : Z :=
  default 0%Z (scores !! category_id).

Definition sumZ (l : list Z) : Z := foldr Z.add 0%Z l.

(** What one keyword adds to the score of a category. *)
Definition keyword_weight (m : Manager) (base_name keyword : string)
    (category_id : string) : Z :=
  match _suggestion_index m !! keyword with
  | Some categories =>
      if decide (category_id ∈ categories)
      then (if bool_decide (keyword = base_name) then 5 else 1)%Z
      else 0%Z
  | None => 0%Z
  end.

(** What the family index adds to the score of a category. *)
Definition family_weight (m : Manager) (base_name : string)
    (category_id : string) : Z :=
  if bool_decide (family_key_of base_name = "") then 0%Z
  else match _family_index m !! family_key_of base_name with
       | Some per_category =>
           (Z.of_nat (default 0%nat (per_category !! category_id)) * 5)%Z
       | None => 0%Z
       end.

(** The two indices are the ones [_build_suggestion_index] computes from the
    live document [els]. *)
Definition index_in_sync (set_iter : gset string → list string)
    (m : Manager) (els : list Element) : Prop :=
  modified_elements m = Some els
  ∧ truthy (Some els) = true
  ∧ _suggestion_index m = (foldl (index_element set_iter) (∅, ∅) els).1
  ∧ _family_index m = (foldl (index_element set_iter) (∅, ∅) els).2.

(** The family key of an item is [stairs]: its base name is [stairs] or
    ends in [_stairs]. *)
Definition in_stairs_family (item : string) : bool :=
  bool_decide (family_key_of (suggestion_base_name item) = "stairs").

(** The base name of an item ends in the letters [stairs]. *)
Definition ends_in_stairs (item : string) : bool :=
  endswith "stairs" (suggestion_base_name item).

Definition has_item_where (f : string → bool) (el : Element) : bool :=
  match el with
  | EProperty q => existsb f (elements (all_items q))
  | _ => false
  end.

Definition has_key (k : string) (el : Element) : bool :=
  match el with
  | EProperty q => bool_decide (key q = k)
  | _ => false
  end.

(** Some category with key [k] holds an item that satisfies [f], and no
    category with another key does. *)
Definition only_in (f : string → bool) (k : string) (els : list Element)
  : bool :=
  existsb (λ el, has_key k el && has_item_where f el) els
  && forallb (λ el, has_key k el || negb (has_item_where f el)) els.

(** A document in which only [block.10] holds an item whose base name ends
    in [stairs], but not as a word of its own. *)
Definition upstairs_manager : Manager :=
  (load_file elements
     (Some ("block.10=minecraft:oakstairs" +:+ nl
            +:+ "block.20=minecraft:oak_log" +:+ nl)) new_Manager).2.

(** All scores of a dictionary are at least 1. *)
Definition positive_scores (scores : gmap string Z) : Prop :=
  ∀ c v, scores !! c = Some v → (1 ≤ v)%Z.

(** Every count of a family index is at least 1. *)
Definition positive_counts (fam : gmap string (gmap string nat)) : Prop :=
  ∀ family_key per_category c n,
    fam !! family_key = Some per_category → per_category !! c = Some n →
    0 < n.

Definition not_underscore (c : ascii) : bool :=
  negb (bool_decide (c = "_"%char)).

(** The family index holds a count for the family key under the category. *)
Definition family_entry (fam : gmap string (gmap string nat))
    (family_key category_id : string) : Prop :=
  ∃ per_category n,
    fam !! family_key = Some per_category ∧ per_category !! category_id = Some n.

(** The conditions under which an item's family key is indexed. *)
Definition family_key_ok (family_key : string) : bool :=
  negb (bool_decide (family_key = "")) && negb (isnumeric family_key)
  && bool_decide (2 < len family_key).

(** The character [c] occurs in [s]. *)
Definition has_char (c : ascii) (s : string) : bool :=
  existsb_str (λ d, bool_decide (d = c)) s.

(** ** Notions for the items of a property *)

(** The groups are a dictionary (no key twice), no item is filed twice, and
    [all_items] is the set of the filed items. *)
Definition Property_consistent (p : Property) : Prop :=
  NoDup (item_groups p).*1
  ∧ NoDup (items_of p)
  ∧ ∀ item, item ∈ all_items p ↔ item ∈ items_of p.

(** The state of the loop that files the items of one line. *)
Definition filed (g : list (string * list string)) (a : gset string) : Prop :=
  NoDup g.*1 ∧ NoDup (concat g.*2) ∧ ∀ x, x ∈ a ↔ x ∈ concat g.*2.

(** The tokens of a value text: the blank-separated words of its lines. *)
Definition value_tokens (raw_value : string) : list string :=
  concat ((λ line, split_ws (strip line)) <$> splitlines raw_value).

(** A line as [readlines] returns it: a text without line feed or carriage
    return, followed by a line feed unless the file ends there. *)
Definition raw_line (raw : string) : Prop :=
  ∃ body, line_clean body ∧ (raw = body ∨ raw = body +:+ nl).

(** ** Queries, saving and navigation ([block_properties_manager.py]) *)

(** [get_all_category_ids]. *)
Definition get_all_category_ids (m : Manager) : list string :=
  if truthy (modified_elements m) then
    omap (λ el, match el with EProperty p => Some (key p) | _ => None end)
      (default [] (modified_elements m))
  else [].

(** [get_items_in_category]: the loop extends the result by every group. A
    [Property] object is always truthy. *)
Definition get_items_in_category (category_id : string) (m : Manager)
  : list string :=
  match _find_property category_id m with
  | None => []
  | Some prop =>
      foldl (λ all_items g, all_items ++ g.2) [] (item_groups prop)
  end.

(** [save_to_file]: the text written to the output file, [None] when the
    method returns without writing. *)
Definition save_to_file (m : Manager) : option string :=
  if truthy (modified_elements m) then Some (get_diff m).2 else None.

(** [find_element_index_by_id]: the [enumerate] loop from index [i] on. *)
Fixpoint find_index (element_id : string) (i : nat) (els : list Element)
  : option nat :=
  match els with
  | [] => None
  | EProperty p :: els' =>
      if decide (key p = element_id) then Some i
      else find_index element_id (S i) els'
  | _ :: els' => find_index element_id (S i) els'
  end.

Definition find_element_index_by_id (element_id : string) (m : Manager)
  : option nat :=
  match modified_elements m with
  | None => None
  | Some els => find_index element_id 0 els
  end.

(** [s.count(c)] for a single character. *)
Fixpoint count_char (c : ascii) (s : string) : nat :=
  match s with
  | "" => 0
  | String d s' => (if bool_decide (d = c) then 1 else 0) + count_char c s'
  end.

(** [get_block_start_line]: the loop from index [i] on, with the line
    number reached so far. The index is any integer. *)
Fixpoint start_line_scan (element_index : Z) (i : Z) (start_line : nat)
  (els : list Element) : option nat :=
  match els with
  | [] => None
  | element :: els' =>
      if bool_decide (i = element_index) then Some start_line
      else
        let line_count := count_char NL (to_string element) + 1 in
        start_line_scan element_index (i + 1) (start_line + line_count) els'
  end.

Definition get_block_start_line (element_index : Z) (m : Manager)
  : option nat :=
  match modified_elements m with
  | None => None
  | Some els =>
      if bool_decide (Z.of_nat (length els) ≤ element_index)%Z then None
      else start_line_scan element_index 0 1 els
  end.

(** ** Applying the auto-mapper's result ([apply_mapped_items]) *)

Section apply_mapped.

Variable set_iter : gset string → list string.

(** The inner [resolve_full_template_item]: four passes over the base item
    names, the first hit wins. *)
Definition base_part_is (f : string → bool) (c : string) : bool :=
  match split1 ":" c with
  | [_; base] => f base
  | _ => false
  end.

Definition resolve_full_template_item (short_name : string) (m : Manager)
  : option string :=
  let candidates := get_all_base_item_names set_iter m in
  match candidates with
  | [] => None
  | _ =>
      match List.find (λ c, bool_decide (c = short_name)) candidates with
      | Some c => Some c
      | None =>
      match List.find (endswith (":" +:+ short_name)) candidates with
      | Some c => Some c
      | None =>
      match List.find
              (base_part_is (λ base, bool_decide (base = short_name)))
              candidates with
      | Some c => Some c
      | None =>
          List.find (base_part_is (contains short_name)) candidates
      end
      end
      end
  end.

(** The first loop: the items of the entries, grouped by template name in
    the order in which the names first occur. *)
Definition group_by_template (mapped_list : list (string * string * string))
  : list (string * list string) :=
  foldl (λ items_by_template '(item, tmpl_name, _),
           od_alter (λ l, l ++ [item]) tmpl_name
             (od_setdefault tmpl_name [] items_by_template))
    [] mapped_list.

Definition add_returned_false (tmpl_name : string) : string :=
  "add_items_to_category returned False for template '" +:+ tmpl_name
  +:+ "'".

(** The body of the second loop, on the manager, [applied_items] and
    [unmapped_info]. *)
Definition apply_template_group
  (st : Manager * gset string * list (string * string))
  (entry : string * list string)
  : Manager * gset string * list (string * string) :=
  let '(m, applied_items, unmapped_info) := st in
  let '(tmpl_name, items) := entry in
  let not_found :=
    (m, applied_items,
     unmapped_info
     ++ ((λ it, (it, template_not_found tmpl_name)) <$> items)) in
  match resolve_full_template_item tmpl_name m with
  | None => not_found
  | Some full_template =>
      if bool_decide (full_template = "") then not_found
      else
        let '(result, m) :=
          add_items_to_category set_iter items "" (Some full_template) m in
        if result
        then (m, applied_items ∪ list_to_set items, unmapped_info)
        else (m, applied_items,
              unmapped_info
              ++ ((λ it, (it, add_returned_false tmpl_name)) <$> items))
  end.

(** [apply_mapped_items] on entries [(item, template_name, target)]. The
    result is [None] for an empty list, and otherwise the summary: the set
    of applied items and the list of unmapped ones with their reasons. *)
Definition apply_mapped_items (mapped_list : list (string * string * string))
  (m : Manager)
  : option (gset string * list (string * string)) * Manager :=
  match mapped_list with
  | [] => (None, m)
  | _ =>
      let '(m, applied_items, unmapped_info) :=
        foldl apply_template_group (m, ∅, [])
          (group_by_template mapped_list) in
      (Some (applied_items, unmapped_info),
       _build_lookup_sets set_iter (_build_suggestion_index set_iter m))
  end.

End apply_mapped.

(** ** Sequences of user actions *)

(** What the user can do to a loaded document: one of the recording
    operations, an undo or a redo. *)
Inductive action : Type :=
  | Do (op : operation)
  | Undo
  | Redo.

Section actions.

Variable set_iter : gset string → list string.

Definition run_action (a : action) (m : Manager) : outcome Manager :=
  match a with
  | Do op => run_operation set_iter op m
  | Undo => undo set_iter m
  | Redo => Returns (redo set_iter m)
  end.

Fixpoint run_actions (actions : list action) (m : Manager)
  : outcome Manager :=
  match actions with
  | [] => Returns m
  | a :: actions' => bind_outcome (run_action a m) (run_actions actions')
  end.

End actions.

(** The sample after sorting one category: one snapshot on the undo stack,
    with its description. *)
Definition sample_sorted : Manager :=
  match sort_category "block.10" sample_manager with
  | Returns m => m
  | Raises _ => sample_manager
  end.

(** ** Notions for the order of the categories *)

(** The numeric ids of the categories of a document, in document order; a
    key whose last dot-separated part is no number is skipped, as the scan
    of [create_new_category] skips it. *)
Definition category_numbers (els : list Element) : list Z :=
  omap (λ el, match el with
              | EProperty p => numeric_id (key p)
              | _ => None
              end) els.

(** The elements that follow a new category: a blank line comes first,
    unless the category is the last element. *)
Definition after_new_category (post : list Element) : list Element :=
  match post with
  | [] => []
  | _ => EmptyLine :: post
  end.

(** ** Notions for the frame of a template addition *)

(** Position by position, [els'] is [els], except that a category whose key
    satisfies [K] may have gained items. *)
Definition touched_only_in (K : string → Prop) (els els' : list Element)
  : Prop :=
  Forall2
    (λ el el',
       el = el'
       ∨ ∃ q q', el = EProperty q ∧ el' = EProperty q' ∧ K (key q)
                 ∧ extends q q')
    els els'.

(** The category [k] holds an item that starts with [base]. *)
Definition holds_variant (els : list Element) (base k : string) : Prop :=
  ∃ q item,
    EProperty q ∈ els ∧ key q = k ∧ item ∈ all_items q
    ∧ startswith base item = true.

(** ** Invariants of a session *)

Definition element_consistent (el : Element) : Prop :=
  match el with
  | EProperty p => Property_consistent p
  | _ => True
  end.

Definition document_consistent (doc : option (list Element)) : Prop :=
  Forall element_consistent (default [] doc).

(** The state of a manager in a session that began with a successful
    [load_file]: the live document and every snapshot on the two stacks are
    non-empty and hold only consistent categories, and the suggestion
    indices are those of the live document. *)
Definition session_ok (set_iter : gset string → list string) (m : Manager)
  : Prop :=
  (truthy (modified_elements m) = true
   ∧ Forall (λ doc, truthy doc = true) (history_stack m)
   ∧ Forall (λ doc, truthy doc = true) (redo_stack m))
  ∧ (document_consistent (modified_elements m)
     ∧ Forall document_consistent (history_stack m)
     ∧ Forall document_consistent (redo_stack m))
  ∧ index_in_sync set_iter m (default [] (modified_elements m)).

(** A session on the sample: a sort, its undo and redo, a new category, an
    addition and its undo. *)
Definition sample_actions : list action :=
  [Do (SortCategory "block.10"); Undo; Redo; Do (CreateCategory "block.5");
   Do (AddItems ["mod:lamp"; "oak_log"] "block.20" None); Undo].

Definition sample_session : Manager :=
  match run_actions elements sample_actions sample_manager with
  | Returns m => m
  | Raises _ => sample_manager
  end.

(** ** Notions for [apply_mapped_items] *)

(** What the loop of [apply_mapped_items] has done with the items of the
    groups: [applied] and [unmapped] only grow, every item of a group went
    to one of them, and nothing else did. *)
Definition groups_accounted (groups : list (string * list string))
    (applied applied' : gset string)
    (unmapped unmapped' : list (string * string)) : Prop :=
  applied ⊆ applied'
  ∧ (∀ r, r ∈ unmapped → r ∈ unmapped')
  ∧ (∀ t items item, (t, items) ∈ groups → item ∈ items →
       item ∈ applied'
       ∨ (item, template_not_found t) ∈ unmapped'
       ∨ (item, add_returned_false t) ∈ unmapped')
  ∧ (∀ item, item ∈ applied' →
       item ∈ applied ∨ ∃ t items, (t, items) ∈ groups ∧ item ∈ items)
  ∧ (∀ item reason, (item, reason) ∈ unmapped' →
       (item, reason) ∈ unmapped
       ∨ ∃ t items, (t, items) ∈ groups ∧ item ∈ items
                    ∧ (reason = template_not_found t
                       ∨ reason = add_returned_false t)).

(** * Properties *)

(** ** Elements and the property lookup *)

Lemma find_property_split category_id els p :
  find_property category_id els = Some p →
  ∃ pre post,
    els = pre ++ EProperty p :: post
    ∧ find_property category_id pre = None
    ∧ key p = category_id.
Proof.
  induction els as [|el els IH]; [done|].
  destruct el as [c| |c|q]; simpl.
  1-3: intros (pre & post & -> & Hpre & Hk)%IH;
       eexists (_ :: pre), post; by repeat split.
  destruct (decide (key q = category_id)) as [Hq|Hq].
  - intros [= ->]. by exists [], els.
  - intros (pre & post & -> & Hpre & Hk)%IH.
    exists (EProperty q :: pre), post. repeat split; [|done].
    simpl. by rewrite decide_False.
Qed.


Lemma update_property_app category_id f pre p post :
  find_property category_id pre = None →
  key p = category_id →
  update_property category_id f (pre ++ EProperty p :: post)
  = pre ++ EProperty (f p) :: post.
Proof.
  intros Hpre Hk. induction pre as [|el pre IH]; simpl.
  - by rewrite decide_True.
  - destruct el as [c| |c|q]; simpl in *; try (f_equal; auto).
    destruct (decide (key q = category_id)); [done|]. f_equal; auto.
Qed.

Lemma update_property_None category_id f els :
  find_property category_id els = None →
  update_property category_id f els = els.
Proof.
  induction els as [|el els IH]; [done|].
  destruct el as [c| |c|q]; simpl; try (intros; f_equal; auto).
  destruct (decide (key q = category_id)); [done|]. intros; f_equal; auto.
Qed.

Lemma _find_property_Some category_id m p :
  _find_property category_id m = Some p →
  ∃ els, modified_elements m = Some els
         ∧ truthy (modified_elements m) = true
         ∧ find_property category_id els = Some p.
Proof.
  unfold _find_property. destruct (modified_elements m) as [[|el els]|]; try done.
  simpl. eauto.
Qed.

Lemma _save_state_for_undo_modified d m :
  modified_elements (_save_state_for_undo d m) = modified_elements m.
Proof. unfold _save_state_for_undo. by destruct (truthy _). Qed.

Lemma _find_property_save category_id d m :
  _find_property category_id (_save_state_for_undo d m)
  = _find_property category_id m.
Proof. unfold _find_property. by rewrite _save_state_for_undo_modified. Qed.

(** ** Simple-mode additions of items that are all present *)

(** C9. In simple mode ([template_item] absent or empty), when every item of
    the list (possibly none) is already in the category found under the key,
    [add_items_to_category] returns [False] and the manager is left exactly
    as it was: no snapshot, no description, the same documents and hence the
    same text. *)
Theorem add_items_all_present_noop
    (set_iter : gset string → list string) (m : Manager)
    (items_to_add : list string) (category_id : string)
    (template_item : option string) (p : Property) :
  template_item = None ∨ template_item = Some "" →
  _find_property category_id m = Some p →
  Forall (λ item, item ∈ all_items p) items_to_add →
  add_items_to_category set_iter items_to_add category_id template_item m
  = (false, m)
  ∧ get_diff (add_items_to_category set_iter items_to_add category_id
                template_item m).2 = get_diff m.
Proof.
  intros Ht Hfind Hall.
  assert (add_items_simple set_iter items_to_add category_id m = (false, m))
    as Hs.
  { unfold add_items_simple. rewrite Hfind.
    assert (forallb (λ item, bool_decide (item ∈ all_items p)) items_to_add
            = true) as ->; [|done].
    apply forallb_forall. intros x Hx.
    rewrite Forall_forall in Hall. apply bool_decide_eq_true, Hall.
    by apply list_elem_of_In. }
  unfold add_items_to_category.
  destruct Ht as [-> | ->]; simpl; by rewrite Hs.
Qed.

Lemma add_items_all_present_noop_witness :
  add_items_to_category elements ["stone"; "ns:base[facing=north]"] "block.3"
    None sample_manager = (false, sample_manager)
  ∧ get_diff (add_items_to_category elements
                ["stone"; "ns:base[facing=north]"] "block.3" None
                sample_manager).2 = get_diff sample_manager.
Proof.
  eapply add_items_all_present_noop.
  - by left.
  - vm_compute. reflexivity.
  - repeat constructor; vm_compute; reflexivity.
Defined.

(** ** Sorting a category *)

Lemma sort_strings_sorted l : Sorted String.le (sort_strings l).
Proof. apply (Sorted_merge_sort String.le). Qed.

Lemma sort_strings_perm l : sort_strings l ≡ₚ l.
Proof. apply merge_sort_Permutation. Qed.

Lemma regenerate_raw_value_groups p :
  key (regenerate_raw_value p) = key p
  ∧ item_groups (regenerate_raw_value p) = item_groups p
  ∧ all_items (regenerate_raw_value p) = all_items p
  ∧ _original_raw (regenerate_raw_value p) = _original_raw p
  ∧ _preserve_original (regenerate_raw_value p) = _preserve_original p.
Proof.
  unfold regenerate_raw_value.
  by destruct (foldl regenerate_step _ _) as [new_lines current_line].
Qed.

Lemma sort_items_groups p :
  Forall2 (λ g g', g'.1 = g.1 ∧ g'.2 ≡ₚ g.2 ∧ Sorted String.le g'.2)
    (item_groups p) (item_groups (sort_items_alphabetically p)).
Proof.
  simpl. induction (item_groups p) as [|[mod_id items] gs IH]; constructor.
  - simpl. split; [done|]. split; [apply sort_strings_perm|].
    apply sort_strings_sorted.
  - apply IH.
Qed.

(** C10. For a key under which [_find_property] finds a property [p],
    [sort_category] returns normally and changes one element of the live
    document only: [p], at its place, becomes a property with the same key
    and the same set [all_items], whose groups carry the same mod ids in the
    same order, each group a sorted permutation of the group it replaces.
    Every other element and the original document are as before. *)
Theorem sort_category_frame (m : Manager) (category_id : string)
    (p : Property) :
  _find_property category_id m = Some p →
  ∃ m' pre post p',
    sort_category category_id m = Returns m'
    ∧ modified_elements m = Some (pre ++ EProperty p :: post)
    ∧ modified_elements m' = Some (pre ++ EProperty p' :: post)
    ∧ key p' = key p
    ∧ all_items p' = all_items p
    ∧ Forall2 (λ g g', g'.1 = g.1 ∧ g'.2 ≡ₚ g.2 ∧ Sorted String.le g'.2)
        (item_groups p) (item_groups p')
    ∧ original_elements m' = original_elements m.
Proof.
  intros Hfind.
  destruct (_find_property_Some _ _ _ Hfind) as (els & Hels & Htr & Hf).
  destruct (find_property_split _ _ _ Hf) as (pre & post & -> & Hpre & Hk).
  unfold sort_category.
  rewrite _find_property_save, Hfind, _save_state_for_undo_modified, Hels.
  simpl. rewrite update_property_app by done.
  eexists _, pre, post, _. split; [reflexivity|].
  split; [done|]. split; [reflexivity|].
  destruct (regenerate_raw_value_groups (sort_items_alphabetically p))
    as (-> & -> & -> & _).
  repeat split; try done.
  - apply sort_items_groups.
  - unfold _save_state_for_undo. by destruct (truthy _).
Qed.

Lemma sort_category_frame_witness :
  ∃ m' pre post p',
    sort_category "block.10" sample_manager = Returns m'
    ∧ modified_elements sample_manager = Some (pre ++ EProperty
        (default (new_Property "" "" None)
           (_find_property "block.10" sample_manager)) :: post)
    ∧ modified_elements m' = Some (pre ++ EProperty p' :: post)
    ∧ key p' = "block.10"
    ∧ all_items p'
      = all_items (default (new_Property "" "" None)
                     (_find_property "block.10" sample_manager))
    ∧ Forall2 (λ g g', g'.1 = g.1 ∧ g'.2 ≡ₚ g.2 ∧ Sorted String.le g'.2)
        (item_groups (default (new_Property "" "" None)
                        (_find_property "block.10" sample_manager)))
        (item_groups p')
    ∧ original_elements m' = original_elements sample_manager.
Proof.
  apply (sort_category_frame sample_manager "block.10").
  vm_compute. reflexivity.
Defined.

(** ** Sorting under a key that names no category *)

(** What [sort_category] does when the key is not found in a loaded
    document: the snapshot it pushed is popped again, but the description it
    appended stays and the redo stack it cleared stays empty. *)
Lemma sort_category_missing_key (m : Manager) (category_id : string) :
  truthy (modified_elements m) = true →
  _find_property category_id m = None →
  ∃ m',
    sort_category category_id m = Returns m'
    ∧ original_elements m' = original_elements m
    ∧ modified_elements m' = modified_elements m
    ∧ history_stack m' = history_stack m
    ∧ redo_stack m' = []
    ∧ history_descriptions m'
      = history_descriptions m
        ++ ["Sorted category '" +:+ category_id +:+ "'"].
Proof.
  intros Htr Hnone. unfold sort_category.
  rewrite _find_property_save, Hnone.
  unfold _save_state_for_undo. rewrite Htr. simpl.
  destruct (history_stack m ++ [modified_elements m]) as [|x l] eqn:E.
  { by destruct (history_stack m). }
  rewrite <- E. eexists. split; [reflexivity|]. simpl.
  by rewrite removelast_last.
Qed.

(** C4, evaluated on the code. On the sample document, after one sort and
    one undo, [sort_category] under the absent key [block.99] restores the
    undo stack but not the rest of the history: the description list, empty
    before, now holds one entry without a snapshot to match, and the redo
    stack, which held the undone state, is empty. *)
Theorem sort_category_missing_key_pollutes_history :
  ∃ m',
    sort_category "block.99" sample_undone = Returns m'
    ∧ _find_property "block.99" sample_undone = None
    ∧ history_stack m' = history_stack sample_undone
    ∧ history_descriptions sample_undone = []
    ∧ history_descriptions m' = ["Sorted category 'block.99'"]
    ∧ length (redo_stack sample_undone) = 1
    ∧ redo_stack m' = []
    ∧ length (history_descriptions m') ≠ length (history_stack m').
Proof.
  assert (truthy (modified_elements sample_undone) = true) as Htr
    by by vm_compute.
  assert (_find_property "block.99" sample_undone = None) as Hnone
    by by vm_compute.
  assert (history_descriptions sample_undone = []) as Hd by by vm_compute.
  assert (length (redo_stack sample_undone) = 1) as Hr by by vm_compute.
  assert (length (history_stack sample_undone) = 0) as Hh by by vm_compute.
  destruct (sort_category_missing_key sample_undone "block.99" Htr Hnone)
    as (m' & Hsort & _ & _ & Eh & Er & Ed).
  exists m'. rewrite Hd in Ed. rewrite Ed, Eh, Hh.
  repeat split; done.
Qed.

(** ** Undo and redo *)

Section history.

Variable set_iter : gset string → list string.

Lemma _build_suggestion_index_fields m :
  let m' := _build_suggestion_index set_iter m in
  original_elements m' = original_elements m
  ∧ modified_elements m' = modified_elements m
  ∧ history_stack m' = history_stack m
  ∧ redo_stack m' = redo_stack m
  ∧ history_descriptions m' = history_descriptions m.
Proof.
  unfold _build_suggestion_index.
  by destruct (if truthy _ then _ else _) as [idx fam].
Qed.

Lemma _build_lookup_sets_fields m :
  let m' := _build_lookup_sets set_iter m in
  original_elements m' = original_elements m
  ∧ modified_elements m' = modified_elements m
  ∧ history_stack m' = history_stack m
  ∧ redo_stack m' = redo_stack m
  ∧ history_descriptions m' = history_descriptions m.
Proof. unfold _build_lookup_sets. by destruct (truthy _). Qed.

Lemma rebuild_indices_fields m :
  let m' := rebuild_indices set_iter m in
  original_elements m' = original_elements m
  ∧ modified_elements m' = modified_elements m
  ∧ history_stack m' = history_stack m
  ∧ redo_stack m' = redo_stack m
  ∧ history_descriptions m' = history_descriptions m.
Proof.
  unfold rebuild_indices.
  destruct (_build_lookup_sets_fields (_build_suggestion_index set_iter m))
    as (-> & -> & -> & -> & ->).
  apply _build_suggestion_index_fields.
Qed.

Lemma update_property_length category_id f els :
  length (update_property category_id f els) = length els.
Proof.
  induction els as [|[c| |c|q] els IH]; simpl; auto.
  destruct (decide _); simpl; auto.
Qed.

Lemma truthy_length {A} (l : list A) :
  truthy (Some l) = true ↔ 0 < length l.
Proof. destruct l; simpl; split; (done || lia). Qed.

Lemma leaves_refl m :
  truthy (modified_elements m) = true → well_behaved m m.
Proof. intros. split; [done|]. split; [done|]. right. by split. Qed.

Lemma _save_state_pushes d m :
  truthy (modified_elements m) = true →
  pushes m (_save_state_for_undo d m)
  ∧ original_elements (_save_state_for_undo d m) = original_elements m
  ∧ modified_elements (_save_state_for_undo d m) = modified_elements m.
Proof.
  intros Htr. unfold _save_state_for_undo, pushes. rewrite Htr. simpl.
  rewrite length_app. simpl. repeat split; lia.
Qed.

End history.

Lemma foldl_preserves {A B} (P : A → Prop) (f : A → B → A) (l : list B) a :
  P a → (∀ a x, P a → P (f a x)) → P (foldl f a l).
Proof. revert a. induction l; simpl; auto. Qed.

Section operation_effects.

Variable set_iter : gset string → list string.

Lemma apply_variations_length base items st entry :
  length (apply_variations base items st entry).1.1 = length st.1.1.
Proof.
  destruct st as [[els added] keys], entry as [category_id variations].
  unfold apply_variations.
  destruct (find_property category_id els) as [target|]; [|done].
  destruct (foldl _ _ _) as [target' [|]]; [|done].
  simpl. apply update_property_length.
Qed.

Lemma add_items_simple_effect items category_id m :
  truthy (modified_elements m) = true →
  well_behaved m (add_items_simple set_iter items category_id m).2.
Proof.
  intros Htr. unfold add_items_simple.
  destruct (_find_property category_id m) as [p|];
    [|by apply leaves_refl].
  destruct (forallb _ _); [by apply leaves_refl|]. simpl.
  destruct (_save_state_pushes
              ("Added " +:+ str_of_nat (length items) +:+ " items to '"
               +:+ category_id +:+ "'") m Htr) as ([Hh Hd] & Ho & Hm).
  match goal with |- well_behaved _ (rebuild_indices _ ?x) =>
    destruct (rebuild_indices_fields set_iter x) as (Eo & Em & Eh & _ & Ed)
  end.
  split; [|split; [|left; split]].
  - rewrite Em. simpl. apply truthy_length.
    rewrite update_property_length, Hm.
    destruct (modified_elements m) as [[|]|]; simpl in *; (done || lia).
  - by rewrite Eo.
  - by rewrite Eh.
  - by rewrite Ed.
Qed.

Lemma add_items_template_effect items template_item m :
  truthy (modified_elements m) = true →
  well_behaved m (add_items_template set_iter items template_item m).2.
Proof.
  intros Htr. unfold add_items_template. rewrite Htr.
  set (d := "Template: Applied '" +:+ _).
  destruct (_save_state_pushes d m Htr) as ([Hh Hd] & Ho & Hm).
  set (base := template_base_name_of template_item).
  assert (0 < length
                (foldl (apply_variations base items)
                   (default [] (modified_elements m), false, [])
                   (collect_variations set_iter base
                      (default [] (modified_elements m)))).1.1) as Hlen.
  { apply (foldl_preserves (λ st, 0 < length st.1.1)).
    - simpl. destruct (modified_elements m) as [[|]|]; simpl in *;
        (done || lia).
    - intros st entry. by rewrite apply_variations_length. }
  destruct (foldl (apply_variations base items) _ _)
    as [[els added] keys]. simpl in Hlen.
  set (els' := foldl _ els keys).
  assert (0 < length els') as Hlen'.
  { apply (foldl_preserves (λ l, 0 < length l)); [done|].
    intros l x. by rewrite update_property_length. }
  assert (truthy (Some els') = true) as Htr' by by apply truthy_length.
  destruct added; simpl.
  - match goal with |- well_behaved _ (rebuild_indices _ ?x) =>
      destruct (rebuild_indices_fields set_iter x)
        as (Eo & Em & Eh & _ & Ed)
    end.
    split; [by rewrite Em|]. split; [by rewrite Eo|].
    left. split; [by rewrite Eh|by rewrite Ed].
  - split; [done|]. split; [done|]. by left.
Qed.

Lemma add_items_to_category_effect items category_id template_item m :
  truthy (modified_elements m) = true →
  well_behaved m
    (add_items_to_category set_iter items category_id template_item m).2.
Proof.
  intros Htr. unfold add_items_to_category.
  destruct template_item as [t|];
    [destruct (bool_decide (t = ""))|];
    auto using add_items_simple_effect, add_items_template_effect.
Qed.

Lemma sort_category_effect category_id m :
  truthy (modified_elements m) = true →
  ∃ m', sort_category category_id m = Returns m' ∧ well_behaved m m'.
Proof.
  intros Htr.
  destruct (_find_property category_id m) as [p|] eqn:Hfind.
  - unfold sort_category. rewrite _find_property_save, Hfind.
    eexists. split; [reflexivity|].
    destruct (_save_state_pushes
                ("Sorted category '" +:+ category_id +:+ "'") m Htr)
      as ([Hh Hd] & Ho & Hm).
    split; [|split; [done|by left]].
    simpl. apply truthy_length. rewrite update_property_length, Hm.
    destruct (modified_elements m) as [[|]|]; simpl in *; (done || lia).
  - destruct (sort_category_missing_key m category_id Htr Hfind)
      as (m' & -> & Eo & Em & Eh & _ & Ed).
    exists m'. split; [done|]. split; [by rewrite Em|].
    split; [done|]. right. split; [done|]. split; [done|].
    rewrite Ed, length_app. lia.
Qed.

Lemma create_new_category_effect category_id m :
  truthy (modified_elements m) = true →
  ∃ m', create_new_category set_iter category_id m = Returns m'
        ∧ well_behaved m m'.
Proof.
  intros Htr. unfold create_new_category.
  destruct (_find_property category_id m) as [p|].
  { exists m. split; [done|]. by apply leaves_refl. }
  destruct (_save_state_pushes
              ("Created category '" +:+ category_id +:+ "'") m Htr)
    as (Hp & Ho & Hm).
  rewrite Hm. destruct (modified_elements m) as [els|] eqn:Hels; [|done].
  eexists. split; [reflexivity|].
  match goal with |- well_behaved _ (_build_suggestion_index _ ?x) =>
    destruct (_build_suggestion_index_fields set_iter x)
      as (Eo & Em & Eh & _ & Ed)
  end.
  destruct Hp as [Hh Hd]. simpl in Eo, Eh, Ed.
  split; [|split; [by rewrite Eo|left; split]].
  - rewrite Em. simpl. apply truthy_length.
    case_bool_decide; unfold list_insert_at; rewrite !length_app; simpl;
      lia.
  - by rewrite Eh, Hh, Hels.
  - by rewrite Ed.
Qed.

Lemma run_operation_effect op m :
  truthy (modified_elements m) = true →
  ∃ m', run_operation set_iter op m = Returns m' ∧ well_behaved m m'.
Proof.
  intros Htr. destruct op as [items category_id t|category_id|category_id].
  - eexists. split; [reflexivity|].
    by apply add_items_to_category_effect.
  - by apply sort_category_effect.
  - by apply create_new_category_effect.
Qed.

End operation_effects.

Lemma removelast_length_cons {A} (x : A) l :
  S (length (removelast (x :: l))) = length (x :: l).
Proof.
  revert x. induction l as [|y l IH]; intros x; [done|].
  change (removelast (x :: y :: l)) with (x :: removelast (y :: l)).
  specialize (IH y). simpl in *. lia.
Qed.

Section undo_redo.

Variable set_iter : gset string → list string.

Lemma undo_pop m h s :
  history_stack m = h ++ [s] →
  0 < length (history_descriptions m) →
  ∃ m1,
    undo set_iter m = Returns m1
    ∧ history_stack m1 = h
    ∧ modified_elements m1 = s
    ∧ redo_stack m1 = redo_stack m ++ [modified_elements m]
    ∧ original_elements m1 = original_elements m
    ∧ S (length (history_descriptions m1))
      = length (history_descriptions m).
Proof.
  intros Hh Hd. unfold undo. rewrite Hh, last_snoc. simpl.
  destruct (history_descriptions m) as [|d ds] eqn:Ed; [simpl in Hd; lia|].
  eexists. split; [reflexivity|].
  match goal with |- context [_build_suggestion_index _ ?x] =>
    destruct (_build_suggestion_index_fields set_iter x)
      as (Eo & Em & Eh & Er & Edd)
  end.
  rewrite Eo, Em, Eh, Er, Edd. simpl. rewrite Hh, removelast_last.
  repeat split; try done.
  apply removelast_length_cons.
Qed.

Lemma redo_pop m r s :
  redo_stack m = r ++ [s] →
  history_stack (redo set_iter m) = history_stack m ++ [modified_elements m]
  ∧ modified_elements (redo set_iter m) = s
  ∧ redo_stack (redo set_iter m) = r
  ∧ original_elements (redo set_iter m) = original_elements m.
Proof.
  intros Hr. unfold redo. rewrite Hr, last_snoc.
  match goal with |- context [_build_suggestion_index _ ?x] =>
    destruct (_build_suggestion_index_fields set_iter x)
      as (Eo & Em & Eh & Er & _)
  end.
  rewrite Eo, Em, Eh, Er. simpl. by rewrite Hr, removelast_last.
Qed.

(** Undoing as many times as there are snapshots [snaps] on top of the
    undo stack: the live document becomes the oldest of them, and the
    documents passed on the way are on the redo stack, latest first. *)
Lemma undo_times_pops snaps : ∀ m h,
  history_stack m = h ++ snaps →
  length snaps ≤ length (history_descriptions m) →
  ∃ mu,
    undo_times set_iter (length snaps) m = Returns mu
    ∧ history_stack mu = h
    ∧ Some (modified_elements mu) = head (snaps ++ [modified_elements m])
    ∧ redo_stack mu
      = redo_stack m ++ reverse (tail (snaps ++ [modified_elements m]))
    ∧ original_elements mu = original_elements m.
Proof.
  induction snaps as [|s snaps IH] using rev_ind; intros m h Hh Hd.
  { exists m. rewrite app_nil_r in Hh. simpl.
    change (reverse []) with (@nil (option (list Element))).
    by rewrite app_nil_r. }
  rewrite length_app in *. simpl in *.
  replace (length snaps + 1) with (S (length snaps)) by lia. simpl.
  rewrite app_assoc in Hh.
  destruct (undo_pop m _ _ Hh) as (m1 & -> & Eh & Em & Er & Eo & Ed);
    [lia|]. simpl.
  destruct (IH m1 h Eh) as (mu & -> & Eh2 & Em2 & Er2 & Eo2); [lia|].
  exists mu. split; [done|]. split; [done|]. rewrite Em2, Er2, Eo2, Er, Em.
  split; [|split; [|done]].
  - destruct snaps; done.
  - rewrite <- app_assoc. f_equal.
    destruct snaps as [|s0 snaps]; [done|]. simpl.
    by rewrite !reverse_app.
Qed.

(** Redoing as many times as there are documents [l] on top of the redo
    stack (latest first) makes the last of them the live document. *)
Lemma redo_times_pops l : ∀ m r,
  redo_stack m = r ++ reverse l →
  modified_elements (redo_times set_iter (length l) m)
  = default (modified_elements m) (last l).
Proof.
  induction l as [|x l IH]; intros m r Hr; [done|].
  simpl. rewrite reverse_cons, app_assoc in Hr.
  destruct (redo_pop m _ _ Hr) as (_ & Em & Er & _).
  rewrite (IH _ _ Er), Em. rewrite last_cons. by destruct (last l).
Qed.



Lemma run_operations_history ops : ∀ m,
  truthy (modified_elements m) = true →
  all_record_history set_iter ops m = true →
  ∃ m' snaps,
    run_operations set_iter ops m = Returns m'
    ∧ truthy (modified_elements m') = true
    ∧ original_elements m' = original_elements m
    ∧ history_stack m' = history_stack m ++ snaps
    ∧ length snaps = length ops
    ∧ length (history_descriptions m) + length ops
      ≤ length (history_descriptions m')
    ∧ head (snaps ++ [modified_elements m']) = Some (modified_elements m).
Proof.
  induction ops as [|op ops IH]; intros m Htr Hall.
  { exists m, []. simpl. rewrite app_nil_r. repeat split; (done || lia). }
  simpl in Hall. apply andb_true_iff in Hall as [Hrec Hall].
  unfold records_history in Hrec.
  destruct (run_operation_effect set_iter op m Htr)
    as (m1 & Hrun & Htr1 & Ho1 & Heff).
  rewrite Hrun in Hrec, Hall. apply bool_decide_eq_true in Hrec.
  destruct Heff as [[Hh Hd]|[Hh _]]; [|rewrite Hh in Hrec; lia].
  destruct (IH m1 Htr1 Hall)
    as (m' & snaps & Hrun' & Htr' & Ho' & Hh' & Hlen & Hd' & Hhd).
  exists m', (modified_elements m :: snaps). simpl. rewrite Hrun. simpl.
  split; [done|]. split; [done|]. split; [congruence|].
  split; [by rewrite Hh', Hh, <- app_assoc|].
  split; [by rewrite Hlen|]. split; [lia|done].
Qed.

End undo_redo.

(** C2. On a loaded document, after any sequence of [N] operations (adding
    items in either mode, sorting a category, creating a category) each of
    which recorded one history entry, [N] calls of [undo] all return and
    leave the live document equal to the one before the sequence (equal to
    the original document when the sequence started from it), and [N] calls
    of [redo] after that leave the live document equal to the one after the
    sequence. *)
Theorem undo_redo_symmetry (set_iter : gset string → list string)
    (m : Manager) (ops : list operation) :
  truthy (modified_elements m) = true →
  all_record_history set_iter ops m = true →
  ∃ m' mu,
    run_operations set_iter ops m = Returns m'
    ∧ undo_times set_iter (length ops) m' = Returns mu
    ∧ modified_elements mu = modified_elements m
    ∧ (modified_elements m = original_elements m →
       modified_elements mu = original_elements mu)
    ∧ modified_elements (redo_times set_iter (length ops) mu)
      = modified_elements m'.
Proof.
  intros Htr Hall.
  destruct (run_operations_history set_iter ops m Htr Hall)
    as (m' & snaps & Hrun & Htr' & Ho & Hh & Hlen & Hd & Hhd).
  destruct (undo_times_pops set_iter snaps m' _ Hh)
    as (mu & Hundo & Hhu & Hmu & Hru & Hou); [lia|].
  rewrite Hlen in Hundo. exists m', mu.
  split; [done|]. split; [done|].
  assert (modified_elements mu = modified_elements m) as Emu by congruence.
  split; [done|]. split; [congruence|].
  rewrite <- Hlen.
  destruct snaps as [|s snaps].
  { simpl in *. congruence. }
  simpl in Hru.
  replace (length (s :: snaps))
    with (length (snaps ++ [modified_elements m']))
    by (rewrite length_app; simpl; lia).
  rewrite (redo_times_pops set_iter _ mu _ Hru).
  by rewrite last_snoc.
Qed.

Lemma undo_redo_symmetry_witness :
  ∃ m' mu,
    run_operations elements
      [AddItems ["other:base"] "" (Some "ns:base");
       SortCategory "block.10"; CreateCategory "block.5";
       AddItems ["dirt"; "stone"] "block.20" None] sample_manager
    = Returns m'
    ∧ undo_times elements 4 m' = Returns mu
    ∧ modified_elements mu = modified_elements sample_manager
    ∧ (modified_elements sample_manager = original_elements sample_manager →
       modified_elements mu = original_elements mu)
    ∧ modified_elements (redo_times elements 4 mu) = modified_elements m'.
Proof.
  apply (undo_redo_symmetry elements sample_manager
           [AddItems ["other:base"] "" (Some "ns:base");
            SortCategory "block.10"; CreateCategory "block.5";
            AddItems ["dirt"; "stone"] "block.20" None]).
  - vm_compute. reflexivity.
  - vm_compute. reflexivity.
Defined.

(** ** The auto-mapper *)

Section auto_mapper_properties.

Variable re_search : string → string → option bool.
Context {S : Type}.
Variable template_resolver : string → S → option string * S.

Lemma first_match_None item rules :
  first_match re_search item rules = None →
  Forall (λ rule, matches re_search item rule = false) rules.
Proof.
  induction rules as [|rule rules IH]; simpl; [constructor|].
  destruct (matches re_search item rule) eqn:E; [done|].
  intros ?. constructor; auto.
Qed.

Lemma first_match_Some item rules rule :
  first_match re_search item rules = Some rule →
  ∃ pre post,
    rules = pre ++ rule :: post
    ∧ Forall (λ rule, matches re_search item rule = false) pre
    ∧ matches re_search item rule = true.
Proof.
  induction rules as [|r rules IH]; simpl; [done|].
  destruct (matches re_search item r) eqn:E.
  - intros [= <-]. exists [], rules. by repeat split.
  - intros (pre & post & -> & Hpre & Hm)%IH.
    exists (r :: pre), post. repeat split; [|done]. by constructor.
Qed.

(** One turn of the loop, for a resolver that hands the state back
    unchanged: the item is classified, goes to the end of the list that its
    classification names, and the state is the one before. *)
Lemma automap_step_classifies rules mapped unmapped s item :
  (∀ t s0, (template_resolver t s0).2 = s0) →
  ∃ c,
    classifies re_search template_resolver rules s item c
    ∧ automap_step re_search template_resolver rules (mapped, unmapped, s)
        item
      = (mapped ++ mapped_of [(item, c)],
         unmapped ++ unmapped_of [(item, c)], s).
Proof.
  intros Hro. unfold automap_step.
  destruct (first_match re_search item rules) as [rule|] eqn:Hfm.
  - destruct (first_match_Some _ _ _ Hfm) as (pre & post & Hr & Hpre & Hm).
    specialize (Hro (template_name_of rule) s).
    destruct (template_resolver (template_name_of rule) s)
      as [target_key s0] eqn:Hres.
    simpl in Hro. subst s0.
    destruct target_key as [target|]; [case_bool_decide as Ht|].
    + exists (Unmapped (template_not_found (template_name_of rule))).
      split; [|by rewrite app_nil_r].
      eapply classifies_unresolved; eauto. rewrite Hres. right. by subst.
    + exists (Mapped (template_name_of rule) target).
      split; [|by rewrite app_nil_r].
      eapply classifies_mapped; eauto. by rewrite Hres.
    + exists (Unmapped (template_not_found (template_name_of rule))).
      split; [|by rewrite app_nil_r].
      eapply classifies_unresolved; eauto. rewrite Hres. by left.
  - exists (Unmapped no_rule_matched). split; [|by rewrite app_nil_r].
    apply classifies_no_rule. by apply first_match_None.
Qed.

Lemma automap_loop_classifies rules s new_items : ∀ mapped unmapped,
  (∀ t s0, (template_resolver t s0).2 = s0) →
  ∃ cs,
    Forall2 (classifies re_search template_resolver rules s) new_items cs
    ∧ foldl (automap_step re_search template_resolver rules)
        (mapped, unmapped, s) new_items
      = (mapped ++ mapped_of (zip new_items cs),
         unmapped ++ unmapped_of (zip new_items cs), s).
Proof.
  induction new_items as [|item items IH]; intros mapped unmapped Hro.
  { exists []. split; [constructor|]. simpl. by rewrite !app_nil_r. }
  destruct (automap_step_classifies rules mapped unmapped s item Hro)
    as (c & Hc & Hstep).
  destruct (IH (mapped ++ mapped_of [(item, c)])
              (unmapped ++ unmapped_of [(item, c)]) Hro)
    as (cs & Hcs & Hloop).
  exists (c :: cs). split; [by constructor|].
  cbn [foldl]. rewrite Hstep, Hloop.
  change (zip (item :: items) (c :: cs))
    with ([(item, c)] ++ zip items cs).
  unfold mapped_of, unmapped_of. by rewrite !omap_app, <- !app_assoc.
Qed.

End auto_mapper_properties.

(** C8. For every list of items and every list of rules, with a resolver
    that only reads the caller's state, [automap_items] classifies each item
    by the first rule in list order that matches it: every item has one
    classification [c] — unmapped with [no rule matched] when no rule
    matches; otherwise decided by the first matching rule alone, unmapped
    with [template '<name>' not found] when the resolver yields nothing for
    that rule's template, mapped to that template and the resolved key
    otherwise — the two result lists hold the items in their order with
    exactly these classifications, and the state handed to the resolver (for
    the preview: the manager, with its document) comes back unchanged. *)
Theorem automap_first_match_wins {S : Type}
    (re_search : string → string → option bool)
    (template_resolver : string → S → option string * S)
    (new_items : list string) (rules : list Rule) (s : S) :
  (∀ t s0, (template_resolver t s0).2 = s0) →
  ∃ cs,
    Forall2 (classifies re_search template_resolver rules s) new_items cs
    ∧ automap_items re_search template_resolver new_items rules s
      = (mapped_of (zip new_items cs), unmapped_of (zip new_items cs), s).
Proof.
  intros Hro. unfold automap_items.
  destruct (automap_loop_classifies re_search template_resolver rules s
              new_items [] [] Hro) as (cs & Hcs & Hloop).
  exists cs. split; [done|]. by rewrite Hloop.
Qed.

Lemma automap_first_match_wins_witness :
  ∃ cs,
    Forall2
      (classifies (λ _ _, None) (manager_resolver elements) sample_rules
         sample_manager)
      ["mod:red_stairs"; "mod:lamp"; "mod:x"; "a_wall"] cs
    ∧ automap_items (λ _ _, None) (manager_resolver elements)
        ["mod:red_stairs"; "mod:lamp"; "mod:x"; "a_wall"] sample_rules
        sample_manager
      = (mapped_of (zip ["mod:red_stairs"; "mod:lamp"; "mod:x"; "a_wall"] cs),
         unmapped_of
           (zip ["mod:red_stairs"; "mod:lamp"; "mod:x"; "a_wall"] cs),
         sample_manager).
Proof.
  apply (automap_first_match_wins (λ _ _, None) (manager_resolver elements)).
  intros t s0. reflexivity.
Defined.

(** ** Template propagation *)

Lemma od_mem_setdefault {V} k (v : V) d : od_mem k (od_setdefault k v d) = true.
Proof.
  unfold od_setdefault. destruct (od_mem k d) eqn:E; [done|].
  unfold od_mem. apply bool_decide_eq_true.
  induction d as [|[k' v'] d IH]; simpl.
  - rewrite decide_True by done. eauto.
  - destruct (decide (k' = k)); [eauto|]. apply IH.
    unfold od_mem in *. simpl in E. by rewrite decide_False in E.
Qed.

Lemma items_setdefault k (d : list (string * list string)) :
  concat (od_setdefault k [] d).*2 = concat d.*2.
Proof.
  unfold od_setdefault. destruct (od_mem k d); [done|].
  rewrite fmap_app, concat_app. simpl. by rewrite app_nil_r.
Qed.

Lemma items_alter_append k item (d : list (string * list string)) x :
  od_mem k d = true →
  x ∈ concat (od_alter (λ l, l ++ [item]) k d).*2
  ↔ x ∈ concat d.*2 ∨ x = item.
Proof.
  unfold od_mem. intros Hm%bool_decide_eq_true.
  induction d as [|[k' v'] d IH]; simpl in *.
  { by destruct Hm. }
  destruct (decide (k' = k)); simpl.
  - rewrite !elem_of_app, list_elem_of_singleton. tauto.
  - rewrite !elem_of_app, IH by done. tauto.
Qed.

Lemma add_item_extends item mod_id p :
  extends p (add_item item mod_id p)
  ∧ item ∈ all_items (add_item item mod_id p).
Proof.
  unfold add_item, extends, items_filed, items_of.
  destruct (decide (item ∈ all_items p)) as [Hin|Hin]; simpl.
  - repeat split; try done. intros HI x Hx.
    rewrite items_setdefault. by apply HI.
  - repeat split; [set_solver| |set_solver]. intros HI x Hx.
    apply items_alter_append; [apply od_mem_setdefault|].
    rewrite items_setdefault. apply elem_of_union in Hx as [Hx|Hx].
    + left. by apply HI.
    + right. set_solver.
Qed.

Lemma extends_refl p : extends p p.
Proof. by repeat split. Qed.

Lemma extends_trans p q r : extends p q → extends q r → extends p r.
Proof.
  intros (Hk & Hs & HI) (Hk' & Hs' & HI').
  repeat split; [congruence|set_solver|auto].
Qed.

Section template.

Variable set_iter : gset string → list string.
Hypothesis set_iter_perm : ∀ X, set_iter X ≡ₚ elements X.

Lemma elem_of_set_iter x (X : gset string) : x ∈ set_iter X ↔ x ∈ X.
Proof. by rewrite set_iter_perm, elem_of_elements. Qed.

(** The two inner loops of step 2 on one variation: nothing is lost, and
    every new base item is present with the variation's suffix. *)
Lemma add_variation_extends base items variation : ∀ target added,
  let st := add_variation base items (target, added) variation in
  extends target st.1
  ∧ (added = true → st.2 = true)
  ∧ (st.2 = false → st.1 = target)
  ∧ (∀ new_item_base, new_item_base ∈ items →
       new_item_base +:+ replace1 base "" variation ∈ all_items st.1).
Proof.
  unfold add_variation. set (suffix := replace1 base "" variation).
  induction items as [|n items IH]; intros target added; simpl.
  { split; [apply extends_refl|]. repeat split; try done.
    by intros ? ?%elem_of_nil. }
  destruct (decide (n +:+ suffix ∈ all_items target)) as [Hin|Hin].
  - destruct (IH target added) as (He & Ha & Hf & Hnew).
    split; [done|]. split; [done|]. split; [done|].
    intros x [->|Hx]%elem_of_cons; [|by apply Hnew].
    destruct He as (_ & Hs & _). by apply Hs.
  - destruct (add_item_extends (n +:+ suffix) (mod_id_of n) target)
      as [He0 Hin0].
    destruct (IH (add_item (n +:+ suffix) (mod_id_of n) target) true)
      as (He & Ha & Hf & Hnew).
    split; [by eapply extends_trans|]. split; [auto|].
    split; [intros Hfalse; by rewrite Ha in Hfalse|].
    intros x [->|Hx]%elem_of_cons; [|by apply Hnew].
    destruct He as (_ & Hs & _). by apply Hs.
Qed.

Lemma add_variations_extends base items variations : ∀ target added,
  let st := foldl (add_variation base items) (target, added) variations in
  extends target st.1
  ∧ (added = true → st.2 = true)
  ∧ (st.2 = false → st.1 = target)
  ∧ (∀ variation new_item_base,
       variation ∈ variations → new_item_base ∈ items →
       new_item_base +:+ replace1 base "" variation ∈ all_items st.1).
Proof.
  induction variations as [|v variations IH]; intros target added; simpl.
  { split; [apply extends_refl|]. repeat split; try done.
    by intros ?? ?%elem_of_nil. }
  destruct (add_variation_extends base items v target added)
    as (He0 & Ha0 & Hf0 & Hnew0).
  destruct (add_variation base items (target, added) v) as [t1 a1].
  destruct (IH t1 a1) as (He & Ha & Hf & Hnew). simpl in *.
  split; [by eapply extends_trans|]. split; [auto|].
  split.
  { intros Hfalse. destruct a1; [by rewrite Ha in Hfalse|].
    rewrite Hf by done. by apply Hf0. }
  intros variation n [->|Hv]%elem_of_cons Hn; [|by apply Hnew].
  destruct He as (_ & Hs & _). by apply Hs, Hnew0.
Qed.





Lemma regenerate_extends q :
  extends q (regenerate_raw_value q)
  ∧ all_items (regenerate_raw_value q) = all_items q.
Proof.
  destruct (regenerate_raw_value_groups q) as (Hk & Hg & Ha & _).
  unfold extends, items_filed, items_of. rewrite Hk, Hg, Ha. by repeat split.
Qed.


(** *** Step 1: the collected variations *)

Lemma elem_of_od_setdefault {V} k0 (v0 : V) d k v :
  (k, v) ∈ d → (k, v) ∈ od_setdefault k0 v0 d.
Proof.
  unfold od_setdefault. destruct (od_mem k0 d); [done|].
  intros ?. apply elem_of_app. by left.
Qed.

Lemma keys_od_setdefault {V} k0 (v0 : V) d k v :
  (k, v) ∈ od_setdefault k0 v0 d → k ∈ d.*1 ∨ k = k0.
Proof.
  unfold od_setdefault. destruct (od_mem k0 d).
  - intros ?. left. apply list_elem_of_fmap. by exists (k, v).
  - intros [?|[=]%list_elem_of_singleton]%elem_of_app.
    + left. apply list_elem_of_fmap. by exists (k, v).
    + by right.
Qed.

Lemma keys_od_alter {V} (f : V → V) k0 d : (od_alter f k0 d).*1 = d.*1.
Proof.
  induction d as [|[k v] d IH]; [done|]. simpl.
  destruct (decide (k = k0)); simpl; by f_equal.
Qed.

Lemma elem_of_od_alter_append k0 item (d : list (string * list string)) k vars :
  (k, vars) ∈ d →
  ∃ vars', (k, vars') ∈ od_alter (λ l, l ++ [item]) k0 d
           ∧ ∀ x, x ∈ vars → x ∈ vars'.
Proof.
  induction d as [|[k1 v1] d IH]; [by intros ?%elem_of_nil|].
  intros [[= <- <-]|Hin]%elem_of_cons; simpl.
  - destruct (decide (k = k0)).
    + exists (vars ++ [item]). split; [by left|].
      intros x ?. apply elem_of_app. by left.
    + exists vars. split; [by left|done].
  - destruct (decide (k1 = k0)).
    + exists vars. split; [by right|done].
    + destruct (IH Hin) as (vars' & ? & ?). exists vars'.
      split; [by right|done].
Qed.

Lemma elem_of_od_alter_new k item (d : list (string * list string)) :
  od_mem k d = true →
  ∃ vars, (k, vars ++ [item]) ∈ od_alter (λ l, l ++ [item]) k d.
Proof.
  unfold od_mem. intros Hm%bool_decide_eq_true.
  induction d as [|[k1 v1] d IH]; simpl in *; [by destruct Hm|].
  destruct (decide (k1 = k)) as [->|Hne].
  - exists v1. by left.
  - destruct (IH Hm) as (vars & ?). exists vars. by right.
Qed.

Lemma collect_item_mono base k0 acc item0 k item :
  recorded acc k item → recorded (collect_item base k0 acc item0) k item.
Proof.
  intros (vars & Hin & Hitem). unfold collect_item.
  destruct (startswith base item0); [|by exists vars].
  destruct (elem_of_od_alter_append k0 item0 (od_setdefault k0 [] acc) k vars)
    as (vars' & ? & Hsub); [by apply elem_of_od_setdefault|].
  exists vars'. split; [done|by apply Hsub].
Qed.

Lemma collect_item_new base k acc item :
  startswith base item = true → recorded (collect_item base k acc item) k item.
Proof.
  intros Hs. unfold collect_item. rewrite Hs.
  destruct (elem_of_od_alter_new k item (od_setdefault k [] acc))
    as (vars & ?); [apply od_mem_setdefault|].
  exists (vars ++ [item]). split; [done|].
  apply elem_of_app. right. by apply list_elem_of_singleton.
Qed.



Lemma collect_items_keys base k0 items (P : string → Prop) : ∀ acc,
  (∀ k vars, (k, vars) ∈ acc → P k) →
  ((∃ item, item ∈ items ∧ startswith base item = true) → P k0) →
  ∀ k vars, (k, vars) ∈ foldl (collect_item base k0) acc items → P k.
Proof.
  induction items as [|i items IH]; intros acc Hacc Hk0; [done|].
  simpl. apply IH.
  - intros k vars. unfold collect_item.
    destruct (startswith base i) eqn:Hs; [|by apply Hacc].
    intros Hin.
    assert (k ∈ (od_setdefault k0 [] acc).*1) as Hk.
    { rewrite <- (keys_od_alter (λ l, l ++ [i]) k0).
      apply list_elem_of_fmap. by exists (k, vars). }
    apply list_elem_of_fmap in Hk as ([k' v'] & -> & Hin').
    apply keys_od_setdefault in Hin' as [Hk | ->].
    + apply list_elem_of_fmap in Hk as ([k2 v2] & -> & ?). by eapply Hacc.
    + apply Hk0. exists i. split; [by left|done].
  - intros (item & Hin & Hs). apply Hk0. exists item. split; [by right|done].
Qed.

Lemma collect_variations_eq base els :
  collect_variations set_iter base els
  = foldl (collect_element set_iter base) [] els.
Proof. reflexivity. Qed.



(** Every key with collected variations is the key of a property that holds
    an item starting with the base name. *)
Lemma collect_variations_keys base els (P : string → Prop) :
  (∀ q item, EProperty q ∈ els → item ∈ all_items q →
             startswith base item = true → P (key q)) →
  ∀ k vars, (k, vars) ∈ collect_variations set_iter base els → P k.
Proof.
  rewrite collect_variations_eq.
  assert (∀ k vars, (k, vars) ∈ @nil (string * list string) → P k) as Hnil.
  { by intros ?? ?%elem_of_nil. }
  revert Hnil. generalize (@nil (string * list string)).
  induction els as [|el els IH]; intros acc Hacc Hels; [done|].
  simpl. apply IH.
  - destruct el as [c| |c|q]; simpl; try done.
    apply collect_items_keys; [done|].
    intros (item & Hin & Hs). apply (Hels q item); [by left| |done].
    by apply elem_of_set_iter.
  - intros q item Hq. apply Hels. by right.
Qed.

(** *** The categories that step 2 can touch *)






End template.



(** ** The existence check *)

Section existence.

Variable set_iter : gset string → list string.
Hypothesis set_iter_perm : ∀ X, set_iter X ≡ₚ elements X.

Lemma elem_of_all_item_values els item :
  item ∈ all_item_values_of set_iter els ↔ item_in_document els item.
Proof.
  unfold all_item_values_of, item_in_document.
  assert (∀ acc : gset string,
    item ∈ foldl (λ acc el,
                    match el with
                    | EProperty p => acc ∪ list_to_set (set_iter (all_items p))
                    | _ => acc
                    end) acc els
    ↔ item ∈ acc ∨ ∃ q, EProperty q ∈ els ∧ item ∈ all_items q) as H.
  { induction els as [|el els IH]; intros acc; simpl.
    - split; [by left|]. intros [?|(q & ?%elem_of_nil & _)]; done.
    - rewrite IH. split.
      + intros [Hacc|(q & Hq & Hi)].
        * destruct el as [c| |c|q]; try by left.
          apply elem_of_union in Hacc as [?|Hq]; [by left|]. right.
          exists q. split; [by left|].
          by apply elem_of_list_to_set, elem_of_set_iter in Hq.
        * right. exists q. split; [by right|done].
      + intros [Hacc|(q & [<-|Hq]%elem_of_cons & Hi)].
        * left. destruct el; try done. apply elem_of_union. by left.
        * left. apply elem_of_union. right.
          by apply elem_of_list_to_set, elem_of_set_iter.
        * right. by exists q. }
  rewrite H. split; [|by right]. by intros [?%not_elem_of_empty|?].
Qed.

Lemma _build_lookup_sets_fresh m els :
  modified_elements m = Some els → truthy (Some els) = true →
  lookup_sets_fresh set_iter (_build_lookup_sets set_iter m) els.
Proof.
  intros Hm Htr. unfold _build_lookup_sets, lookup_sets_fresh.
  rewrite Hm, Htr. simpl. by rewrite ?Hm.
Qed.

(** After a successful [load_file] the lookup sets are fresh. *)
Lemma load_file_lookup_fresh file m :
  (load_file set_iter file m).1 = true →
  ∃ els, lookup_sets_fresh set_iter (load_file set_iter file m).2 els.
Proof.
  unfold load_file. destruct (parse file) as [|el els] eqn:Hp; [done|].
  intros _. exists (el :: els). simpl snd.
  apply _build_lookup_sets_fresh; [|done].
  match goal with |- context [_build_suggestion_index _ ?x] =>
    by destruct (_build_suggestion_index_fields set_iter x) as (_ & -> & _)
  end.
Qed.

Lemma load_file_lookup_fresh_default file m :
  (load_file set_iter file m).1 = true →
  lookup_sets_fresh set_iter (load_file set_iter file m).2
    (default [] (modified_elements (load_file set_iter file m).2)).
Proof.
  intros Hok. destruct (load_file_lookup_fresh file m Hok) as (els & Hf).
  destruct Hf as (Hm & Hrest). rewrite Hm. by split.
Qed.


End existence.




(** ** The text of a modified property *)

Lemma string_app_cons c s t : String c s +:+ t = String c (s +:+ t).
Proof. reflexivity. Qed.

Lemma string_app_nil_l s : "" +:+ s = s.
Proof. reflexivity. Qed.

Lemma string_app_nil_r s : s +:+ "" = s.
Proof. induction s as [|c s IH]; [done|]. by rewrite string_app_cons, IH. Qed.

Lemma string_app_assoc s t u : (s +:+ t) +:+ u = s +:+ t +:+ u.
Proof.
  induction s as [|c s IH]; [done|]. by rewrite !string_app_cons, IH.
Qed.

Lemma existsb_str_app f s t :
  existsb_str f (s +:+ t) = existsb_str f s || existsb_str f t.
Proof.
  induction s as [|c s IH]; [done|].
  rewrite string_app_cons. simpl. by rewrite IH, orb_assoc.
Qed.







(** ** The round trip *)

Lemma forallb_str_app f s t :
  forallb_str f (s +:+ t) = forallb_str f s && forallb_str f t.
Proof.
  induction s as [|c s IH]; [done|].
  rewrite string_app_cons. simpl. by rewrite IH, andb_assoc.
Qed.

Lemma rstrip_if_id f s :
  forallb_str (λ c, negb (f c)) s = true → rstrip_if f s = s.
Proof.
  induction s as [|c s IH]; [done|]. simpl.
  intros [Hc Hs]%andb_true_iff. rewrite (IH Hs).
  apply negb_true_iff in Hc. by rewrite Hc, andb_false_r.
Qed.

Lemma rstrip_if_app_strippable f s t :
  forallb_str (λ c, negb (f c)) s = true →
  forallb_str f t = true →
  rstrip_if f (s +:+ t) = s.
Proof.
  intros Hs Ht. induction s as [|c s IH].
  - change (rstrip_if f t = ""). clear Hs.
    induction t as [|d t IHt]; [done|]. simpl in *.
    apply andb_true_iff in Ht as [Hd Ht]. by rewrite (IHt Ht), Hd.
  - rewrite string_app_cons. simpl in *.
    apply andb_true_iff in Hs as [Hc Hs]. rewrite (IH Hs).
    apply negb_true_iff in Hc. by rewrite Hc, andb_false_r.
Qed.

(** What [rstrip] removes is blank. *)
Lemma rstrip_if_split f s :
  ∃ t, s = rstrip_if f s +:+ t ∧ forallb_str f t = true.
Proof.
  induction s as [|c s (t & Hs & Ht)]; [by exists ""|]. simpl.
  destruct (bool_decide (rstrip_if f s = "")) eqn:He; simpl.
  - apply bool_decide_eq_true in He. rewrite He in Hs.
    change (s = t) in Hs. subst t.
    destruct (f c) eqn:Hc.
    + exists (String c s). split; [done|]. simpl. by rewrite Hc.
    + exists s. rewrite He. by split.
  - exists t. split; [|done]. rewrite string_app_cons. by rewrite <- Hs.
Qed.

Lemma lstrip_empty s : lstrip s = "" → forallb_str isspace s = true.
Proof.
  induction s as [|c s IH]; [done|]. simpl.
  destruct (isspace c); [done|]. done.
Qed.

Lemma strip_empty s : strip s = "" → forallb_str isspace s = true.
Proof.
  unfold strip, rstrip. intros Hl%lstrip_empty.
  destruct (rstrip_if_split isspace s) as (t & Hs & Ht).
  rewrite Hs, forallb_str_app. by rewrite Hl, Ht.
Qed.

Lemma line_clean_no_nl line :
  line_clean line →
  forallb_str (λ c, negb (bool_decide (c = NL))) line = true.
Proof.
  unfold line_clean. induction line as [|c s IH]; [done|]. simpl.
  intros [[Hc _]%andb_true_iff Hs]%andb_true_iff. by rewrite Hc, IH.
Qed.

Lemma rstrip_nl_clean line : line_clean line → rstrip_nl line = line.
Proof. intros H. by apply rstrip_if_id, line_clean_no_nl. Qed.

Lemma rstrip_nl_line line : line_clean line → rstrip_nl (line +:+ nl) = line.
Proof.
  intros H. apply rstrip_if_app_strippable; [|done].
  by apply line_clean_no_nl.
Qed.

Lemma translate_newlines_id t :
  forallb_str (λ c, negb (bool_decide (c = CR))) t = true →
  translate_newlines t = t.
Proof.
  induction t as [|c t IH]; [done|]. simpl.
  intros [Hc Ht]%andb_true_iff. apply negb_true_iff in Hc.
  by rewrite Hc, IH.
Qed.

Lemma text_of_lines_no_cr lines :
  Forall line_clean lines →
  forallb_str (λ c, negb (bool_decide (c = CR))) (text_of_lines lines) = true.
Proof.
  induction 1 as [|line lines Hl _ IH]; [done|]. simpl.
  rewrite !forallb_str_app, IH, !andb_true_r.
  unfold line_clean in Hl. clear IH.
  induction line as [|c s IHs]; [done|]. simpl in *.
  apply andb_true_iff in Hl as [[_ Hc]%andb_true_iff Hs].
  by rewrite Hc, IHs.
Qed.

Lemma split_keepends_line line rest :
  line_clean line →
  split_keepends (line +:+ nl +:+ rest) = (line +:+ nl) :: split_keepends rest.
Proof.
  intros Hl%line_clean_no_nl.
  induction line as [|c s IH].
  - reflexivity.
  - rewrite string_app_cons. simpl in *.
    apply andb_true_iff in Hl as [Hc Hs]. apply negb_true_iff in Hc.
    by rewrite Hc, (IH Hs).
Qed.

Lemma readlines_text_of_lines lines :
  Forall line_clean lines →
  readlines (text_of_lines lines) = (λ line, line +:+ nl) <$> lines.
Proof.
  intros Hclean. unfold readlines.
  rewrite translate_newlines_id by by apply text_of_lines_no_cr.
  induction Hclean as [|line lines Hl _ IH]; [done|]. simpl.
  by rewrite split_keepends_line, IH.
Qed.

Lemma find_split_key k v :
  contains "=" k = false →
  find_split "=" (k +:+ "=" +:+ v) = Some (k, v).
Proof.
  unfold contains. intros Hk%bool_decide_eq_false.
  induction k as [|c k IH]; [done|].
  rewrite string_app_cons. simpl in *.
  destruct (bool_decide ("="%char = c)) eqn:Hc; simpl in *.
  { destruct Hk. eauto. }
  rewrite IH; [done|]. intros [x Hx]. destruct Hk.
  destruct k as [|d k]; simpl in *; [done|].
  rewrite Hx. destruct x. eauto.
Qed.

Lemma not_hash_not_directive s :
  startswith "#" s = false →
  existsb (λ kw, startswith kw s) directive_keywords = false.
Proof.
  destruct s as [|c s]; [done|]. simpl.
  destruct (bool_decide ("#"%char = c)); [done|]. by intros _.
Qed.

Lemma hash_not_empty s : startswith "#" s = true → s ≠ "".
Proof. by destruct s. Qed.

Lemma parse_lines_cons raw rest :
  parse_lines (raw :: rest)
  = let line := rstrip_nl raw in
    let stripped_line := strip line in
    if bool_decide (stripped_line = "") then EmptyLine :: parse_lines rest
    else if existsb (λ kw, startswith kw stripped_line) directive_keywords
    then Directive line :: parse_lines rest
    else if startswith "#" stripped_line
    then Comment line :: parse_lines rest
    else
      match find_split "=" line with
      | Some (k, value) => collect_from k [rstrip_nl value] rest
      | None => Comment ("# [UNPARSED] " +:+ line) :: parse_lines rest
      end.
Proof. reflexivity. Qed.

Lemma collect_from_unfold k raw_value_lines todo :
  collect_from k raw_value_lines todo
  = if continues (default "" (last raw_value_lines)) then
      match todo with
      | next_line :: todo' =>
          collect_from k (raw_value_lines ++ [rstrip_nl next_line]) todo'
      | [] => [property_of_lines (strip k) raw_value_lines]
      end
    else property_of_lines (strip k) raw_value_lines :: parse_lines todo.
Proof. by destruct todo. Qed.

(** The inner loop on a well-continued block: it takes the continuation
    lines, and the scan goes on after them. *)
Lemma collect_from_block k conts : ∀ acc cur lines,
  Forall line_clean conts →
  well_continued cur conts (lines = []) →
  collect_from k (acc ++ [cur]) ((λ l, l +:+ nl) <$> (conts ++ lines))
  = property_of_lines (strip k) (acc ++ cur :: conts)
      :: parse_lines ((λ l, l +:+ nl) <$> lines).
Proof.
  induction conts as [|c conts IH]; intros acc cur lines Hclean Hwc.
  - rewrite collect_from_unfold, last_snoc. simpl in *.
    destruct (continues cur) eqn:Hc; [|done].
    destruct Hwc as [?| ->]; done.
  - apply Forall_cons in Hclean as [Hc Hclean]. destruct Hwc as [Hcur Hwc].
    rewrite collect_from_unfold, last_snoc.
    change ((c :: conts) ++ lines) with (c :: (conts ++ lines)).
    rewrite fmap_cons. change (default "" (Some cur)) with cur. rewrite Hcur.
    rewrite (rstrip_nl_line _ Hc), (IH (acc ++ [cur]) c lines Hclean Hwc).
    by rewrite <- app_assoc.
Qed.

Lemma parse_value_line_fields i line p :
  let p' := parse_value_line i line p in
  key p' = key p
  ∧ _original_raw p' = _original_raw p
  ∧ _preserve_original p' = _preserve_original p.
Proof.
  unfold parse_value_line. destruct (split_ws (strip line)); [done|].
  by destruct (foldl _ _ _).
Qed.

Lemma parse_value_lines_fields lines : ∀ i p,
  let p' := parse_value_lines i lines p in
  key p' = key p
  ∧ _original_raw p' = _original_raw p
  ∧ _preserve_original p' = _preserve_original p.
Proof.
  induction lines as [|line lines IH]; intros i p; [done|]. simpl.
  destruct (IH (S i) (parse_value_line i line p)) as (-> & -> & ->).
  apply parse_value_line_fields.
Qed.

Lemma string_app_empty s t : s +:+ t = "" → s = "" ∧ t = "".
Proof. destruct s; [done|]. by rewrite string_app_cons. Qed.

Lemma join_nl_empty raws : raws ≠ [] → join nl raws = "" → raws = [""].
Proof.
  destruct raws as [|x [|y raws]]; [done| |].
  - intros _ H. change (x = "") in H. by subst.
  - intros _ H.
    change (x +:+ nl +:+ join nl (y :: raws) = "") in H.
    apply string_app_empty in H as [_ H].
    apply string_app_empty in H as [H _]. discriminate H.
Qed.

(** A property fresh from the parser serializes to its key and the raw
    value lines as they were read. *)
Lemma property_of_lines_to_string k raws :
  raws ≠ [] →
  to_string (property_of_lines k raws) = k +:+ "=" +:+ join nl raws.
Proof.
  intros Hne. unfold property_of_lines, to_string, new_Property.
  destruct (bool_decide (join nl raws = "")) eqn:He.
  - apply bool_decide_eq_true in He.
    rewrite (join_nl_empty raws Hne He). simpl. by rewrite string_app_nil_r.
  - unfold Property_to_string, _parse_value.
    match goal with |- context [parse_value_lines 0 ?ls ?p] =>
      destruct (parse_value_lines_fields ls 0 p) as (-> & -> & ->)
    end.
    done.
Qed.

Lemma join_nl_text conts : ∀ v lines,
  join nl (v :: conts) +:+ nl +:+ text_of_lines lines
  = v +:+ nl +:+ text_of_lines (conts ++ lines).
Proof.
  induction conts as [|c conts IH]; intros v lines; [done|].
  change (join nl (v :: c :: conts)) with (v +:+ nl +:+ join nl (c :: conts)).
  rewrite !string_app_assoc, IH. done.
Qed.

Lemma line_clean_app s t : line_clean (s +:+ t) → line_clean s ∧ line_clean t.
Proof.
  unfold line_clean. rewrite forallb_str_app. by intros ?%andb_true_iff.
Qed.

Lemma property_line_not_blank k v : strip (k +:+ "=" +:+ v) ≠ "".
Proof.
  intros H%strip_empty. rewrite !forallb_str_app in H.
  apply andb_true_iff in H as [_ H]. by apply andb_true_iff in H as [H _].
Qed.

(** The scan of a canonical file and the text of the result. *)
Lemma parse_lines_canonical lines :
  Forall line_clean lines →
  canonical_file lines →
  serialize (parse_lines ((λ line, line +:+ nl) <$> lines))
  = text_of_lines lines.
Proof.
  intros Hclean Hfile. induction Hfile
    as [|line lines Hblank -> Hfile IH
        |line lines Hhash Hfile IH
        |k v conts lines Hk Hnohash Hkey Hwc Hfile IH].
  - done.
  - apply Forall_cons in Hclean as [_ Hclean].
    rewrite fmap_cons, parse_lines_cons. simpl. by rewrite IH.
  - apply Forall_cons in Hclean as [Hl Hclean].
    rewrite fmap_cons, parse_lines_cons. cbv zeta.
    rewrite (rstrip_nl_line _ Hl).
    rewrite bool_decide_eq_false_2 by by apply hash_not_empty.
    rewrite Hhash.
    destruct (existsb _ directive_keywords); simpl; by rewrite IH.
  - apply Forall_cons in Hclean as [Hl Hclean].
    apply Forall_app in Hclean as [Hconts Hclean].
    apply line_clean_app in Hl as Hl'. destruct Hl' as [_ Hv].
    apply line_clean_app in Hv as [_ Hv].
    rewrite fmap_cons, parse_lines_cons. cbv zeta.
    rewrite (rstrip_nl_line _ Hl).
    rewrite bool_decide_eq_false_2 by apply property_line_not_blank.
    rewrite (not_hash_not_directive _ Hnohash), Hnohash.
    rewrite (find_split_key _ _ Hk), (rstrip_nl_clean _ Hv).
    pose proof (collect_from_block k conts [] v lines Hconts Hwc) as Hblock.
    change ([] ++ [v]) with [v] in Hblock.
    change ([] ++ v :: conts) with (v :: conts) in Hblock.
    rewrite Hblock.
    cbn [serialize foldr]. fold (serialize (parse_lines
      ((λ line, line +:+ nl) <$> lines))).
    rewrite (IH Hclean), Hkey, property_of_lines_to_string by done.
    rewrite !string_app_assoc, join_nl_text. cbn [text_of_lines foldr].
    by rewrite !string_app_assoc.
Qed.

(** C1, as amended. For every text made of lines that each end in a line
    feed and hold no carriage return, with only the four element kinds,
    well-formed continuations (a truncated one at the end of the file
    included), blank lines that are empty and property keys without blanks
    around them: parsing and serializing gives the text back, character for
    character; so does any number of such cycles; and after [load_file] both
    texts of [get_diff] are the input. *)
Theorem round_trip_canonical (set_iter : gset string → list string)
    (lines : list string) :
  Forall line_clean lines →
  canonical_file lines →
  let text := text_of_lines lines in
  serialize (parse (Some text)) = text
  ∧ (∀ n, Nat.iter n reload text = text)
  ∧ get_diff (load_file set_iter (Some text) new_Manager).2 = (text, text).
Proof.
  intros Hclean Hfile text.
  assert (serialize (parse (Some text)) = text) as Hround.
  { unfold parse, text. rewrite readlines_text_of_lines by done.
    by apply parse_lines_canonical. }
  split; [done|]. split.
  - induction n as [|n IH]; [done|]. simpl. rewrite IH. apply Hround.
  - unfold load_file. destruct (parse (Some text)) as [|el els] eqn:Hp.
    + simpl in Hround. by rewrite <- Hround.
    + cbn [snd]. unfold get_diff.
      match goal with |- context [_build_lookup_sets _ ?x] =>
        destruct (_build_lookup_sets_fields set_iter x) as (-> & -> & _)
      end.
      match goal with |- context [_build_suggestion_index _ ?x] =>
        destruct (_build_suggestion_index_fields set_iter x)
          as (-> & -> & _)
      end.
      simpl original_elements. simpl modified_elements.
      unfold text_of. cbn [truthy default from_option id].
      by rewrite Hround.
Qed.

Lemma canonical_sample_file : canonical_file canonical_sample.
Proof.
  unfold canonical_sample.
  apply file_hash; [reflexivity|].
  apply file_hash; [reflexivity|].
  apply file_blank; [reflexivity|reflexivity|].
  apply (file_property _ _ "block.10" "oak_stairs birch_stairs \"
           [" modx:red_stairs modx:blue_stairs \"; "   modx:green_stairs"]);
    [reflexivity|reflexivity|reflexivity| |].
  { split; [reflexivity|]. split; [reflexivity|]. by left. }
  apply file_hash; [reflexivity|].
  apply (file_property _ _ "block.20" "" [] []);
    [reflexivity|reflexivity|reflexivity|by left|].
  apply file_end.
Qed.

Lemma round_trip_canonical_witness :
  let text := text_of_lines canonical_sample in
  serialize (parse (Some text)) = text
  ∧ (∀ n, Nat.iter n reload text = text)
  ∧ get_diff (load_file elements (Some text) new_Manager).2 = (text, text).
Proof.
  apply (round_trip_canonical elements canonical_sample).
  - repeat constructor.
  - apply canonical_sample_file.
Defined.

(** C1, the claim as stated, fails. Each of these texts holds only the four
    element kinds, and none comes back as it was: a property whose key is
    followed by a blank loses the blank; a blank line made of spaces comes
    back empty; a last line without a line feed gains one; a line ended by a
    carriage return and a line feed loses the carriage return. *)
Lemma round_trip_counterexample :
  (four_kinds ["block.1 = stone"]
   ∧ reload (text_of_lines ["block.1 = stone"])
     = text_of_lines ["block.1= stone"]
   ∧ reload (text_of_lines ["block.1 = stone"])
     ≠ text_of_lines ["block.1 = stone"])
  ∧ (four_kinds ["# header"; "   "; "block.1=stone"]
     ∧ reload (text_of_lines ["# header"; "   "; "block.1=stone"])
       = text_of_lines ["# header"; ""; "block.1=stone"]
     ∧ reload (text_of_lines ["# header"; "   "; "block.1=stone"])
       ≠ text_of_lines ["# header"; "   "; "block.1=stone"])
  ∧ (parse (Some "block.1=stone")
     = [EProperty (new_Property "block.1" "stone" (Some "stone"))]
     ∧ reload "block.1=stone" = "block.1=stone" +:+ nl
     ∧ reload "block.1=stone" ≠ "block.1=stone")
  ∧ (reload ("block.1=stone" +:+ String CR nl) = "block.1=stone" +:+ nl
     ∧ reload ("block.1=stone" +:+ String CR nl)
       ≠ "block.1=stone" +:+ String CR nl).
Proof.
  split; [|split; [|split]].
  - split.
    + apply (file_property _ _ "block.1 " " stone" [] []);
        [reflexivity|reflexivity|done|by left|apply file_end].
    + by vm_compute.
  - split.
    + apply file_hash; [reflexivity|].
      apply file_blank; [reflexivity|done|].
      apply (file_property _ _ "block.1" "stone" [] []);
        [reflexivity|reflexivity|done|by left|apply file_end].
    + by vm_compute.
  - by vm_compute.
  - by vm_compute.
Qed.

(** ** Suggestions *)

(** *** Accumulating scores *)

Lemma score_of_add_score w scores c c' :
  score_of (add_score w scores c') c
  = (score_of scores c + (if decide (c = c') then w else 0))%Z.
Proof.
  unfold score_of, add_score. destruct (decide (c = c')) as [->|Hne].
  - by rewrite lookup_insert_eq.
  - rewrite lookup_insert_ne by done. lia.
Qed.

Lemma score_of_add_scores w l : ∀ scores c,
  NoDup l →
  score_of (foldl (add_score w) scores l) c
  = (score_of scores c + (if decide (c ∈ l) then w else 0))%Z.
Proof.
  induction l as [|c' l IH]; intros scores c Hnd.
  { cbn [foldl]. destruct (decide (c ∈ [])) as [?%elem_of_nil|]; [done|lia]. }
  apply NoDup_cons in Hnd as [Hnotin Hnd]. cbn [foldl].
  rewrite IH, score_of_add_score by done.
  destruct (decide (c = c')) as [->|Hne].
  - rewrite decide_False by done. rewrite decide_True by by left. lia.
  - destruct (decide (c ∈ l)).
    + rewrite decide_True by by right. lia.
    + rewrite decide_False; [lia|]. by intros [?|?]%elem_of_cons.
Qed.

Lemma sumZ_perm l1 l2 : l1 ≡ₚ l2 → sumZ l1 = sumZ l2.
Proof. induction 1; simpl in *; lia. Qed.

Lemma positive_add_score w scores c :
  (1 ≤ w)%Z → positive_scores scores → positive_scores (add_score w scores c).
Proof.
  intros Hw Hpos c' v. unfold add_score.
  destruct (decide (c = c')) as [->|Hne].
  - rewrite lookup_insert_eq. intros [= <-].
    destruct (scores !! c') as [v0|] eqn:E; simpl; [|lia].
    specialize (Hpos _ _ E). lia.
  - rewrite lookup_insert_ne by done. apply Hpos.
Qed.

Section suggestions.

Variable set_iter : gset string → list string.
Hypothesis set_iter_perm : ∀ X, set_iter X ≡ₚ elements X.

Lemma NoDup_set_iter (X : gset string) : NoDup (set_iter X).
Proof. rewrite set_iter_perm. apply NoDup_elements. Qed.

Lemma score_of_score_keyword m base scores keyword c :
  score_of (score_keyword set_iter m base scores keyword) c
  = (score_of scores c + keyword_weight m base keyword c)%Z.
Proof.
  unfold score_keyword, keyword_weight.
  destruct (_suggestion_index m !! keyword) as [cats|]; [|lia].
  rewrite score_of_add_scores by apply NoDup_set_iter.
  destruct (decide (c ∈ set_iter cats)) as [Hin|Hin];
    rewrite (elem_of_set_iter set_iter set_iter_perm) in Hin.
  - by rewrite decide_True.
  - by rewrite decide_False.
Qed.

Lemma score_of_score_keywords m base keywords : ∀ scores c,
  score_of (foldl (score_keyword set_iter m base) scores keywords) c
  = (score_of scores c
     + sumZ ((λ keyword, keyword_weight m base keyword c) <$> keywords))%Z.
Proof.
  induction keywords as [|kw kws IH]; intros scores c.
  { unfold sumZ. simpl. lia. }
  cbn [foldl]. rewrite IH, score_of_score_keyword, fmap_cons.
  unfold sumZ. cbn [foldr]. lia.
Qed.

Lemma score_of_family_fold l : ∀ scores c,
  NoDup l.*1 →
  score_of
    (foldl (λ acc '(category_id, count),
              add_score (Z.of_nat count * FAMILY_MATCH_BONUS_PER_ITEM) acc
                category_id) scores l) c
  = (score_of scores c
     + Z.of_nat (default 0%nat (snd <$> List.find (λ e, bool_decide (e.1 = c)) l))
       * 5)%Z.
Proof.
  induction l as [|[c' n] l IH]; intros scores c Hnd; simpl; [lia|].
  apply NoDup_cons in Hnd as [Hnotin Hnd].
  rewrite IH, score_of_add_score by done.
  unfold FAMILY_MATCH_BONUS_PER_ITEM.
  destruct (decide (c = c')) as [->|Hne].
  - rewrite bool_decide_eq_true_2 by done. simpl.
    assert (List.find (λ e, bool_decide (e.1 = c')) l = None) as ->.
    { clear -Hnotin. induction l as [|[k v] l IHl]; [done|]. simpl.
      rewrite bool_decide_eq_false_2.
      - apply IHl. intros ?. apply Hnotin. by right.
      - intros <-. apply Hnotin. by left. }
    simpl. lia.
  - rewrite bool_decide_eq_false_2 by congruence. lia.
Qed.

Lemma find_map_to_list (per : gmap string nat) c :
  snd <$> List.find (λ e, bool_decide (e.1 = c)) (map_to_list per) = per !! c.
Proof.
  destruct (List.find _ _) as [[c' n]|] eqn:Hfind; simpl.
  - apply find_some in Hfind as [Hin Hc].
    apply bool_decide_eq_true in Hc. simpl in Hc. subst c'.
    apply list_elem_of_In, elem_of_map_to_list in Hin. by rewrite Hin.
  - destruct (per !! c) as [n|] eqn:Hper; [|done].
    apply elem_of_map_to_list, list_elem_of_In in Hper.
    apply (find_none _ _ Hfind) in Hper. simpl in Hper.
    by rewrite bool_decide_eq_true_2 in Hper.
Qed.

Lemma score_of_score_family m base scores c :
  score_of (score_family m base scores) c
  = (score_of scores c + family_weight m base c)%Z.
Proof.
  unfold score_family, family_weight.
  destruct (bool_decide (family_key_of base = "")); [lia|].
  destruct (_family_index m !! family_key_of base) as [per|]; [|lia].
  rewrite score_of_family_fold by apply NoDup_fst_map_to_list.
  by rewrite find_map_to_list.
Qed.

Lemma score_of_score_item m scores item c :
  score_of (score_item set_iter m scores item) c
  = (score_of scores c
     + sumZ ((λ keyword,
                keyword_weight m (suggestion_base_name item) keyword c)
               <$> set_iter (keywords_of (suggestion_base_name item)))
     + family_weight m (suggestion_base_name item) c)%Z.
Proof.
  unfold score_item. by rewrite score_of_score_family, score_of_score_keywords.
Qed.

(** *** Scores are positive *)

Lemma positive_add_scores w l : ∀ scores,
  (1 ≤ w)%Z → positive_scores scores →
  positive_scores (foldl (add_score w) scores l).
Proof.
  induction l as [|c l IH]; intros scores Hw Hpos; [done|].
  simpl. apply IH; [done|]. by apply positive_add_score.
Qed.

Lemma positive_score_keyword m base scores keyword :
  positive_scores scores →
  positive_scores (score_keyword set_iter m base scores keyword).
Proof.
  intros Hpos. unfold score_keyword.
  destruct (_suggestion_index m !! keyword); [|done].
  apply positive_add_scores; [|done]. case_bool_decide; lia.
Qed.

Lemma positive_score_family m base scores :
  positive_counts (_family_index m) →
  positive_scores scores → positive_scores (score_family m base scores).
Proof.
  intros Hcounts Hpos. unfold score_family.
  destruct (bool_decide (family_key_of base = "")); [done|].
  destruct (_family_index m !! family_key_of base) as [per|] eqn:Hper;
    [|done].
  assert (∀ c n, (c, n) ∈ map_to_list per → 0 < n) as Hl.
  { intros c n Hin%elem_of_map_to_list. by eapply Hcounts. }
  revert scores Hpos Hl. generalize (map_to_list per).
  induction l as [|[c n] l IH]; intros scores Hpos Hl; [done|].
  simpl. apply IH.
  - apply positive_add_score; [|done].
    assert (0 < n) by (apply (Hl c); by left).
    unfold FAMILY_MATCH_BONUS_PER_ITEM. lia.
  - intros c' n' Hin. apply (Hl c'). by right.
Qed.

Lemma positive_category_scores m item_names :
  positive_counts (_family_index m) →
  positive_scores (category_scores set_iter m item_names).
Proof.
  intros Hcounts. unfold category_scores.
  apply foldl_preserves.
  - by intros c v ?%lookup_empty_Some.
  - intros scores item Hpos. unfold score_item.
    apply positive_score_family; [done|].
    apply foldl_preserves; [done|].
    intros. by apply positive_score_keyword.
Qed.

(** *** The maximum and the normalized scores *)

Lemma foldl_max_spec vs : ∀ v,
  foldl Z.max v vs ∈ v :: vs
  ∧ ∀ x, x ∈ v :: vs → (x ≤ foldl Z.max v vs)%Z.
Proof.
  induction vs as [|w vs IH]; intros v; simpl.
  { split; [by left|]. intros x ->%list_elem_of_singleton. lia. }
  destruct (IH (Z.max v w)) as [Hin Hle]. split.
  - apply elem_of_cons in Hin as [Hin|Hin]; [|by right; right].
    rewrite Hin. destruct (Z.max_spec v w) as [[_ ->]|[_ ->]];
      [right; by left|by left].
  - intros x [->|[->|Hx]%elem_of_cons]%elem_of_cons.
    + etrans; [|apply Hle; by left]. lia.
    + etrans; [|apply Hle; by left]. lia.
    + apply Hle. by right.
Qed.

Lemma elem_of_values (scores : gmap string Z) v :
  v ∈ (map_to_list scores).*2 ↔ ∃ c, scores !! c = Some v.
Proof.
  rewrite list_elem_of_fmap. split.
  - intros ([c v'] & -> & Hin%elem_of_map_to_list). by exists c.
  - intros (c & Hc). exists (c, v). split; [done|].
    by apply elem_of_map_to_list.
Qed.

Lemma max_of_spec (scores : gmap string Z) :
  scores ≠ ∅ →
  (∃ c, scores !! c = Some (max_of scores))
  ∧ ∀ c v, scores !! c = Some v → (v ≤ max_of scores)%Z.
Proof.
  intros Hne. unfold max_of.
  destruct ((map_to_list scores).*2) as [|v vs] eqn:E.
  { destruct Hne. apply map_to_list_empty_iff.
    by destruct (map_to_list scores). }
  destruct (foldl_max_spec vs v) as [Hin Hle]. rewrite <- E in Hin, Hle.
  split; [by apply elem_of_values|].
  intros c x Hc. apply Hle, elem_of_values. by exists c.
Qed.

Lemma normalize_compare max_score a b :
  (0 < max_score)%Z →
  (normalize max_score a ?= normalize max_score b)%Q = (a ?= b)%Z.
Proof.
  intros Hmax. unfold normalize. rewrite bool_decide_eq_true_2 by done.
  unfold Qcompare. simpl.
  destruct (Z.compare_spec a b) as [->|H|H].
  - apply Z.compare_refl.
  - apply Z.compare_lt_iff. nia.
  - apply Z.compare_gt_iff. nia.
Qed.

Lemma normalize_max max_score :
  (0 < max_score)%Z → (normalize max_score max_score == 1)%Q.
Proof.
  intros Hmax. unfold normalize. rewrite bool_decide_eq_true_2 by done.
  unfold Qeq. simpl. rewrite Z2Pos.id by done. lia.
Qed.

(** *** The order of the result *)

Global Instance suggestion_le_total : Total suggestion_le.
Proof.
  intros [c1 s1] [c2 s2]. unfold suggestion_le. simpl.
  destruct (s2 ?= s1)%Q eqn:E.
  - apply Qeq_alt in E. assert ((s1 ?= s2)%Q = Eq) as ->.
    { apply Qeq_alt. by symmetry. }
    apply (total String.le).
  - by left.
  - right. apply Qgt_alt in E. assert ((s1 ?= s2)%Q = Lt) as ->; [|done].
    by apply Qlt_alt.
Qed.

Lemma suggestion_le_normalized max_score c1 a c2 b :
  (0 < max_score)%Z →
  suggestion_le (c1, normalize max_score a) (c2, normalize max_score b)
  ↔ (b < a)%Z ∨ (a = b ∧ String.le c1 c2).
Proof.
  intros Hmax. unfold suggestion_le. simpl.
  rewrite normalize_compare by done.
  destruct (b ?= a)%Z eqn:E.
  - apply Z.compare_eq in E. subst. split; [by right|].
    intros [?|[_ ?]]; [lia|done].
  - apply Z.compare_lt_iff in E. split; [by left|done].
  - apply Z.compare_gt_iff in E. split; [done|]. intros [?|[? _]]; lia.
Qed.

Lemma suggestion_le_alt x y :
  suggestion_le x y ↔ (y.2 < x.2)%Q ∨ ((y.2 == x.2)%Q ∧ String.le x.1 y.1).
Proof.
  unfold suggestion_le. destruct (y.2 ?= x.2)%Q eqn:E.
  - apply Qeq_alt in E. split; [by right|]. intros [Hlt|[_ ?]]; [|done].
    rewrite E in Hlt. by apply Qlt_irrefl in Hlt.
  - apply Qlt_alt in E. split; [by left|done].
  - apply Qgt_alt in E. split; [done|]. intros [Hlt|[Heq _]].
    + destruct (Qlt_irrefl (x.2)). by apply (Qlt_trans _ (y.2)).
    + rewrite Heq in E. by apply Qlt_irrefl in E.
Qed.

Global Instance suggestion_le_trans : Transitive suggestion_le.
Proof.
  intros x y z. rewrite !suggestion_le_alt.
  intros [Hxy|[Hxy Hs1]] [Hyz|[Hyz Hs2]].
  - left. by apply (Qlt_trans _ (y.2)).
  - left. by rewrite Hyz.
  - left. by rewrite <- Hxy.
  - right. split; [by rewrite Hyz|by etrans].
Qed.

(** The result when neither the input nor the index is empty. *)
Lemma suggest_nonempty item_names m :
  item_names ≠ [] → _suggestion_index m ≠ ∅ →
  suggest_categories_for_items_list set_iter item_names m
  = merge_sort suggestion_le
      ((λ '(category_id, score),
          (category_id,
           normalize (max_of (category_scores set_iter m item_names)) score))
         <$> map_to_list (category_scores set_iter m item_names)).
Proof.
  intros H1 H2. unfold suggest_categories_for_items_list.
  by rewrite !bool_decide_eq_false_2.
Qed.

Lemma elem_of_suggestions item_names m c s :
  item_names ≠ [] → _suggestion_index m ≠ ∅ →
  (c, s) ∈ suggest_categories_for_items_list set_iter item_names m
  ↔ ∃ raw,
      category_scores set_iter m item_names !! c = Some raw
      ∧ s = normalize (max_of (category_scores set_iter m item_names)) raw.
Proof.
  intros H1 H2. rewrite suggest_nonempty by done.
  rewrite merge_sort_Permutation, list_elem_of_fmap. split.
  - intros ([c' raw] & [= -> ->] & Hin%elem_of_map_to_list). by exists raw.
  - intros (raw & Hc & ->). exists (c, raw). split; [done|].
    by apply elem_of_map_to_list.
Qed.

(** The first entry of the result carries the maximal accumulated score. *)
Lemma suggestions_head item_names m c s rest :
  positive_counts (_family_index m) →
  suggest_categories_for_items_list set_iter item_names m = (c, s) :: rest →
  category_scores set_iter m item_names !! c
  = Some (max_of (category_scores set_iter m item_names))
  ∧ (s == 1)%Q.
Proof.
  intros Hcounts Hres.
  assert (item_names ≠ [] ∧ _suggestion_index m ≠ ∅) as [H1 H2].
  { unfold suggest_categories_for_items_list in Hres.
    split; intros Heq; by rewrite Heq, ?orb_true_r in Hres. }
  set (scores := category_scores set_iter m item_names) in *.
  assert ((c, s) ∈ suggest_categories_for_items_list set_iter item_names m)
    as Hin by (rewrite Hres; by left).
  apply elem_of_suggestions in Hin as (raw & Hc & ->); [|done..].
  fold scores in Hc, Hres |- *.
  assert (scores ≠ ∅) as Hne by (intros Heq; by rewrite Heq in Hc).
  destruct (max_of_spec scores Hne) as [(cmax & Hcmax) Hle].
  assert (0 < max_of scores)%Z as Hpos.
  { pose proof (positive_category_scores m item_names Hcounts _ _ Hcmax).
    fold scores in H. lia. }
  assert ((cmax, normalize (max_of scores) (max_of scores))
          ∈ (c, normalize (max_of scores) raw) :: rest) as Hmax.
  { rewrite <- Hres. apply elem_of_suggestions; [done..|].
    by exists (max_of scores). }
  assert (StronglySorted suggestion_le
            ((c, normalize (max_of scores) raw) :: rest)) as Hsorted.
  { rewrite <- Hres, suggest_nonempty by done.
    apply StronglySorted_merge_sort; apply _. }
  assert (raw = max_of scores) as ->.
  { pose proof (Hle _ _ Hc).
    apply elem_of_cons in Hmax as [[= _ Hn]|Hmax].
    - pose proof (normalize_compare (max_of scores) (max_of scores) raw Hpos)
        as Hcmp.
      rewrite Hn in Hcmp.
      assert ((normalize (max_of scores) raw
               ?= normalize (max_of scores) raw)%Q = Eq) as Hrefl.
      { apply Qeq_alt. reflexivity. }
      rewrite Hrefl in Hcmp. symmetry in Hcmp.
      apply Z.compare_eq in Hcmp. lia.
    - apply StronglySorted_inv in Hsorted as [_ Hall].
      rewrite Forall_forall in Hall. apply Hall in Hmax.
      apply suggestion_le_normalized in Hmax; [|done]. lia. }
  split; [done|]. by apply normalize_max.
Qed.

(** *** The keyword index holds no word with an underscore *)

Lemma forallb_str_join f sep l :
  forallb_str f sep = true →
  Forall (λ s, forallb_str f s = true) l →
  forallb_str f (join sep l) = true.
Proof.
  intros Hsep. induction 1 as [|s l Hs Hl IH]; [done|].
  destruct l as [|s' l]; [done|].
  change (join sep (s :: s' :: l)) with (s +:+ sep +:+ join sep (s' :: l)).
  by rewrite !forallb_str_app, Hs, Hsep, IH.
Qed.

Lemma split_underscore s :
  Forall (λ piece, forallb_str not_underscore piece = true) (split "_" s).
Proof.
  unfold split. induction s as [|c s IH]; [by constructor|].
  cbn [split_go]. change (startswith "_" (String c s))
    with (bool_decide ("_"%char = c) && true).
  destruct (bool_decide ("_"%char = c)) eqn:Hc; simpl.
  - by constructor.
  - assert (not_underscore c = true) as Hnu.
    { unfold not_underscore. apply negb_true_iff, bool_decide_eq_false.
      apply bool_decide_eq_false in Hc. congruence. }
    destruct (split_go "_" 0 s) as [|p ps].
    + constructor; [|done]. simpl. by rewrite Hnu.
    + apply Forall_cons in IH as [Hp Hps]. constructor; [|done].
      simpl. by rewrite Hnu, Hp.
Qed.

Lemma replace_underscore s :
  forallb_str not_underscore (replace "_" " " s) = true.
Proof.
  unfold replace. apply forallb_str_join; [done|]. apply split_underscore.
Qed.

Lemma lower_char_underscore c :
  not_underscore c = true → not_underscore (lower_char c) = true.
Proof. destruct c as [[] [] [] [] [] [] [] []]; by vm_compute. Qed.

Lemma lower_underscore s :
  forallb_str not_underscore s = true →
  forallb_str not_underscore (lower s) = true.
Proof.
  induction s as [|c s IH]; [done|]. simpl.
  intros [Hc Hs]%andb_true_iff. by rewrite lower_char_underscore, IH.
Qed.

Lemma forallb_str_rev_app f s : ∀ t,
  forallb_str f (String.rev_app s t) = forallb_str f s && forallb_str f t.
Proof.
  induction s as [|c s IH]; intros t; [done|]. simpl.
  rewrite IH. simpl. destruct (f c), (forallb_str f s); done.
Qed.

Lemma forallb_str_rev f s : forallb_str f (String.rev s) = forallb_str f s.
Proof. unfold String.rev. by rewrite forallb_str_rev_app, andb_true_r. Qed.

Lemma runs_go_chars f keep s : ∀ cur,
  forallb_str f s = true →
  forallb_str f (default "" cur) = true →
  Forall (λ w, forallb_str f w = true) (runs_go keep cur s).
Proof.
  induction s as [|c s IH]; intros cur Hs Hcur; simpl.
  - destruct cur as [r|]; simpl; [|done].
    constructor; [|done]. by rewrite forallb_str_rev.
  - simpl in Hs. apply andb_true_iff in Hs as [Hc Hs].
    destruct (keep c).
    + apply IH; [done|]. simpl. by rewrite Hc, Hcur.
    + apply Forall_app. split; [|by apply IH].
      destruct cur as [r|]; simpl; [|done].
      constructor; [|done]. by rewrite forallb_str_rev.
Qed.

Lemma words_in_prop_underscore p w :
  w ∈ words_in_prop set_iter p → forallb_str not_underscore w = true.
Proof.
  unfold words_in_prop, findall_words. intros Hw%elem_of_list_to_set.
  pose proof (runs_go_chars not_underscore is_word_char
                (lower (replace "_" " " (join " " (set_iter (all_items p)))))
                None) as Hall.
  rewrite Forall_forall in Hall. apply Hall; [|done|done].
  apply lower_underscore, replace_underscore.
Qed.

Lemma index_words_keys p idx (P : string → Prop) :
  (∀ w, is_Some (idx !! w) → P w) →
  (∀ w, w ∈ words_in_prop set_iter p → P w) →
  ∀ w, is_Some (index_words set_iter p idx !! w) → P w.
Proof.
  intros Hidx Hwords. unfold index_words.
  assert (∀ w, w ∈ set_iter (words_in_prop set_iter p) → P w) as Hl.
  { intros w Hw. by apply Hwords, (elem_of_set_iter set_iter set_iter_perm). }
  revert idx Hidx Hl. generalize (set_iter (words_in_prop set_iter p)).
  induction l as [|w0 l IH]; intros idx Hidx Hl; [done|].
  simpl. apply IH.
  - intros w. destruct (decide (w0 = w)) as [->|Hne].
    + intros _. apply Hl. by left.
    + rewrite lookup_insert_ne by done. apply Hidx.
  - intros w Hw. apply Hl. by right.
Qed.

Lemma built_index_keys els (P : string → Prop) :
  (∀ q w, EProperty q ∈ els → w ∈ words_in_prop set_iter q → P w) →
  ∀ w, is_Some ((foldl (index_element set_iter) (∅, ∅) els).1 !! w) → P w.
Proof.
  assert (∀ w, is_Some ((∅ : gmap string (gset string)) !! w) → P w) as H0.
  { intros w. rewrite lookup_empty. by intros [? ?]. }
  revert H0.
  generalize (∅ : gmap string (gset string))
             (∅ : gmap string (gmap string nat)).
  induction els as [|el els IH]; intros idx fam Hidx Hels; [done|].
  simpl. destruct el as [c| |c|q]; simpl.
  1-3: apply IH; [done|]; intros q w Hq; apply Hels; by right.
  apply IH.
  - apply index_words_keys; [done|]. intros w. apply Hels. by left.
  - intros q' w Hq. apply Hels. by right.
Qed.

(** *** The family index *)

Lemma index_family_entries (R : string → string → nat → Prop) k fam item :
  (∀ fk per c n, fam !! fk = Some per → per !! c = Some n → R fk c n) →
  (∀ n, 0 < n → R (family_key_of (suggestion_base_name item)) k n) →
  ∀ fk per c n,
    index_family k fam item !! fk = Some per → per !! c = Some n → R fk c n.
Proof.
  intros Hfam Hnew fk per c n. unfold index_family.
  set (fk0 := family_key_of (suggestion_base_name item)) in *.
  destruct (_ && _); [|apply Hfam].
  destruct (decide (fk0 = fk)) as [<-|Hne].
  - rewrite lookup_insert_eq. intros [= <-].
    destruct (decide (k = c)) as [<-|Hnec].
    + rewrite lookup_insert_eq. intros [= <-]. apply Hnew. lia.
    + rewrite lookup_insert_ne by done.
      destruct (fam !! fk0) as [per0|] eqn:E; simpl.
      * by apply Hfam.
      * by rewrite lookup_empty.
  - rewrite lookup_insert_ne by done. apply Hfam.
Qed.

Lemma index_family_mono k fam item fk c :
  family_entry fam fk c → family_entry (index_family k fam item) fk c.
Proof.
  intros (per & n & Hper & Hn). unfold index_family, family_entry.
  set (fk0 := family_key_of (suggestion_base_name item)) in *.
  destruct (_ && _); [|by exists per, n].
  destruct (decide (fk0 = fk)) as [<-|Hne].
  - rewrite lookup_insert_eq, Hper. simpl.
    destruct (decide (k = c)) as [<-|Hnec].
    + eexists _, _. split; [done|]. by rewrite lookup_insert_eq.
    + eexists _, n. split; [done|]. by rewrite lookup_insert_ne.
  - exists per, n. by rewrite lookup_insert_ne.
Qed.

Lemma index_family_new k fam item :
  family_key_ok (family_key_of (suggestion_base_name item)) = true →
  family_entry (index_family k fam item)
    (family_key_of (suggestion_base_name item)) k.
Proof.
  unfold family_key_ok, index_family, family_entry. intros ->.
  eexists _, _. rewrite lookup_insert_eq. split; [done|].
  by rewrite lookup_insert_eq.
Qed.

Lemma built_family_entries (R : string → string → nat → Prop) els :
  (∀ q item n, EProperty q ∈ els → item ∈ all_items q → 0 < n →
               R (family_key_of (suggestion_base_name item)) (key q) n) →
  ∀ fk per c n,
    (foldl (index_element set_iter) (∅, ∅) els).2 !! fk = Some per →
    per !! c = Some n → R fk c n.
Proof.
  assert (∀ fk per c n,
            (∅ : gmap string (gmap string nat)) !! fk = Some per →
            per !! c = Some n → R fk c n) as H0.
  { intros fk per c n. by rewrite lookup_empty. }
  revert H0.
  generalize (∅ : gmap string (gset string))
             (∅ : gmap string (gmap string nat)).
  induction els as [|el els IH]; intros idx fam Hfam Hels; [done|].
  simpl. destruct el as [x| |x|q]; simpl.
  1-3: apply IH; [done|]; intros q item n Hq; apply Hels; by right.
  apply IH; [|intros q' item n Hq; apply Hels; by right].
  assert (∀ item, item ∈ set_iter (all_items q) → item ∈ all_items q) as Hl.
  { intros item. by rewrite (elem_of_set_iter set_iter set_iter_perm). }
  revert fam Hfam Hl. generalize (set_iter (all_items q)).
  induction l as [|item l IHl]; intros fam Hfam Hl; [done|].
  simpl. apply IHl; [|intros i Hi; apply Hl; by right].
  apply index_family_entries; [done|].
  intros n Hn. apply Hels; [by left| |done]. apply Hl. by left.
Qed.

Lemma built_family_mono els : ∀ idx fam fk c,
  family_entry fam fk c →
  family_entry (foldl (index_element set_iter) (idx, fam) els).2 fk c.
Proof.
  induction els as [|el els IH]; intros idx fam fk c Hentry; [done|].
  simpl. destruct el as [x| |x|q]; simpl; try by apply IH.
  apply IH. generalize (set_iter (all_items q)). intros l.
  revert fam Hentry. induction l as [|item l IHl]; intros fam Hentry; [done|].
  simpl. by apply IHl, index_family_mono.
Qed.

Lemma built_family_complete els q item :
  EProperty q ∈ els → item ∈ all_items q →
  family_key_ok (family_key_of (suggestion_base_name item)) = true →
  family_entry (foldl (index_element set_iter) (∅, ∅) els).2
    (family_key_of (suggestion_base_name item)) (key q).
Proof.
  generalize (∅ : gmap string (gset string))
             (∅ : gmap string (gmap string nat)).
  induction els as [|el els IH]; intros idx fam Hq Hitem Hok.
  { by apply elem_of_nil in Hq. }
  simpl. apply elem_of_cons in Hq as [<-|Hq].
  2:{ destruct (index_element set_iter (idx, fam) el). by apply IH. }
  simpl. apply built_family_mono.
  apply (elem_of_set_iter set_iter set_iter_perm) in Hitem.
  revert fam Hitem. generalize (set_iter (all_items q)).
  induction l as [|i l IHl]; intros fam Hitem.
  { by apply elem_of_nil in Hitem. }
  simpl. apply elem_of_cons in Hitem as [<-|Hitem]; [|by apply IHl].
  generalize (index_family_new (key q) fam item Hok).
  generalize (index_family (key q) fam item). clear.
  intros fam Hentry. revert fam Hentry.
  induction l as [|i l IHl]; intros fam Hentry; [done|].
  simpl. by apply IHl, index_family_mono.
Qed.

(** *** A category with a [stairs] item makes the keyword index non-empty *)

Lemma has_char_app c s t : has_char c (s +:+ t) = has_char c s || has_char c t.
Proof. apply existsb_str_app. Qed.

Lemma split_go_chars sep c s : ∀ skip piece,
  piece ∈ split_go sep skip s → has_char c piece = true →
  has_char c s = true.
Proof.
  induction s as [|d s IH]; intros skip piece.
  { simpl. by intros ->%list_elem_of_singleton. }
  cbn [split_go]. destruct skip as [|skip].
  - destruct (startswith sep (String d s)).
    + intros [->|Hin]%elem_of_cons; [done|]. intros Hc.
      unfold has_char in *. simpl. rewrite (IH _ _ Hin Hc).
      by rewrite orb_true_r.
    + destruct (split_go sep 0 s) as [|p ps] eqn:E.
      * intros ->%list_elem_of_singleton. unfold has_char. simpl.
        rewrite orb_false_r. by intros ->.
      * intros [->|Hin]%elem_of_cons Hc; unfold has_char in *; simpl in *.
        -- apply orb_true_iff in Hc as [->|Hc]; [done|].
           rewrite (IH 0 p); [by rewrite orb_true_r| |done]. rewrite E.
           by left.
        -- rewrite (IH 0 piece); [by rewrite orb_true_r| |done]. rewrite E.
           by right.
  - intros Hin Hc. unfold has_char in *. simpl.
    rewrite (IH _ _ Hin Hc). by rewrite orb_true_r.
Qed.

Lemma split_last_chars sep c s :
  has_char c (default "" (last (split sep s))) = true → has_char c s = true.
Proof.
  destruct (last (split sep s)) as [piece|] eqn:E; [|done]. simpl.
  apply (split_go_chars sep c s 0). by apply last_Some_elem_of.
Qed.

Lemma split_head_chars sep c s :
  has_char c (default "" (head (split sep s))) = true → has_char c s = true.
Proof.
  destruct (head (split sep s)) as [piece|] eqn:E; [|done]. simpl.
  apply (split_go_chars sep c s 0). by apply head_Some_elem_of.
Qed.

Lemma has_char_join c sep l x :
  x ∈ l → has_char c x = true → has_char c (join sep l) = true.
Proof.
  intros Hin Hc. induction l as [|y l IH]; [by apply elem_of_nil in Hin|].
  destruct l as [|z l].
  - apply list_elem_of_singleton in Hin. by subst.
  - change (join sep (y :: z :: l)) with (y +:+ sep +:+ join sep (z :: l)).
    rewrite !has_char_app.
    apply elem_of_cons in Hin as [->|Hin]; [by rewrite Hc|].
    rewrite (IH Hin). by rewrite !orb_true_r.
Qed.

Lemma split_underscore_keeps c s :
  c ≠ "_"%char → has_char c s = true →
  ∃ piece, piece ∈ split "_" s ∧ has_char c piece = true.
Proof.
  intros Hne. unfold split. induction s as [|d s IH]; [done|].
  unfold has_char at 1. simpl. fold (has_char c s).
  cbn [split_go]. change (startswith "_" (String d s))
    with (bool_decide ("_"%char = d) && true).
  destruct (bool_decide ("_"%char = d)) eqn:Hd; simpl.
  - apply bool_decide_eq_true in Hd. subst d.
    rewrite bool_decide_eq_false_2 by congruence. simpl.
    intros (piece & Hin & Hc)%IH. exists piece. split; [by right|done].
  - intros [Hdc|Hs]%orb_true_iff.
    + apply bool_decide_eq_true in Hdc. subst d.
      destruct (split_go "_" 0 s) as [|p ps]; eexists; (split; [by left|]);
        unfold has_char; simpl; by rewrite bool_decide_eq_true_2.
    + destruct (IH Hs) as (piece & Hin & Hc).
      destruct (split_go "_" 0 s) as [|p ps]; [by apply elem_of_nil in Hin|].
      apply elem_of_cons in Hin as [->|Hin].
      * exists (String d p). split; [by left|]. unfold has_char in *. simpl.
        by rewrite Hc, orb_true_r.
      * exists piece. split; [by right|done].
Qed.

Lemma has_char_lower s :
  has_char "s" s = true → has_char "s" (lower s) = true.
Proof.
  unfold has_char. induction s as [|d s IH]; [done|]. simpl.
  intros [Hd|Hs]%orb_true_iff.
  - apply bool_decide_eq_true in Hd. by subst.
  - by rewrite (IH Hs), orb_true_r.
Qed.

Lemma runs_go_some keep r s : runs_go keep (Some r) s ≠ [].
Proof.
  revert r. induction s as [|c s IH]; intros r; [done|]. simpl.
  destruct (keep c); [apply IH|done].
Qed.

Lemma runs_go_nonempty keep s : ∀ cur,
  existsb_str keep s = true → runs_go keep cur s ≠ [].
Proof.
  induction s as [|c s IH]; intros cur; [done|]. simpl.
  destruct (keep c) eqn:Hc; simpl.
  - intros _. apply runs_go_some.
  - intros Hs. destruct cur; simpl; [done|by apply IH].
Qed.

Lemma has_char_existsb f c s :
  f c = true → has_char c s = true → existsb_str f s = true.
Proof.
  intros Hf. unfold has_char. induction s as [|d s IH]; [done|]. simpl.
  intros [Hd|Hs]%orb_true_iff.
  - apply bool_decide_eq_true in Hd. subst. by rewrite Hf.
  - by rewrite (IH Hs), orb_true_r.
Qed.

Lemma stairs_item_has_s item :
  family_key_of (suggestion_base_name item) = "stairs" →
  has_char "s" item = true.
Proof.
  unfold family_key_of, suggestion_base_name. intros Hfam.
  apply (split_last_chars ":"), (split_head_chars "["),
    (split_last_chars "_"). by rewrite Hfam.
Qed.

Lemma words_in_prop_nonempty q item :
  item ∈ all_items q →
  family_key_of (suggestion_base_name item) = "stairs" →
  ∃ w, w ∈ words_in_prop set_iter q.
Proof.
  intros Hitem Hfam%stairs_item_has_s. unfold words_in_prop, findall_words.
  set (text := lower _).
  assert (existsb_str is_word_char text = true) as Hword.
  { apply (has_char_existsb _ "s"); [done|]. apply has_char_lower.
    unfold replace.
    destruct (split_underscore_keeps "s"
                (join " " (set_iter (all_items q)))) as (piece & Hin & Hc);
      [done| |by eapply has_char_join].
    eapply has_char_join; [|done].
    by apply (elem_of_set_iter set_iter set_iter_perm). }
  pose proof (runs_go_nonempty is_word_char text None Hword) as Hne.
  destruct (runs_go is_word_char None text) as [|w ws]; [done|].
  exists w. apply elem_of_list_to_set. by left.
Qed.

Lemma index_words_mono p idx w :
  is_Some (idx !! w) → is_Some (index_words set_iter p idx !! w).
Proof.
  unfold index_words. generalize (set_iter (words_in_prop set_iter p)).
  intros l. revert idx. induction l as [|w0 l IH]; intros idx Hw; [done|].
  simpl. apply IH. destruct (decide (w0 = w)) as [->|Hne].
  - rewrite lookup_insert_eq. eauto.
  - by rewrite lookup_insert_ne.
Qed.

Lemma index_words_new p idx w :
  w ∈ words_in_prop set_iter p → is_Some (index_words set_iter p idx !! w).
Proof.
  intros Hw%(elem_of_set_iter set_iter set_iter_perm). unfold index_words.
  revert idx Hw. generalize (set_iter (words_in_prop set_iter p)).
  induction l as [|w0 l IH]; intros idx Hw; [by apply elem_of_nil in Hw|].
  simpl. apply elem_of_cons in Hw as [->|Hw]; [|by apply IH].
  assert (is_Some (<[w0 := default ∅ (idx !! w0) ∪ {[key p]}]> idx !! w0))
    as Hsome by (rewrite lookup_insert_eq; eauto).
  revert Hsome. generalize (<[w0 := default ∅ (idx !! w0) ∪ {[key p]}]> idx).
  clear. intros idx Hsome. revert idx Hsome.
  induction l as [|w1 l IH]; intros idx Hsome; [done|].
  simpl. apply IH. destruct (decide (w1 = w0)) as [->|Hne].
  - rewrite lookup_insert_eq. eauto.
  - by rewrite lookup_insert_ne.
Qed.

Lemma built_index_mono els : ∀ idx fam w,
  is_Some (idx !! w) →
  is_Some ((foldl (index_element set_iter) (idx, fam) els).1 !! w).
Proof.
  induction els as [|el els IH]; intros idx fam w Hw; [done|].
  simpl. destruct el as [x| |x|q]; simpl; try by apply IH.
  by apply IH, index_words_mono.
Qed.

Lemma built_index_nonempty els q item :
  EProperty q ∈ els → item ∈ all_items q →
  family_key_of (suggestion_base_name item) = "stairs" →
  (foldl (index_element set_iter) (∅, ∅) els).1 ≠ ∅.
Proof.
  intros Hq Hitem Hfam.
  destruct (words_in_prop_nonempty q item Hitem Hfam) as (w & Hw).
  assert (is_Some ((foldl (index_element set_iter) (∅, ∅) els).1 !! w))
    as [x Hx]; [|intros Heq; by rewrite Heq in Hx].
  generalize (∅ : gmap string (gset string))
             (∅ : gmap string (gmap string nat)).
  induction els as [|el els IH]; intros idx fam.
  { by apply elem_of_nil in Hq. }
  simpl. apply elem_of_cons in Hq as [<-|Hq].
  - simpl. by apply built_index_mono, index_words_new.
  - destruct (index_element set_iter (idx, fam) el). by apply IH.
Qed.

(** *** The query [oak_stairs] *)

Lemma only_in_spec f k els :
  only_in f k els = true →
  (∃ q item, EProperty q ∈ els ∧ key q = k ∧ item ∈ all_items q
             ∧ f item = true)
  ∧ (∀ q item, EProperty q ∈ els → item ∈ all_items q → f item = true →
               key q = k).
Proof.
  unfold only_in. intros [Hex Hall]%andb_true_iff. split.
  - apply existsb_exists in Hex as (el & Hel & [Hk Hf]%andb_true_iff).
    destruct el as [x| |x|q]; try done. simpl in *.
    apply existsb_exists in Hf as (item & Hitem & Hf).
    exists q, item. split; [by apply list_elem_of_In|].
    split; [by apply bool_decide_eq_true in Hk|].
    split; [|done]. by apply elem_of_elements, list_elem_of_In.
  - intros q item Hq Hitem Hf. rewrite forallb_forall in Hall.
    specialize (Hall (EProperty q)). simpl in Hall.
    destruct (bool_decide (key q = k)) eqn:Hk.
    { by apply bool_decide_eq_true in Hk. }
    assert (existsb f (elements (all_items q)) = true) as Hex'.
    { apply existsb_exists. exists item. split; [|done].
      by apply list_elem_of_In, elem_of_elements. }
    rewrite Hex' in Hall. simpl in Hall.
    by discriminate Hall; apply list_elem_of_In.
Qed.

Lemma in_sync_positive_counts m els :
  index_in_sync set_iter m els → positive_counts (_family_index m).
Proof.
  intros (_ & _ & _ & ->). unfold positive_counts.
  by apply (built_family_entries (λ _ _ n, 0 < n)).
Qed.

Lemma keyword_weight_bounds m base keyword c :
  keyword ≠ base → (0 ≤ keyword_weight m base keyword c ≤ 1)%Z.
Proof.
  intros Hne. unfold keyword_weight.
  destruct (_suggestion_index m !! keyword); [|lia].
  destruct (decide _); [|lia]. rewrite bool_decide_eq_false_2 by done. lia.
Qed.

Lemma keyword_weight_underscore m els c :
  index_in_sync set_iter m els →
  keyword_weight m "oak_stairs" "oak_stairs" c = 0%Z.
Proof.
  intros (_ & _ & Hidx & _). unfold keyword_weight.
  destruct (_suggestion_index m !! "oak_stairs") as [cats|] eqn:E; [|done].
  assert (forallb_str not_underscore "oak_stairs" = true); [|done].
  apply (built_index_keys els
           (λ w, forallb_str not_underscore w = true)).
  - intros q w _. apply words_in_prop_underscore.
  - rewrite <- Hidx, E. eauto.
Qed.

(** The score accumulated for the one query [oak_stairs]. *)
Lemma oak_stairs_score m c :
  score_of (category_scores set_iter m ["oak_stairs"]) c
  = (keyword_weight m "oak_stairs" "oak_stairs" c
     + keyword_weight m "oak_stairs" "oak" c
     + keyword_weight m "oak_stairs" "stairs" c
     + family_weight m "oak_stairs" c)%Z.
Proof.
  unfold category_scores. cbn [foldl]. rewrite score_of_score_item.
  change (suggestion_base_name "oak_stairs") with "oak_stairs".
  assert (set_iter (keywords_of "oak_stairs")
          ≡ₚ ["oak_stairs"; "oak"; "stairs"]) as Hperm.
  { rewrite set_iter_perm. by vm_compute. }
  rewrite (sumZ_perm _ _ (fmap_Permutation _ _ _ Hperm)).
  unfold score_of. rewrite lookup_empty.
  unfold sumZ. cbn [fmap list_fmap foldr default from_option id]. lia.
Qed.

Lemma oak_stairs_first m els :
  index_in_sync set_iter m els →
  only_in in_stairs_family "block.10" els = true →
  ∃ s rest,
    suggest_categories_for_items_list set_iter ["oak_stairs"] m
    = ("block.10", s) :: rest
    ∧ (s == 1)%Q.
Proof.
  intros Hsync [(q & item & Hq & Hk & Hitem & Hfam) Honly]%only_in_spec.
  pose proof (in_sync_positive_counts m els Hsync) as Hcounts.
  unfold in_stairs_family in Hfam. apply bool_decide_eq_true in Hfam.
  assert (_suggestion_index m ≠ ∅) as Hne.
  { destruct Hsync as (_ & _ & -> & _).
    by apply (built_index_nonempty els q item). }
  assert (family_entry (_family_index m) "stairs" "block.10")
    as (per & n & Hper & Hn).
  { destruct Hsync as (_ & _ & _ & ->). rewrite <- Hfam, <- Hk.
    apply built_family_complete; [done..|]. by rewrite Hfam. }
  assert (0 < n) as Hnpos by by eapply Hcounts.
  assert (∀ c, c ≠ "block.10" → per !! c = None) as Hothers.
  { intros c Hc. destruct (per !! c) as [n'|] eqn:E; [|done].
    destruct Hc. destruct Hsync as (_ & _ & _ & Hfamidx).
    rewrite Hfamidx in Hper.
    apply (built_family_entries
             (λ fk c _, fk = "stairs" → c = "block.10") els)
      with (fk := "stairs") (per := per) (n := n'); try done.
    intros q' item' _ Hq' Hitem' _ Hfk.
    apply (Honly q' item'); [done..|].
    by apply bool_decide_eq_true. }
  assert (∀ c, score_of (category_scores set_iter m ["oak_stairs"]) c
               = (keyword_weight m "oak_stairs" "oak" c
                  + keyword_weight m "oak_stairs" "stairs" c
                  + Z.of_nat (default 0%nat (per !! c)) * 5)%Z) as Hscore.
  { intros c. rewrite oak_stairs_score.
    rewrite (keyword_weight_underscore m els c Hsync).
    unfold family_weight.
    change (family_key_of "oak_stairs") with "stairs".
    rewrite bool_decide_eq_false_2 by done. rewrite Hper. lia. }
  assert (5 ≤ score_of (category_scores set_iter m ["oak_stairs"])
                "block.10")%Z as Hten.
  { rewrite Hscore, Hn. simpl default.
    pose proof (keyword_weight_bounds m "oak_stairs" "oak" "block.10"
                  ltac:(done)).
    pose proof (keyword_weight_bounds m "oak_stairs" "stairs" "block.10"
                  ltac:(done)).
    lia. }
  assert (∀ c, c ≠ "block.10" →
               (score_of (category_scores set_iter m ["oak_stairs"]) c
                ≤ 2)%Z) as Hrest.
  { intros c Hc. rewrite Hscore, (Hothers c Hc). simpl default.
    pose proof (keyword_weight_bounds m "oak_stairs" "oak" c
                  ltac:(done)).
    pose proof (keyword_weight_bounds m "oak_stairs" "stairs" c
                  ltac:(done)).
    lia. }
  set (scores := category_scores set_iter m ["oak_stairs"]) in *.
  destruct (scores !! "block.10") as [raw|] eqn:Eraw.
  2:{ unfold score_of in Hten. rewrite Eraw in Hten. simpl in Hten. lia. }
  assert (("block.10", normalize (max_of scores) raw)
          ∈ suggest_categories_for_items_list set_iter ["oak_stairs"] m)
    as Hin.
  { apply elem_of_suggestions; [done..|]. by exists raw. }
  destruct (suggest_categories_for_items_list set_iter ["oak_stairs"] m)
    as [|[c s] rest] eqn:Hres.
  { by apply elem_of_nil in Hin. }
  destruct (suggestions_head ["oak_stairs"] m c s rest Hcounts Hres)
    as [Hmax Hone].
  fold scores in Hmax.
  assert (scores ≠ ∅) as Hnes by (intros Heq; by rewrite Heq in Eraw).
  destruct (max_of_spec scores Hnes) as [_ Hle].
  pose proof (Hle _ _ Eraw) as Hraw.
  destruct (decide (c = "block.10")) as [->|Hc].
  { by exists s, rest. }
  specialize (Hrest c Hc). unfold score_of in Hrest, Hten.
  rewrite Hmax in Hrest. rewrite Eraw in Hten. simpl in *. lia.
Qed.

(** After a successful [load_file] the indices are in sync with the live
    document. *)
Lemma load_file_in_sync file m :
  (load_file set_iter file m).1 = true →
  index_in_sync set_iter (load_file set_iter file m).2
    (default [] (modified_elements (load_file set_iter file m).2)).
Proof.
  unfold load_file. destruct (parse file) as [|el els] eqn:Hp; [done|].
  intros _. cbn [snd]. unfold index_in_sync, _build_lookup_sets.
  set (m0 := mkManager _ _ _ _ _ _ _ _ _).
  assert (modified_elements (_build_suggestion_index set_iter m0)
          = Some (el :: els)) as Hm.
  { by destruct (_build_suggestion_index_fields set_iter m0)
      as (_ & -> & _). }
  rewrite Hm. cbn [truthy]. cbn [modified_elements _suggestion_index
    _family_index default from_option id].
  split; [done|]. split; [done|].
  unfold _build_suggestion_index. cbn [modified_elements m0 truthy].
  by destruct (foldl _ _ _).
Qed.

End suggestions.

(** C7, as amended. With the indices built from the live document:
    an empty input list or an empty keyword index yields the empty list;
    otherwise the result holds exactly the categories with an accumulated
    score, each with that score divided by the maximal one, in descending
    order of score and, among equal scores, ascending order of key; its
    first entry carries the maximal accumulated score and so the score 1. In
    particular, when [block.10] holds an item whose family key (the last
    underscore-separated part of its base name) is [stairs] and no category
    with another key holds one, the result for [oak_stairs] starts with
    [block.10] at score 1. *)
Theorem suggestions_normalized_and_ordered
    (set_iter : gset string → list string) (m : Manager)
    (els : list Element) (item_names : list string) :
  (∀ X, set_iter X ≡ₚ elements X) →
  index_in_sync set_iter m els →
  let result := suggest_categories_for_items_list set_iter item_names m in
  let scores := category_scores set_iter m item_names in
  (item_names = [] ∨ _suggestion_index m = ∅ → result = [])
  ∧ StronglySorted suggestion_le result
  ∧ (item_names ≠ [] → _suggestion_index m ≠ ∅ →
     ∀ c s, (c, s) ∈ result
            ↔ ∃ raw, scores !! c = Some raw
                     ∧ s = normalize (max_of scores) raw)
  ∧ (∀ c s rest, result = (c, s) :: rest →
       scores !! c = Some (max_of scores) ∧ (s == 1)%Q)
  ∧ (only_in in_stairs_family "block.10" els = true →
     ∃ s rest,
       suggest_categories_for_items_list set_iter ["oak_stairs"] m
       = ("block.10", s) :: rest
       ∧ (s == 1)%Q).
Proof.
  intros Hperm Hsync result scores.
  split; [|split; [|split; [|split]]].
  - unfold result, suggest_categories_for_items_list.
    intros [Hnil|Hnil].
    + by rewrite (bool_decide_eq_true_2 _ Hnil).
    + by rewrite (bool_decide_eq_true_2 _ Hnil), orb_true_r.
  - unfold result, suggest_categories_for_items_list.
    destruct (_ || _); [constructor|].
    apply StronglySorted_merge_sort; apply _.
  - intros H1 H2 c s. by apply elem_of_suggestions.
  - intros c s rest Hres.
    eapply suggestions_head; [|done]. by eapply in_sync_positive_counts.
  - by apply oak_stairs_first.
Qed.

Lemma sample_manager_in_sync :
  index_in_sync elements sample_manager
    (default [] (modified_elements sample_manager)).
Proof. apply load_file_in_sync. by vm_compute. Qed.

Lemma suggestions_normalized_and_ordered_witness :
  let result :=
    suggest_categories_for_items_list elements ["oak_stairs"]
      sample_manager in
  let scores := category_scores elements sample_manager ["oak_stairs"] in
  (["oak_stairs"] = [] ∨ _suggestion_index sample_manager = ∅ → result = [])
  ∧ StronglySorted suggestion_le result
  ∧ (["oak_stairs"] ≠ [] → _suggestion_index sample_manager ≠ ∅ →
     ∀ c s, (c, s) ∈ result
            ↔ ∃ raw, scores !! c = Some raw
                     ∧ s = normalize (max_of scores) raw)
  ∧ (∀ c s rest, result = (c, s) :: rest →
       scores !! c = Some (max_of scores) ∧ (s == 1)%Q)
  ∧ (only_in in_stairs_family "block.10"
       (default [] (modified_elements sample_manager)) = true →
     ∃ s rest,
       suggest_categories_for_items_list elements ["oak_stairs"]
         sample_manager
       = ("block.10", s) :: rest
       ∧ (s == 1)%Q).
Proof.
  apply (suggestions_normalized_and_ordered elements sample_manager
           (default [] (modified_elements sample_manager)) ["oak_stairs"]).
  - done.
  - apply sample_manager_in_sync.
Defined.

(** C7, the claim as stated, fails on its example. In [upstairs_manager]
    only [block.10] holds an item whose base name ends in [stairs]
    ([minecraft:oakstairs]); no word and no family key of that item is
    [stairs], so [block.10] gets no score for [oak_stairs], and the result
    is [block.20] alone (through the word [oak]) at score 1. *)
Lemma suggestions_counterexample :
  only_in ends_in_stairs "block.10"
    (default [] (modified_elements upstairs_manager)) = true
  ∧ index_in_sync elements upstairs_manager
      (default [] (modified_elements upstairs_manager))
  ∧ suggest_categories_for_items_list elements ["oak_stairs"]
      upstairs_manager = [("block.20", 1%Q)].
Proof.
  split; [by vm_compute|]. split; [|by vm_compute].
  apply load_file_in_sync. by vm_compute.
Qed.

(** * Further properties of the code *)

(** ** The items of a property *)

Lemma od_mem_keys {V} k (d : list (string * V)) :
  od_mem k d = true ↔ k ∈ d.*1.
Proof.
  unfold od_mem. rewrite bool_decide_eq_true.
  induction d as [|[k' v] d IH]; simpl.
  - split; [intros [? [=]] | by intros ?%elem_of_nil].
  - destruct (decide (k' = k)) as [->|Hne].
    + split; [intros _; left | by eauto].
    + rewrite IH. split; [by right | ].
      intros [?|?]%elem_of_cons; [congruence | done].
Qed.

Lemma NoDup_keys_od_setdefault {V} k (v : V) d :
  NoDup d.*1 → NoDup (od_setdefault k v d).*1.
Proof.
  intros Hd. unfold od_setdefault. destruct (od_mem k d) eqn:Hm; [done|].
  rewrite fmap_app. apply NoDup_app. split; [done|]. split.
  - intros x Hx ->%list_elem_of_singleton.
    apply (proj2 (od_mem_keys _ _)) in Hx. simpl in Hx. congruence.
  - apply NoDup_singleton.
Qed.

Lemma od_mem_alter {V} (f : V → V) k k0 (d : list (string * V)) :
  od_mem k (od_alter f k0 d) = od_mem k d.
Proof.
  apply eq_true_iff_eq. by rewrite !od_mem_keys, keys_od_alter.
Qed.

Lemma items_alter_append_perm k item (d : list (string * list string)) :
  od_mem k d = true →
  concat (od_alter (λ l, l ++ [item]) k d).*2 ≡ₚ item :: concat d.*2.
Proof.
  rewrite od_mem_keys. induction d as [|[k' v] d IH]; simpl.
  - by intros ?%elem_of_nil.
  - destruct (decide (k' = k)) as [->|Hne]; simpl.
    + intros _. rewrite <- app_assoc. simpl.
      by rewrite <- Permutation_middle.
    + intros [?|Hm]%elem_of_cons; [congruence|].
      rewrite (IH Hm). by rewrite <- Permutation_middle.
Qed.

Lemma union_singleton_elem (a : gset string) item :
  item ∈ a → a ∪ {[item]} = a.
Proof.
  intros Hin. rewrite (comm_L (∪)). apply subseteq_union_1_L.
  by apply singleton_subseteq_l.
Qed.

Lemma filed_step mod_id g a item :
  filed g a → od_mem mod_id g = true →
  let st :=
    if decide (item ∈ a) then (g, a)
    else (od_alter (λ l, l ++ [item]) mod_id g, a ∪ {[item]}) in
  filed st.1 st.2 ∧ od_mem mod_id st.1 = true ∧ st.2 = a ∪ {[item]}.
Proof.
  intros (Hk & Hn & Ha) Hm. destruct (decide (item ∈ a)) as [Hin|Hnin]; simpl.
  - split; [done|]. split; [done|]. by rewrite union_singleton_elem.
  - pose proof (items_alter_append_perm mod_id item g Hm) as Hp.
    split; [|split; [by rewrite od_mem_alter | done]].
    split; [by rewrite keys_od_alter|]. split.
    + rewrite Hp. apply NoDup_cons. split; [by rewrite <- Ha | done].
    + intros x. rewrite Hp, elem_of_union, elem_of_singleton, elem_of_cons, Ha.
      tauto.
Qed.

Lemma filed_loop mod_id items : ∀ g a,
  filed g a → od_mem mod_id g = true →
  let st :=
    foldl (λ '(g, a) item,
             if decide (item ∈ a) then (g, a)
             else (od_alter (λ l, l ++ [item]) mod_id g, a ∪ {[item]}))
      (g, a) items in
  filed st.1 st.2 ∧ st.2 = a ∪ list_to_set items.
Proof.
  induction items as [|item items IH]; intros g a Hf Hm; cbn [foldl].
  - split; [done|]. simpl. by rewrite (right_id_L ∅ (∪)).
  - destruct (filed_step mod_id g a item Hf Hm) as (Hf' & Hm' & Ha').
    destruct (decide (item ∈ a)) as [Hin|Hnin]; simpl in *.
    + destruct (IH g a Hf Hm) as [H1 H2]. split; [done|].
      rewrite H2, (assoc_L (∪)). by rewrite union_singleton_elem.
    + destruct (IH _ _ Hf' Hm') as [H1 H2]. split; [done|].
      by rewrite H2, (assoc_L (∪)).
Qed.

Lemma Property_consistent_filed p :
  Property_consistent p ↔ filed (item_groups p) (all_items p).
Proof. done. Qed.

Lemma filed_setdefault k g a : filed g a → filed (od_setdefault k [] g) a.
Proof.
  intros (Hk & Hn & Ha). split; [by apply NoDup_keys_od_setdefault|].
  by rewrite items_setdefault.
Qed.

Lemma parse_value_line_consistent i line p :
  Property_consistent p →
  Property_consistent (parse_value_line i line p)
  ∧ all_items (parse_value_line i line p)
    = all_items p ∪ list_to_set (split_ws (strip line)).
Proof.
  intros Hp. unfold parse_value_line.
  destruct (split_ws (strip line)) as [|first items] eqn:Hitems.
  - split; [done|]. simpl. by rewrite (right_id_L ∅ (∪)).
  - set (mod_id := if decide (i = 0) then _ else _).
    pose proof (filed_loop mod_id (first :: items)
                  (od_setdefault mod_id [] (item_groups p)) (all_items p)
                  (filed_setdefault _ _ _ Hp) (od_mem_setdefault _ _ _))
      as [Hf Ha].
    destruct (foldl _ _ (first :: items)) as [g a]. by split.
Qed.

Lemma parse_value_lines_consistent lines : ∀ i p,
  Property_consistent p →
  Property_consistent (parse_value_lines i lines p)
  ∧ all_items (parse_value_lines i lines p)
    = all_items p
      ∪ list_to_set (concat ((λ line, split_ws (strip line)) <$> lines)).
Proof.
  induction lines as [|line lines IH]; intros i p Hp; simpl.
  - split; [done|]. by rewrite (right_id_L ∅ (∪)).
  - destruct (parse_value_line_consistent i line p Hp) as [Hc Ha].
    destruct (IH (S i) _ Hc) as [Hc' Ha']. split; [done|].
    by rewrite Ha', Ha, list_to_set_app_L, (assoc_L (∪)).
Qed.

Lemma new_Property_items k raw_value orig :
  Property_consistent (new_Property k raw_value orig)
  ∧ all_items (new_Property k raw_value orig)
    = list_to_set (value_tokens raw_value).
Proof.
  unfold new_Property, _parse_value, value_tokens.
  match goal with
  | |- context [parse_value_lines 0 ?ls ?p0] =>
      destruct (parse_value_lines_consistent ls 0 p0) as [Hc Ha]
  end.
  - split; [apply NoDup_nil_2|]. split; [apply NoDup_nil_2|].
    intros x. simpl. by rewrite elem_of_empty, elem_of_nil.
  - split; [done|]. rewrite Ha. simpl. by rewrite (left_id_L ∅ (∪)).
Qed.

Lemma concat_sorted_perm (groups : list (string * list string)) :
  ((λ '(mod_id, items), (mod_id, sort_strings items)) <$> groups).*1
  = groups.*1
  ∧ concat ((λ '(mod_id, items), (mod_id, sort_strings items)) <$> groups).*2
    ≡ₚ concat groups.*2.
Proof.
  induction groups as [|[k v] groups [IH1 IH2]]; simpl; [done|].
  split; [by f_equal|]. by rewrite IH2, sort_strings_perm.
Qed.

Lemma add_item_consistent item mod_id p :
  Property_consistent p → Property_consistent (add_item item mod_id p).
Proof.
  intros Hp. apply (filed_setdefault mod_id) in Hp.
  pose proof (filed_step mod_id _ _ item Hp (od_mem_setdefault _ _ _))
    as (Hf & _ & _).
  unfold add_item. by destruct (decide (item ∈ all_items p)).
Qed.

Lemma sort_items_consistent p :
  Property_consistent p → Property_consistent (sort_items_alphabetically p).
Proof.
  intros (Hk & Hn & Ha). destruct (concat_sorted_perm (item_groups p)) as [E1 E2].
  unfold Property_consistent, items_of. simpl. rewrite E1.
  split; [done|]. split; [by rewrite E2|].
  intros x. by rewrite E2.
Qed.

Lemma regenerate_consistent p :
  Property_consistent p → Property_consistent (regenerate_raw_value p).
Proof.
  destruct (regenerate_raw_value_groups p) as (_ & Hg & Ha & _).
  unfold Property_consistent, items_of. by rewrite Hg, Ha.
Qed.

(** X1. Whatever the key and the value text, the property that the parser
    builds is consistent: its groups have distinct keys, no item is filed in
    two places, [all_items] is exactly the set of the filed items, and these
    are exactly the blank-separated tokens of the value text. *)
Theorem parsed_property_consistent (k raw_value : string)
    (orig : option string) :
  Property_consistent (new_Property k raw_value orig)
  ∧ all_items (new_Property k raw_value orig)
    = list_to_set (value_tokens raw_value)
  ∧ key (new_Property k raw_value orig) = k.
Proof.
  destruct (new_Property_items k raw_value orig) as [Hc Ha].
  split; [done|]. split; [done|].
  unfold new_Property, _parse_value.
  match goal with
  | |- context [parse_value_lines 0 ?ls ?p0] =>
      by destruct (parse_value_lines_fields ls 0 p0) as (-> & _)
  end.
Qed.

(** X2. The three methods that change a property keep it consistent:
    [add_item] (whatever the item and the group), [sort_items_alphabetically]
    and [regenerate_raw_value]; and [add_item] adds exactly the one item,
    [sort_items_alphabetically] none. *)
Theorem property_methods_keep_consistency (p : Property)
    (item mod_id : string) :
  Property_consistent p →
  Property_consistent (add_item item mod_id p)
  ∧ all_items (add_item item mod_id p) = all_items p ∪ {[item]}
  ∧ Property_consistent (sort_items_alphabetically p)
  ∧ items_of (sort_items_alphabetically p) ≡ₚ items_of p
  ∧ Property_consistent (regenerate_raw_value p)
  ∧ items_of (regenerate_raw_value p) = items_of p.
Proof.
  intros Hp. split; [by apply add_item_consistent|].
  split.
  { unfold add_item. destruct (decide (item ∈ all_items p)); simpl; [|done].
    by rewrite union_singleton_elem. }
  split; [by apply sort_items_consistent|].
  split; [apply concat_sorted_perm|].
  split; [by apply regenerate_consistent|].
  unfold items_of. by destruct (regenerate_raw_value_groups p) as (_ & -> & _).
Qed.

Lemma property_methods_keep_consistency_witness :
  Property_consistent facing_property
  ∧ Property_consistent (add_item "ns:base[facing=east]" "ns" facing_property)
  ∧ all_items (add_item "ns:base[facing=east]" "ns" facing_property)
    = all_items facing_property ∪ {["ns:base[facing=east]"]}
  ∧ Property_consistent (sort_items_alphabetically facing_property)
  ∧ items_of (sort_items_alphabetically facing_property)
    ≡ₚ items_of facing_property
  ∧ Property_consistent (regenerate_raw_value facing_property)
  ∧ items_of (regenerate_raw_value facing_property)
    = items_of facing_property.
Proof.
  assert (Property_consistent facing_property) as Hp
    by apply new_Property_items.
  split; [done|].
  by apply (property_methods_keep_consistency facing_property).
Defined.

(** ** Reading a file *)

Lemma forallb_str_lstrip f s :
  forallb_str f s = true → forallb_str f (lstrip s) = true.
Proof.
  induction s as [|c s IH]; [done|]. simpl.
  intros [Hc Hs]%andb_true_iff. destruct (isspace c); [by apply IH|].
  simpl. by rewrite Hc, Hs.
Qed.

Lemma forallb_str_rstrip_if f g s :
  forallb_str f s = true → forallb_str f (rstrip_if g s) = true.
Proof.
  intros Hs. destruct (rstrip_if_split g s) as (t & Heq & _).
  rewrite Heq, forallb_str_app in Hs. by apply andb_true_iff in Hs as [? _].
Qed.

Lemma forallb_str_strip f s :
  forallb_str f s = true → forallb_str f (strip s) = true.
Proof.
  intros Hs. by apply forallb_str_lstrip, forallb_str_rstrip_if.
Qed.

Lemma lstrip_idem s : lstrip (lstrip s) = lstrip s.
Proof.
  induction s as [|c s IH]; [done|]. simpl.
  destruct (isspace c) eqn:Hc; [done|]. simpl. by rewrite Hc.
Qed.

Lemma rstrip_if_idem f s : rstrip_if f (rstrip_if f s) = rstrip_if f s.
Proof.
  induction s as [|c s IH]; [done|]. simpl.
  destruct (bool_decide (rstrip_if f s = "") && f c) eqn:Hb; [done|].
  simpl. by rewrite IH, Hb.
Qed.

Lemma lstrip_blank s : forallb_str isspace s = true → lstrip s = "".
Proof.
  induction s as [|c s IH]; [done|]. simpl.
  intros [-> Hs]%andb_true_iff. by apply IH.
Qed.

Lemma rstrip_blank s : rstrip s = "" → forallb_str isspace s = true.
Proof.
  intros Hr. destruct (rstrip_if_split isspace s) as (t & Heq & Ht).
  fold rstrip in Heq. rewrite Hr in Heq. by rewrite Heq.
Qed.

Lemma rstrip_lstrip s : rstrip (lstrip s) = lstrip (rstrip s).
Proof.
  unfold rstrip. induction s as [|c s IH]; [done|]. simpl.
  destruct (isspace c) eqn:Hc.
  - rewrite andb_true_r. case_bool_decide as Hr.
    + rewrite IH, Hr. done.
    + simpl. by rewrite Hc.
  - rewrite andb_false_r. simpl. by rewrite Hc, andb_false_r.
Qed.

Lemma strip_idem s : strip (strip s) = strip s.
Proof.
  unfold strip. rewrite <- rstrip_lstrip, lstrip_idem, rstrip_lstrip.
  unfold rstrip. by rewrite rstrip_if_idem.
Qed.

(** The first character of the stripped text is the first non-blank
    character of the text. *)
Lemma startswith_char_strip c s :
  startswith (String c "") (strip s) = startswith (String c "") (lstrip s).
Proof.
  unfold strip, rstrip. induction s as [|d s IH]; [done|]. simpl.
  destruct (isspace d) eqn:Hd.
  - rewrite andb_true_r. case_bool_decide as Hr.
    + by rewrite (lstrip_blank s (rstrip_blank s Hr)).
    + simpl. by rewrite Hd.
  - rewrite andb_false_r. simpl. rewrite Hd.
    destruct (rstrip_if isspace s); by rewrite ?andb_true_r.
Qed.

Lemma rstrip_app_nonspace a c b :
  isspace c = false → rstrip (a +:+ String c b) = a +:+ String c (rstrip b).
Proof.
  intros Hc. unfold rstrip. induction a as [|d a IH].
  - rewrite !string_app_nil_l. simpl. by rewrite Hc, andb_false_r.
  - rewrite !string_app_cons. simpl. rewrite IH.
    destruct a; by rewrite ?string_app_nil_l, ?string_app_cons.
Qed.

Lemma lstrip_app_nonspace a c w :
  isspace c = false →
  lstrip (a +:+ String c w)
  = if bool_decide (lstrip a = "") then String c w
    else lstrip a +:+ String c w.
Proof.
  intros Hc. induction a as [|d a IH].
  - rewrite string_app_nil_l. simpl. by rewrite Hc.
  - rewrite string_app_cons. simpl. destruct (isspace d); [done|].
    by rewrite string_app_cons.
Qed.

Lemma startswith_char_app c x y :
  x ≠ "" → startswith (String c "") (x +:+ y) = startswith (String c "") x.
Proof.
  destruct x as [|d x]; [done|]. intros _. rewrite string_app_cons. simpl.
  by destruct (x +:+ y), x.
Qed.

(** Whether a property line starts with a character other than the equals
    sign depends on the first non-blank character of its key alone. *)
Lemma startswith_key_line c k v :
  c ≠ "="%char →
  startswith (String c "") (strip (k +:+ "=" +:+ v))
  = startswith (String c "") (lstrip k).
Proof.
  intros Hc. unfold strip.
  change (k +:+ "=" +:+ v) with (k +:+ String "=" v).
  rewrite (rstrip_app_nonspace k "=" v eq_refl).
  rewrite (lstrip_app_nonspace k "=" (rstrip v) eq_refl).
  case_bool_decide as Hk.
  - rewrite Hk. simpl. rewrite bool_decide_eq_false_2; done.
  - by apply startswith_char_app.
Qed.

Lemma find_split_char c s a b :
  find_split (String c "") s = Some (a, b) →
  s = a +:+ String c b ∧ contains (String c "") a = false.
Proof.
  revert a. induction s as [|d s IH]; intros a; [done|].
  cbn [find_split startswith]. case_bool_decide as Hd; simpl.
  - intros [= <- <-]. by subst.
  - destruct (find_split (String c "") s) as [[a' b']|] eqn:Hs; [|done].
    intros [= <- <-]. destruct (IH a' eq_refl) as [-> Hc].
    split; [by rewrite string_app_cons|].
    unfold contains in *. apply bool_decide_eq_false in Hc.
    apply bool_decide_eq_false. cbn [find_split startswith].
    rewrite bool_decide_eq_false_2 by done. simpl.
    destruct (find_split (String c "") a') as [[??]|]; [|by intros [? [=]]].
    destruct Hc. by eexists.
Qed.

Lemma contains_char c s : contains (String c "") s = has_char c s.
Proof.
  apply eq_true_iff_eq. unfold contains. rewrite bool_decide_eq_true.
  unfold has_char. induction s as [|d s IH]; cbn [find_split startswith existsb_str].
  - split; [by intros [? [=]] | done].
  - destruct (decide (c = d)) as [->|Hne].
    + rewrite !bool_decide_eq_true_2 by done. simpl.
      split; [done | by eexists].
    + rewrite (bool_decide_eq_false_2 (c = d)) by done.
      rewrite (bool_decide_eq_false_2 (d = c)) by congruence.
      simpl. rewrite <- IH.
      destruct (find_split (String c "") s) as [[??]|].
      * split; intros _; by eexists.
      * split; by intros [? [=]].
Qed.

Lemma existsb_str_strip f s :
  existsb_str f s = false → existsb_str f (strip s) = false.
Proof.
  intros Hs. apply negb_true_iff. apply negb_true_iff in Hs.
  assert (∀ t, negb (existsb_str f t) = forallb_str (λ c, negb (f c)) t) as E.
  { induction t as [|c t IH]; [done|]. simpl. by rewrite negb_orb, IH. }
  rewrite E in *. by apply forallb_str_strip.
Qed.

Lemma contains_char_strip c s :
  contains (String c "") s = false → contains (String c "") (strip s) = false.
Proof. rewrite !contains_char. apply existsb_str_strip. Qed.

Lemma translate_newlines_no_cr s :
  forallb_str (λ c, negb (bool_decide (c = CR))) (translate_newlines s) = true.
Proof.
  assert (∀ n s, String.length s ≤ n →
    forallb_str (λ c, negb (bool_decide (c = CR))) (translate_newlines s)
    = true) as H; [|by apply (H (String.length s))].
  clear s. induction n as [|n IH]; intros [|c s] Hn; simpl in *; try done;
    try lia.
  case_bool_decide as Hc.
  - simpl. destruct s as [|d s]; [done|]. case_bool_decide.
    + apply IH. simpl in Hn. lia.
    + apply IH. lia.
  - simpl. rewrite bool_decide_eq_false_2 by done. simpl. apply IH. lia.
Qed.

Lemma split_keepends_raw s :
  forallb_str (λ c, negb (bool_decide (c = CR))) s = true →
  Forall raw_line (split_keepends s).
Proof.
  induction s as [|c s IH]; [by constructor|]. simpl.
  intros [Hc Hs]%andb_true_iff. specialize (IH Hs).
  destruct (bool_decide (c = NL)) eqn:Hnl.
  - constructor; [|done]. exists "". split; [done|]. by right.
  - assert (∀ body, line_clean body → line_clean (String c body)) as Hcl.
    { intros body Hb. unfold line_clean in *. simpl.
      by rewrite Hb, Hc, Hnl. }
    destruct (split_keepends s) as [|l ls].
    + constructor; [|done]. exists (String c ""). split; [by apply Hcl|].
      by left.
    + apply Forall_cons in IH as [(body & Hb & Hl) Hls].
      constructor; [|done]. exists (String c body).
      split; [by apply Hcl|]. destruct Hl as [->| ->]; [by left|by right].
Qed.

Lemma readlines_raw text : Forall raw_line (readlines text).
Proof. apply split_keepends_raw, translate_newlines_no_cr. Qed.

Lemma raw_line_rstrip raw :
  raw_line raw → line_clean (rstrip_nl raw).
Proof.
  intros (body & Hb & [->| ->]).
  - by rewrite rstrip_nl_clean.
  - by rewrite rstrip_nl_line.
Qed.

Lemma collect_from_general k todo : ∀ acc cur,
  ∃ taken rest,
    todo = taken ++ rest
    ∧ well_continued cur (rstrip_nl <$> taken) (rest = [])
    ∧ collect_from k (acc ++ [cur]) todo
      = property_of_lines (strip k) (acc ++ cur :: (rstrip_nl <$> taken))
          :: parse_lines rest.
Proof.
  induction todo as [|next todo IH]; intros acc cur;
    rewrite collect_from_unfold, last_snoc; cbn [default from_option id].
  - exists [], []. destruct (continues cur) eqn:Hc.
    + split; [done|]. split; [by right|done].
    + split; [done|]. split; [by left|done].
  - destruct (continues cur) eqn:Hc.
    + destruct (IH (acc ++ [cur]) (rstrip_nl next)) as (taken & rest & -> & Hw & ->).
      exists (next :: taken), rest. split; [done|]. split; [done|].
      by rewrite <- app_assoc.
    + exists [], (next :: todo). split; [done|]. split; [by left|done].
Qed.

Lemma well_continued_mono (P Q : Prop) conts : ∀ v,
  (P → Q) → well_continued v conts P → well_continued v conts Q.
Proof.
  induction conts as [|c conts IH]; intros v HPQ; simpl.
  - intros [?|?]; [by left|right; auto].
  - intros [? ?]. split; [done|]. by apply IH.
Qed.

Lemma hash_line_strip s : startswith "#" (strip (String "#" s)) = true.
Proof.
  unfold strip, rstrip. simpl. rewrite andb_false_r. simpl.
  by destruct (rstrip_if isspace s).
Qed.

(** What the parser makes of any list of lines is the text of a canonical
    file. *)
Lemma parse_lines_canonical_form : ∀ n raws,
  length raws ≤ n → Forall raw_line raws →
  ∃ lines,
    Forall line_clean lines ∧ canonical_file lines
    ∧ serialize (parse_lines raws) = text_of_lines lines
    ∧ (raws = [] → lines = []).
Proof.
  induction n as [|n IH]; intros [|raw rest] Hn Hraws; simpl in Hn; try lia;
    try (by exists []; repeat split; constructor).
  apply Forall_cons in Hraws as [Hraw Hrest].
  pose proof (raw_line_rstrip raw Hraw) as Hclean.
  rewrite parse_lines_cons. cbv zeta.
  set (line := rstrip_nl raw) in *.
  assert (∀ rest', length rest' ≤ length rest → Forall raw_line rest' →
    ∃ lines, Forall line_clean lines ∧ canonical_file lines
             ∧ serialize (parse_lines rest') = text_of_lines lines
             ∧ (rest' = [] → lines = [])) as IH'.
  { intros rest' Hl Hr. apply IH; [lia|done]. }
  assert (∀ content, line_clean content →
    startswith "#" (strip content) = true →
    ∀ el, to_string el = content →
    ∃ lines, Forall line_clean lines ∧ canonical_file lines
             ∧ serialize (el :: parse_lines rest) = text_of_lines lines
             ∧ (raw :: rest = [] → lines = [])) as Hhash.
  { intros content Hc Hs el Hel.
    destruct (IH' rest) as (lines & Hcl & Hcan & Hser & _); [done..|].
    exists (content :: lines). split; [by constructor|].
    split; [by apply file_hash|]. split; [|done].
    simpl. by rewrite Hel, Hser. }
  case_bool_decide as Hblank.
  - destruct (IH' rest) as (lines & Hcl & Hcan & Hser & _); [done..|].
    exists ("" :: lines). split; [by constructor|].
    split; [by apply file_blank|]. split; [|done].
    simpl. by rewrite Hser.
  - destruct (existsb _ directive_keywords) eqn:Hdir.
    { apply (Hhash line); try done.
      destruct (startswith "#" (strip line)) eqn:Hs; [done|].
      by rewrite (not_hash_not_directive _ Hs) in Hdir. }
    destruct (startswith "#" (strip line)) eqn:Hs.
    { by apply (Hhash line). }
    destruct (find_split "=" line) as [[k value]|] eqn:Hsplit.
    + destruct (find_split_char _ _ _ _ Hsplit) as [Hline Hk].
      assert (line_clean k ∧ line_clean value) as [Hck Hcv].
      { rewrite Hline in Hclean. apply line_clean_app in Hclean as [? Hcv].
        split; [done|]. by apply (line_clean_app "=") in Hcv as [_ ?]. }
      rewrite (rstrip_nl_clean value Hcv).
      destruct (collect_from_general k rest [] value)
        as (taken & rest' & Hrest' & Hw & Hcol).
      cbn [app] in Hcol. rewrite Hcol.
      rewrite Hrest' in Hrest. apply Forall_app in Hrest as [Htaken Hrest''].
      destruct (IH' rest') as (lines & Hcl & Hcan & Hser & Hnil).
      { rewrite Hrest', length_app. lia. }
      { done. }
      exists ((strip k +:+ "=" +:+ value) :: (rstrip_nl <$> taken) ++ lines).
      split; [|split; [|split; [|done]]].
      * constructor.
        { unfold line_clean in *. rewrite !forallb_str_app.
          rewrite (forallb_str_strip _ _ Hck), Hcv. done. }
        apply Forall_app. split; [|done].
        apply Forall_fmap. eapply Forall_impl; [exact Htaken|].
        intros x. apply raw_line_rstrip.
      * apply file_property.
        { by apply contains_char_strip. }
        { assert (startswith "#" (lstrip k) = false) as Hk0.
          { rewrite <- (startswith_key_line "#" k value) by done.
            change (k +:+ "=" +:+ value) with (k +:+ String "=" value).
            by rewrite <- Hline. }
          rewrite startswith_key_line by done.
          unfold strip. rewrite lstrip_idem. fold (strip k).
          by rewrite startswith_char_strip. }
        { apply strip_idem. }
        { eapply well_continued_mono; [|exact Hw]. done. }
        { done. }
      * cbn [serialize foldr]. fold (serialize (parse_lines rest')).
        rewrite property_of_lines_to_string by done.
        rewrite Hser, !string_app_assoc, join_nl_text.
        cbn [text_of_lines foldr]. by rewrite !string_app_assoc.
    + apply (Hhash ("# [UNPARSED] " +:+ line)); [|apply hash_line_strip|done].
      unfold line_clean in *. by rewrite forallb_str_app, Hclean.
Qed.

Lemma reload_canonical text :
  ∃ lines,
    Forall line_clean lines ∧ canonical_file lines
    ∧ reload text = text_of_lines lines.
Proof.
  destruct (parse_lines_canonical_form (length (readlines text))
              (readlines text) (le_n _) (readlines_raw text))
    as (lines & Hcl & Hcan & Hser & _).
  by exists lines.
Qed.

Lemma reload_fixed text : reload (reload text) = reload text.
Proof.
  destruct (reload_canonical text) as (lines & Hcl & Hcan & ->).
  unfold reload, parse.
  by rewrite readlines_text_of_lines, parse_lines_canonical.
Qed.

(** X3. Saving is idempotent on every input, whatever the text of the file
    (blank lines with spaces, keys with blanks around them, lines without an
    equals sign, carriage returns, a missing final line feed): the text that
    parsing and serializing produces is a canonical file, and parsing and
    serializing it again, any number of times, gives the same text. *)
Theorem reload_idempotent (text : string) :
  reload (reload text) = reload text
  ∧ (∀ n, Nat.iter (S n) reload text = reload text)
  ∧ ∃ lines,
      Forall line_clean lines ∧ canonical_file lines
      ∧ reload text = text_of_lines lines.
Proof.
  split; [apply reload_fixed|]. split; [|apply reload_canonical].
  induction n as [|n IH]; [done|].
  change (Nat.iter (S (S n)) reload text)
    with (reload (Nat.iter (S n) reload text)).
  rewrite IH. apply reload_fixed.
Qed.

Lemma parse_lines_nil raws : parse_lines raws = [] ↔ raws = [].
Proof.
  split; [|by intros ->]. destruct raws as [|raw rest]; [done|].
  rewrite parse_lines_cons. cbv zeta.
  repeat (case_bool_decide || case_match); try done.
  destruct (collect_from_general s rest [] (rstrip_nl s0))
    as (taken & rest' & _ & _ & Hcol).
  cbn [app] in Hcol. by rewrite Hcol.
Qed.

Lemma split_keepends_nil s : split_keepends s = [] ↔ s = "".
Proof.
  split; [|by intros ->]. destruct s as [|c s]; [done|]. simpl.
  case_bool_decide; [done|]. by destruct (split_keepends s).
Qed.

Lemma translate_newlines_nil s : translate_newlines s = "" ↔ s = "".
Proof.
  split; [|by intros ->]. destruct s as [|c s]; [done|]. simpl.
  by case_bool_decide.
Qed.

Lemma parse_nil file : parse file = [] ↔ file = None ∨ file = Some "".
Proof.
  destruct file as [text|]; simpl; [|by split; [left|]].
  unfold readlines.
  rewrite parse_lines_nil, split_keepends_nil, translate_newlines_nil.
  split; [intros ->; by right | by intros [|[= ->]]].
Qed.

Lemma load_file_fails_exactly_aux (set_iter : gset string → list string)
    file m :
  (load_file set_iter file m).1 = false ↔ file = None ∨ file = Some "".
Proof.
  rewrite <- parse_nil. unfold load_file.
  by destruct (parse file) as [|el els].
Qed.

(** X4. [load_file] fails exactly when the file cannot be read or is empty;
    a text of blank or unparsable lines still loads. When it fails it
    returns the manager as it was: the document, both stacks, the
    descriptions and the indices of an earlier file stay in place. *)
Theorem load_file_fails_exactly (set_iter : gset string → list string)
    (file : option string) (m : Manager) :
  ((load_file set_iter file m).1 = false ↔ file = None ∨ file = Some "")
  ∧ ((load_file set_iter file m).1 = false →
     (load_file set_iter file m).2 = m).
Proof.
  rewrite <- parse_nil. unfold load_file.
  destruct (parse file) as [|el els]; simpl; by split.
Qed.

Section loading.

Variable set_iter : gset string → list string.

Lemma load_file_success file m :
  (load_file set_iter file m).1 = true →
  let m' := (load_file set_iter file m).2 in
  parse file ≠ []
  ∧ original_elements m' = Some (parse file)
  ∧ modified_elements m' = Some (parse file)
  ∧ history_stack m' = []
  ∧ redo_stack m' = []
  ∧ history_descriptions m' = [].
Proof.
  unfold load_file. destruct (parse file) as [|el els] eqn:Hp; [done|].
  intros _. cbn [snd]. set (m0 := mkManager _ _ _ _ _ _ _ _ _).
  destruct (rebuild_indices_fields set_iter m0) as (Ho & Hm & Hh & Hr & Hd).
  unfold rebuild_indices in *. by rewrite Ho, Hm, Hh, Hr, Hd.
Qed.

Lemma serialize_nonempty els : els ≠ [] → serialize els ≠ "".
Proof.
  destruct els as [|el els]; [done|]. intros _. simpl.
  intros [_ [? _]%string_app_empty]%string_app_empty. done.
Qed.

Lemma save_after_load file m :
  (load_file set_iter file m).1 = true →
  save_to_file (load_file set_iter file m).2 = Some (serialize (parse file)).
Proof.
  intros Hl. destruct (load_file_success file m Hl) as (Hne & _ & Hm & _).
  unfold save_to_file, get_diff, text_of. rewrite Hm.
  by destruct (parse file).
Qed.

End loading.

(** X5. A successful [load_file] starts afresh, whatever the manager held
    before: both documents are the parsed file, the undo stack, the redo
    stack and the descriptions are empty, the suggestion indices and the
    lookup sets are the ones of the new document, and the two texts of
    [get_diff] are equal. *)
Theorem load_file_resets (set_iter : gset string → list string)
    (file : option string) (m : Manager) :
  (load_file set_iter file m).1 = true →
  let m' := (load_file set_iter file m).2 in
  original_elements m' = Some (parse file)
  ∧ modified_elements m' = Some (parse file)
  ∧ history_stack m' = []
  ∧ redo_stack m' = []
  ∧ history_descriptions m' = []
  ∧ index_in_sync set_iter m' (parse file)
  ∧ lookup_sets_fresh set_iter m' (parse file)
  ∧ get_diff m' = (serialize (parse file), serialize (parse file)).
Proof.
  intros Hl m'.
  destruct (load_file_success set_iter file m Hl) as (Hne & Ho & Hm & Hh & Hr & Hd).
  pose proof (load_file_in_sync set_iter file m Hl) as Hsync.
  pose proof (load_file_lookup_fresh_default set_iter file m Hl) as Hfresh.
  fold m' in Ho, Hm, Hh, Hr, Hd, Hsync, Hfresh.
  rewrite Hm in Hsync, Hfresh. repeat (split; [done|]).
  unfold get_diff, text_of. rewrite Ho, Hm. by destruct (parse file).
Qed.

Lemma load_file_resets_witness :
  let m' := (load_file elements (Some sample_text) sample_undone).2 in
  original_elements m' = Some (parse (Some sample_text))
  ∧ modified_elements m' = Some (parse (Some sample_text))
  ∧ history_stack m' = []
  ∧ redo_stack m' = []
  ∧ history_descriptions m' = []
  ∧ index_in_sync elements m' (parse (Some sample_text))
  ∧ lookup_sets_fresh elements m' (parse (Some sample_text))
  ∧ get_diff m'
    = (serialize (parse (Some sample_text)),
       serialize (parse (Some sample_text))).
Proof.
  apply (load_file_resets elements (Some sample_text) sample_undone).
  by vm_compute.
Defined.

(** X6. Saving a freshly loaded file writes the serialized document, and
    the written file is stable: it loads, and saving it again writes the
    same text, whatever the text of the first file was. *)
Theorem saved_file_is_stable (set_iter : gset string → list string)
    (text : string) (m : Manager) :
  (load_file set_iter (Some text) m).1 = true →
  let saved := reload text in
  save_to_file (load_file set_iter (Some text) m).2 = Some saved
  ∧ (load_file set_iter (Some saved) m).1 = true
  ∧ save_to_file (load_file set_iter (Some saved) m).2 = Some saved.
Proof.
  intros Hl saved.
  destruct (load_file_success set_iter _ m Hl) as (Hne & _).
  assert ((load_file set_iter (Some saved) m).1 = true) as Hl'.
  { destruct (load_file set_iter (Some saved) m).1 eqn:E; [done|].
    apply (load_file_fails_exactly_aux set_iter) in E as [[=]|[= E]].
    by apply serialize_nonempty in Hne. }
  split; [by apply save_after_load|]. split; [done|].
  rewrite (save_after_load set_iter _ m Hl'). f_equal. apply reload_fixed.
Qed.

Lemma saved_file_is_stable_witness :
  let saved := reload "block.1 = stone" in
  save_to_file (load_file elements (Some "block.1 = stone") new_Manager).2
  = Some saved
  ∧ (load_file elements (Some saved) new_Manager).1 = true
  ∧ save_to_file (load_file elements (Some saved) new_Manager).2 = Some saved.
Proof.
  apply (saved_file_is_stable elements "block.1 = stone" new_Manager).
  by vm_compute.
Defined.

(** ** Undo and redo *)

Section undo_redo_edges.

Variable set_iter : gset string → list string.

Lemma _save_state_redo d m :
  truthy (modified_elements m) = true →
  redo_stack (_save_state_for_undo d m) = [].
Proof. intros Htr. unfold _save_state_for_undo. by rewrite Htr. Qed.

Lemma redo_empty m : redo_stack m = [] → redo set_iter m = m.
Proof. intros Hr. unfold redo. by rewrite Hr. Qed.

Lemma undo_empty m : history_stack m = [] → undo set_iter m = Returns m.
Proof. intros Hh. unfold undo. by rewrite Hh. Qed.

Lemma undo_raises m :
  history_stack m ≠ [] → history_descriptions m = [] →
  undo set_iter m = Raises IndexError.
Proof.
  intros Hh Hd. unfold undo.
  destruct (last (history_stack m)) as [previous|] eqn:Hl.
  - simpl. by rewrite Hd.
  - by apply last_None in Hl.
Qed.

Lemma redo_descriptions m :
  history_descriptions (redo set_iter m) = history_descriptions m.
Proof.
  unfold redo. destruct (last (redo_stack m)); [|done].
  match goal with |- context [_build_suggestion_index _ ?x] =>
    by destruct (_build_suggestion_index_fields set_iter x)
      as (_ & _ & _ & _ & ->)
  end.
Qed.

Lemma undo_descriptions m m1 :
  undo set_iter m = Returns m1 →
  history_descriptions m1 = removelast (history_descriptions m)
  ∨ m1 = m.
Proof.
  unfold undo. destruct (last (history_stack m)); [|intros [= <-]; by right].
  simpl. destruct (history_descriptions m) as [|d ds] eqn:Hd; [done|].
  intros [= <-]. left.
  match goal with |- context [_build_suggestion_index _ ?x] =>
    by destruct (_build_suggestion_index_fields set_iter x)
      as (_ & _ & _ & _ & ->)
  end.
Qed.

Lemma undo_lookup_sets m m1 :
  undo set_iter m = Returns m1 →
  _all_item_values m1 = _all_item_values m
  ∧ _all_base_item_names m1 = _all_base_item_names m.
Proof.
  unfold undo. destruct (last (history_stack m)); [|by intros [= <-]].
  simpl. destruct (history_descriptions m); [done|]. intros [= <-].
  unfold _build_suggestion_index. by destruct (if truthy _ then _ else _).
Qed.

Lemma run_operation_redo op m :
  truthy (modified_elements m) = true →
  ∃ m', run_operation set_iter op m = Returns m'
        ∧ (m' = m ∨ redo_stack m' = []).
Proof.
  intros Htr. destruct op as [items category_id t|category_id|category_id];
    simpl.
  - eexists. split; [reflexivity|].
    assert (∀ items category_id,
      let m' := (add_items_simple set_iter items category_id m).2 in
      m' = m ∨ redo_stack m' = []) as Hsimple.
    { intros items' c. unfold add_items_simple.
      destruct (_find_property c m); [|by left].
      destruct (forallb _ _); [by left|]. right. simpl.
      match goal with |- context [rebuild_indices _ ?x] =>
        destruct (rebuild_indices_fields set_iter x) as (_ & _ & _ & -> & _)
      end.
      simpl. by apply _save_state_redo. }
    unfold add_items_to_category.
    destruct t as [t|]; [|apply Hsimple].
    destruct (bool_decide (t = "")); [apply Hsimple|].
    right. unfold add_items_template. rewrite Htr.
    destruct (foldl (apply_variations _ _) _ _) as [[els added] keys].
    destruct added; simpl.
    + match goal with |- context [rebuild_indices _ ?x] =>
        destruct (rebuild_indices_fields set_iter x) as (_ & _ & _ & -> & _)
      end.
      simpl. by apply _save_state_redo.
    + by apply _save_state_redo.
  - destruct (_find_property category_id m) as [p|] eqn:Hfind.
    + unfold sort_category. rewrite _find_property_save, Hfind.
      eexists. split; [reflexivity|]. right. simpl.
      by apply _save_state_redo.
    + destruct (sort_category_missing_key m category_id Htr Hfind)
        as (m' & -> & _ & _ & _ & Hr & _).
      exists m'. split; [done|]. by right.
  - unfold create_new_category.
    destruct (_find_property category_id m) as [p|].
    { exists m. split; [done|]. by left. }
    rewrite _save_state_for_undo_modified.
    destruct (modified_elements m) as [els|] eqn:Hels; [|done].
    eexists. split; [reflexivity|]. right.
    match goal with |- context [_build_suggestion_index _ ?x] =>
      destruct (_build_suggestion_index_fields set_iter x)
        as (_ & _ & _ & -> & _)
    end.
    simpl. apply _save_state_redo. by rewrite Hels.
Qed.

Lemma records_history_pushes op m :
  truthy (modified_elements m) = true →
  records_history set_iter op m = true →
  ∃ m', run_operation set_iter op m = Returns m' ∧ pushes m m'
        ∧ original_elements m' = original_elements m.
Proof.
  intros Htr Hrec.
  destruct (run_operation_effect set_iter op m Htr)
    as (m' & Hrun & _ & Ho & Heff).
  exists m'. split; [done|]. split; [|done].
  destruct Heff as [Hp|(Hh & _)]; [done|].
  unfold records_history in Hrec. rewrite Hrun, Hh in Hrec.
  apply bool_decide_eq_true in Hrec. lia.
Qed.

End undo_redo_edges.

(** X7. Every operation on a loaded document that changes anything at all
    clears the redo stack: after [add_items_to_category], [sort_category]
    or [create_new_category] either the manager is exactly what it was, or
    the redo stack is empty and [redo] does nothing. *)
Theorem new_action_clears_redo (set_iter : gset string → list string)
    (op : operation) (m : Manager) :
  truthy (modified_elements m) = true →
  ∃ m',
    run_operation set_iter op m = Returns m'
    ∧ (m' = m ∨ (redo_stack m' = [] ∧ redo set_iter m' = m')).
Proof.
  intros Htr.
  destruct (run_operation_redo set_iter op m Htr) as (m' & Hrun & [->|Hr]).
  - exists m. split; [done|]. by left.
  - exists m'. split; [done|]. right. split; [done|]. by apply redo_empty.
Qed.

Lemma new_action_clears_redo_witness :
  ∃ m',
    run_operation elements (CreateCategory "block.5") sample_undone
    = Returns m'
    ∧ (m' = sample_undone
       ∨ (redo_stack m' = [] ∧ redo elements m' = m')).
Proof.
  apply (new_action_clears_redo elements (CreateCategory "block.5")
           sample_undone).
  by vm_compute.
Defined.

(** X8. [redo] brings back the document and both stacks as they were
    before the [undo], but not the description of the undone action: the
    list of descriptions stays one entry shorter than before. *)
Theorem redo_restores_all_but_description
    (set_iter : gset string → list string) (m : Manager)
    (h : list (option (list Element))) (s : option (list Element)) :
  history_stack m = h ++ [s] →
  0 < length (history_descriptions m) →
  ∃ m1,
    undo set_iter m = Returns m1
    ∧ modified_elements m1 = s
    ∧ modified_elements (redo set_iter m1) = modified_elements m
    ∧ history_stack (redo set_iter m1) = history_stack m
    ∧ redo_stack (redo set_iter m1) = redo_stack m
    ∧ original_elements (redo set_iter m1) = original_elements m
    ∧ history_descriptions (redo set_iter m1)
      = removelast (history_descriptions m).
Proof.
  intros Hh Hd.
  destruct (undo_pop set_iter m h s Hh Hd)
    as (m1 & Hu & Hh1 & Hm1 & Hr1 & Ho1 & Hd1).
  destruct (redo_pop set_iter m1 _ _ Hr1) as (Hh2 & Hm2 & Hr2 & Ho2).
  exists m1. repeat (split; [congruence|]).
  rewrite redo_descriptions.
  destruct (undo_descriptions set_iter m m1 Hu) as [?| ->]; [done|].
  rewrite Hh in Hh1. apply (f_equal length) in Hh1.
  rewrite length_app in Hh1. simpl in Hh1. lia.
Qed.

Lemma redo_restores_all_but_description_witness :
  ∃ m1,
    undo elements sample_sorted = Returns m1
    ∧ modified_elements m1 = modified_elements sample_manager
    ∧ modified_elements (redo elements m1) = modified_elements sample_sorted
    ∧ history_stack (redo elements m1) = history_stack sample_sorted
    ∧ redo_stack (redo elements m1) = redo_stack sample_sorted
    ∧ original_elements (redo elements m1) = original_elements sample_sorted
    ∧ history_descriptions (redo elements m1)
      = removelast (history_descriptions sample_sorted).
Proof.
  apply (redo_restores_all_but_description elements sample_sorted []
           (modified_elements sample_manager)).
  - by vm_compute.
  - vm_compute. lia.
Defined.

(** X9. The descriptions fall out of step with the undo stack: on a
    freshly loaded document, after one recorded operation, an [undo] and a
    [redo], the next [undo] raises [IndexError], because [redo] put a
    snapshot back on the stack without a description and [undo] pops the
    empty list of descriptions. *)
Theorem undo_after_redo_raises (set_iter : gset string → list string)
    (m : Manager) (op : operation) :
  truthy (modified_elements m) = true →
  history_stack m = [] →
  history_descriptions m = [] →
  records_history set_iter op m = true →
  ∃ m1 m2,
    run_operation set_iter op m = Returns m1
    ∧ undo set_iter m1 = Returns m2
    ∧ modified_elements m2 = modified_elements m
    ∧ history_stack (redo set_iter m2) = [modified_elements m]
    ∧ history_descriptions (redo set_iter m2) = []
    ∧ undo set_iter (redo set_iter m2) = Raises IndexError.
Proof.
  intros Htr Hh Hd Hrec.
  destruct (records_history_pushes set_iter op m Htr Hrec)
    as (m1 & Hrun & [Hh1 Hd1] & _).
  rewrite Hh in Hh1. rewrite Hd in Hd1. simpl in Hh1, Hd1.
  destruct (undo_pop set_iter m1 [] _ Hh1 ltac:(lia))
    as (m2 & Hu & Hh2 & Hm2 & Hr2 & _ & Hd2).
  destruct (redo_pop set_iter m2 _ _ Hr2) as (Hh3 & _).
  assert (history_descriptions m2 = []) as Hd2'.
  { destruct (history_descriptions m2); [done|]. simpl in Hd2. lia. }
  exists m1, m2. split; [done|]. split; [done|]. split; [done|].
  rewrite Hh3, Hh2, Hm2, redo_descriptions. split; [done|]. split; [done|].
  apply undo_raises; [|by rewrite redo_descriptions].
  by rewrite Hh3, Hh2.
Qed.

Lemma undo_after_redo_raises_witness :
  ∃ m1 m2,
    run_operation elements (SortCategory "block.10") sample_manager
    = Returns m1
    ∧ undo elements m1 = Returns m2
    ∧ modified_elements m2 = modified_elements sample_manager
    ∧ history_stack (redo elements m2) = [modified_elements sample_manager]
    ∧ history_descriptions (redo elements m2) = []
    ∧ undo elements (redo elements m2) = Raises IndexError.
Proof.
  apply (undo_after_redo_raises elements sample_manager
           (SortCategory "block.10")); by vm_compute.
Defined.

Section stale_lookup.

Variable set_iter : gset string → list string.
Hypothesis set_iter_perm : ∀ X, set_iter X ≡ₚ elements X.

Lemma add_items_simple_new item category_id m els p :
  modified_elements m = Some els →
  find_property category_id els = Some p →
  item ∉ all_items p →
  let r := add_items_simple set_iter [item] category_id m in
  r.1 = true
  ∧ history_stack r.2 = history_stack m ++ [Some els]
  ∧ 0 < length (history_descriptions r.2)
  ∧ item ∈ _all_item_values r.2.
Proof.
  intros Hm Hfind Hnew.
  assert (truthy (modified_elements m) = true) as Htr.
  { rewrite Hm. by destruct els. }
  unfold add_items_simple, _find_property. rewrite Htr, Hm. simpl.
  rewrite Hfind. simpl. rewrite bool_decide_eq_false_2 by done. simpl.
  set (d := "Added " +:+ _).
  destruct (_save_state_pushes d m Htr) as ([Hh Hd] & Ho & Hm').
  match goal with |- context [rebuild_indices _ ?x] =>
    set (m1 := x);
    destruct (rebuild_indices_fields set_iter m1) as (_ & Em & Eh & _ & Ed)
  end.
  split; [done|].
  split; [rewrite Eh; unfold m1; simpl; by rewrite Hh, Hm|].
  split; [rewrite Ed; unfold m1; simpl; lia|].
  unfold rebuild_indices.
  set (els' := update_property category_id _ _) in *.
  assert (truthy (Some els') = true) as Htr'.
  { apply truthy_length. unfold els'. rewrite update_property_length, Hm', Hm.
    simpl. apply truthy_length. by rewrite <- Hm. }
  destruct (_build_lookup_sets_fresh set_iter
              (_build_suggestion_index set_iter m1) els')
    as (_ & _ & -> & _); [|done|].
  { by destruct (_build_suggestion_index_fields set_iter m1)
      as (_ & -> & _). }
  apply elem_of_all_item_values; [done|].
  destruct (find_property_split _ _ _ Hfind) as (pre & post & -> & Hpre & Hk).
  unfold els'. rewrite Hm', Hm. simpl.
  rewrite (update_property_app _ _ _ _ _ Hpre Hk).
  eexists. split; [apply elem_of_app; right; left|].
  destruct (regenerate_raw_value_groups
              (add_item item (mod_id_of item) p)) as (_ & _ & -> & _).
  apply add_item_extends.
Qed.

Lemma check_item_existence_cached item m :
  item ∈ _all_item_values m →
  (check_item_existence set_iter item m).1 = EXISTS.
Proof.
  intros Hin. unfold check_item_existence.
  assert (bool_decide (_all_item_values m = ∅) = false) as ->.
  { apply bool_decide_eq_false. intros E. rewrite E in Hin.
    by apply elem_of_empty in Hin. }
  cbv zeta. by rewrite bool_decide_eq_true_2.
Qed.

End stale_lookup.

(** X10. [undo] does not refresh the lookup sets of the existence check.
    After an item that occurs nowhere in the document is added to a
    category and the addition is undone, the document is the old one again,
    without the item, and [check_item_existence] still answers [EXISTS]
    for it. *)
Theorem undo_leaves_lookup_sets_stale
    (set_iter : gset string → list string) (m : Manager)
    (els : list Element) (category_id item : string) (p : Property) :
  (∀ X, set_iter X ≡ₚ elements X) →
  modified_elements m = Some els →
  find_property category_id els = Some p →
  ¬ item_in_document els item →
  let r := add_items_to_category set_iter [item] category_id None m in
  r.1 = true
  ∧ ∃ m2,
      undo set_iter r.2 = Returns m2
      ∧ modified_elements m2 = Some els
      ∧ ¬ item_in_document els item
      ∧ (check_item_existence set_iter item m2).1 = EXISTS.
Proof.
  intros Hperm Hm Hfind Hnew. simpl.
  assert (item ∉ all_items p) as Hnp.
  { intros Hin. apply Hnew. exists p. split; [|done].
    destruct (find_property_split _ _ _ Hfind) as (pre & post & -> & _).
    apply elem_of_app. right. left. }
  destruct (add_items_simple_new set_iter Hperm item category_id m els p
              Hm Hfind Hnp) as (Hr & Hh & Hd & Hin).
  split; [done|].
  destruct (undo_pop set_iter _ _ _ Hh Hd) as (m2 & Hu & _ & Hm2 & _).
  exists m2. split; [done|]. split; [done|]. split; [done|].
  apply check_item_existence_cached.
  by destruct (undo_lookup_sets set_iter _ _ Hu) as [-> _].
Qed.

Lemma undo_leaves_lookup_sets_stale_witness :
  let r := add_items_to_category elements ["mod:lamp"] "block.20" None
             sample_manager in
  r.1 = true
  ∧ ∃ m2,
      undo elements r.2 = Returns m2
      ∧ modified_elements m2
        = Some (default [] (modified_elements sample_manager))
      ∧ ¬ item_in_document (default [] (modified_elements sample_manager))
            "mod:lamp"
      ∧ (check_item_existence elements "mod:lamp" m2).1 = EXISTS.
Proof.
  apply (undo_leaves_lookup_sets_stale elements sample_manager
           (default [] (modified_elements sample_manager))
           "block.20" "mod:lamp"
           (new_Property "block.20" "oak_log" (Some "oak_log"))).
  - done.
  - by vm_compute.
  - by vm_compute.
  - intros Hin. apply (elem_of_all_item_values elements) in Hin; [|done].
    by vm_compute in Hin.
Defined.

(** ** Adding items *)

Lemma apply_variations_flag base items st entry :
  let st' := apply_variations base items st entry in
  (st.1.2 = true → st'.1.2 = true) ∧ (st'.1.2 = false → st' = st).
Proof.
  destruct st as [[els added] keys], entry as [category_id variations].
  unfold apply_variations.
  destruct (find_property category_id els) as [target|]; [|done].
  destruct (foldl _ _ _) as [target' [|]]; by simpl.
Qed.

Lemma apply_variations_loop_flag base items entries : ∀ st,
  let st' := foldl (apply_variations base items) st entries in
  (st.1.2 = true → st'.1.2 = true) ∧ (st'.1.2 = false → st' = st).
Proof.
  induction entries as [|entry entries IH]; intros st; cbn [foldl]; [done|].
  destruct (apply_variations_flag base items st entry) as [H1 H2].
  destruct (IH (apply_variations base items st entry)) as [H3 H4].
  split; [auto|]. intros Hf. specialize (H4 Hf). rewrite H4 in Hf |- *.
  auto.
Qed.

Section template_without_effect.

Variable set_iter : gset string → list string.

Lemma add_items_template_false items template_item m :
  truthy (modified_elements m) = true →
  (add_items_template set_iter items template_item m).1 = false →
  (add_items_template set_iter items template_item m).2
  = _save_state_for_undo
      ("Template: Applied '" +:+ template_item +:+ "' to "
       +:+ str_of_nat (length items) +:+ " items") m.
Proof.
  intros Htr. unfold add_items_template. rewrite Htr.
  set (d := "Template: Applied '" +:+ _).
  match goal with |- context [foldl (apply_variations ?b ?i) ?st ?es] =>
    destruct (apply_variations_loop_flag b i es st) as [_ Hflag];
    destruct (foldl (apply_variations b i) st es) as [[els added] keys]
  end.
  destruct added; [done|]. intros _. simpl in *.
  specialize (Hflag eq_refl). injection Hflag as -> ->. simpl.
  unfold set_modified, _save_state_for_undo. rewrite Htr. simpl.
  by destruct (modified_elements m).
Qed.

End template_without_effect.

(** X11. Template mode records history even when it adds nothing. When
    [add_items_to_category] is called with a template on a loaded document
    and returns [False] (no category holds a variant of the template, or
    every generated item is already present), the document is unchanged,
    and yet a snapshot and a description were pushed on the undo stack and
    the redo stack was cleared. *)
Theorem template_add_without_effect_records_history
    (set_iter : gset string → list string) (m : Manager)
    (items : list string) (category_id template_item : string) :
  truthy (modified_elements m) = true →
  template_item ≠ "" →
  let r := add_items_to_category set_iter items category_id
             (Some template_item) m in
  r.1 = false →
  modified_elements r.2 = modified_elements m
  ∧ get_diff r.2 = get_diff m
  ∧ history_stack r.2 = history_stack m ++ [modified_elements m]
  ∧ history_descriptions r.2
    = history_descriptions m
      ++ ["Template: Applied '" +:+ template_item +:+ "' to "
          +:+ str_of_nat (length items) +:+ " items"]
  ∧ redo_stack r.2 = [].
Proof.
  intros Htr Ht. unfold add_items_to_category.
  rewrite bool_decide_eq_false_2 by done. cbv zeta. intros Hr.
  rewrite (add_items_template_false set_iter items template_item m Htr Hr).
  unfold get_diff, _save_state_for_undo. by rewrite Htr.
Qed.

Lemma template_add_without_effect_records_history_witness :
  let r := add_items_to_category elements ["mod:lamp"] ""
             (Some "minecraft:no_such_block") sample_undone in
  modified_elements r.2 = modified_elements sample_undone
  ∧ get_diff r.2 = get_diff sample_undone
  ∧ history_stack r.2
    = history_stack sample_undone ++ [modified_elements sample_undone]
  ∧ history_descriptions r.2
    = history_descriptions sample_undone
      ++ ["Template: Applied '" +:+ "minecraft:no_such_block" +:+ "' to "
          +:+ str_of_nat (length ["mod:lamp"]) +:+ " items"]
  ∧ redo_stack r.2 = [].
Proof.
  apply (template_add_without_effect_records_history elements sample_undone
           ["mod:lamp"] "" "minecraft:no_such_block"); by vm_compute.
Defined.

Lemma add_item_recorded_mono item mod_id p k x :
  recorded (item_groups p) k x →
  recorded (item_groups (add_item item mod_id p)) k x.
Proof.
  intros (vars & Hin & Hx). unfold add_item.
  apply (elem_of_od_setdefault mod_id []) in Hin.
  destruct (decide (item ∈ all_items p)); simpl; [by exists vars|].
  destruct (elem_of_od_alter_append mod_id item _ _ _ Hin)
    as (vars' & Hin' & Hsub).
  exists vars'. auto.
Qed.

Lemma add_item_recorded_new item mod_id p :
  item ∉ all_items p →
  recorded (item_groups (add_item item mod_id p)) mod_id item.
Proof.
  intros Hnew. unfold add_item.
  destruct (decide (item ∈ all_items p)); [done|]. simpl.
  destruct (elem_of_od_alter_new mod_id item
              (od_setdefault mod_id [] (item_groups p))
              (od_mem_setdefault _ _ _)) as (vars & Hin).
  exists (vars ++ [item]). split; [done|].
  apply elem_of_app. right. apply list_elem_of_singleton. done.
Qed.

Lemma add_item_all_items item mod_id p :
  key (add_item item mod_id p) = key p
  ∧ all_items (add_item item mod_id p) = all_items p ∪ {[item]}.
Proof.
  unfold add_item. destruct (decide (item ∈ all_items p)); simpl; [|done].
  by rewrite union_singleton_elem.
Qed.

Lemma add_items_fold items : ∀ t,
  let t' := foldl (λ t item, add_item item (mod_id_of item) t) t items in
  key t' = key t
  ∧ all_items t' = all_items t ∪ list_to_set items
  ∧ (Property_consistent t → Property_consistent t')
  ∧ (∀ k x, recorded (item_groups t) k x → recorded (item_groups t') k x)
  ∧ (∀ item, item ∈ items → item ∉ all_items t →
       recorded (item_groups t') (mod_id_of item) item).
Proof.
  induction items as [|i items IH]; intros t; cbn [foldl].
  - simpl. rewrite (right_id_L ∅ (∪)).
    split; [done|]. split; [done|]. split; [done|]. split; [done|].
    by intros item ?%elem_of_nil.
  - destruct (IH (add_item i (mod_id_of i) t)) as (Hk & Ha & Hc & Hm & Hn).
    destruct (add_item_all_items i (mod_id_of i) t) as [Hk1 Ha1].
    split; [by rewrite Hk|]. split.
    { rewrite Ha, Ha1. simpl. by rewrite (assoc_L (∪)). }
    split; [intros Hp; by apply Hc, add_item_consistent|].
    split; [intros k x Hr; by apply Hm, add_item_recorded_mono|].
    intros item Hin Hnew. destruct (decide (item = i)) as [->|Hne].
    + by apply Hm, add_item_recorded_new.
    + apply elem_of_cons in Hin as [?|Hin]; [done|].
      apply Hn; [done|]. rewrite Ha1, elem_of_union, elem_of_singleton.
      tauto.
Qed.

Section simple_add.

Variable set_iter : gset string → list string.

Lemma rebuild_indices_sync m els :
  modified_elements m = Some els → truthy (Some els) = true →
  lookup_sets_fresh set_iter (rebuild_indices set_iter m) els
  ∧ index_in_sync set_iter (rebuild_indices set_iter m) els.
Proof.
  intros Hm Htr. unfold rebuild_indices.
  assert (modified_elements (_build_suggestion_index set_iter m) = Some els)
    as Hm'.
  { by destruct (_build_suggestion_index_fields set_iter m) as (_ & -> & _). }
  split; [by apply _build_lookup_sets_fresh|].
  unfold index_in_sync, _build_lookup_sets. rewrite Hm', Htr.
  cbn [modified_elements _suggestion_index _family_index default
       from_option id].
  split; [done|]. split; [done|].
  unfold _build_suggestion_index. rewrite Hm, Htr.
  cbn [default from_option id]. by destruct (foldl _ _ _).
Qed.

Lemma add_items_simple_true items category_id m els p :
  modified_elements m = Some els →
  find_property category_id els = Some p →
  ¬ Forall (λ item, item ∈ all_items p) items →
  let r := add_items_simple set_iter items category_id m in
  let p' :=
    regenerate_raw_value
      (foldl (λ t item, add_item item (mod_id_of item) t) p items) in
  r.1 = true
  ∧ ∃ pre post,
      els = pre ++ EProperty p :: post
      ∧ find_property category_id pre = None
      ∧ modified_elements r.2 = Some (pre ++ EProperty p' :: post)
      ∧ history_stack r.2 = history_stack m ++ [Some els]
      ∧ redo_stack r.2 = []
      ∧ original_elements r.2 = original_elements m
      ∧ lookup_sets_fresh set_iter r.2 (pre ++ EProperty p' :: post)
      ∧ index_in_sync set_iter r.2 (pre ++ EProperty p' :: post).
Proof.
  intros Hm Hfind Hnot.
  assert (truthy (modified_elements m) = true) as Htr.
  { rewrite Hm. by destruct els. }
  unfold add_items_simple, _find_property. rewrite Htr, Hm. simpl.
  rewrite Hfind.
  assert (forallb (λ item, bool_decide (item ∈ all_items p)) items = false)
    as ->.
  { apply not_true_is_false. intros Hall. apply Hnot.
    apply Forall_forall. intros x Hx.
    rewrite forallb_forall in Hall. apply list_elem_of_In in Hx.
    specialize (Hall x Hx). by apply bool_decide_eq_true in Hall. }
  simpl. split; [done|].
  set (d := "Added " +:+ _).
  destruct (_save_state_pushes d m Htr) as ([Hh Hd] & Ho & Hm').
  destruct (find_property_split _ _ _ Hfind) as (pre & post & -> & Hpre & Hk).
  exists pre, post. split; [done|]. split; [done|].
  rewrite Hm', Hm. simpl. rewrite (update_property_app _ _ _ _ _ Hpre Hk).
  match goal with |- context [rebuild_indices _ ?x] =>
    set (m1 := x);
    destruct (rebuild_indices_fields set_iter m1) as (Eo & Em & Eh & Er & _)
  end.
  rewrite Em, Eh, Er, Eo. unfold m1. simpl.
  rewrite Hh, Hm, Ho, (_save_state_redo d m Htr).
  repeat (split; [done|]).
  apply rebuild_indices_sync; [done|]. apply truthy_length.
  rewrite length_app. simpl. lia.
Qed.

End simple_add.

(** X12. Simple mode, when at least one of the items is new to the
    category: the call returns [True]; the category, and only it, is
    replaced in place; its items are the old ones and all the requested
    ones; every item that was new is filed under the text before its first
    colon, or under [minecraft] if it has no colon; a consistent category
    stays consistent; the old document is pushed on the undo stack, the
    redo stack is cleared, and the lookup sets and suggestion indices are
    rebuilt from the new document. *)
Theorem simple_add_adds_exactly (set_iter : gset string → list string)
    (m : Manager) (els : list Element) (category_id : string)
    (items : list string) (p : Property) :
  modified_elements m = Some els →
  find_property category_id els = Some p →
  ¬ Forall (λ item, item ∈ all_items p) items →
  let r := add_items_to_category set_iter items category_id None m in
  r.1 = true
  ∧ ∃ pre post p',
      els = pre ++ EProperty p :: post
      ∧ modified_elements r.2 = Some (pre ++ EProperty p' :: post)
      ∧ key p' = key p
      ∧ all_items p' = all_items p ∪ list_to_set items
      ∧ (∀ item, item ∈ items → item ∉ all_items p →
           recorded (item_groups p') (mod_id_of item) item)
      ∧ (Property_consistent p → Property_consistent p')
      ∧ history_stack r.2 = history_stack m ++ [Some els]
      ∧ redo_stack r.2 = []
      ∧ original_elements r.2 = original_elements m
      ∧ lookup_sets_fresh set_iter r.2 (pre ++ EProperty p' :: post)
      ∧ index_in_sync set_iter r.2 (pre ++ EProperty p' :: post).
Proof.
  intros Hm Hfind Hnot.
  destruct (add_items_simple_true set_iter items category_id m els p
              Hm Hfind Hnot)
    as (Hr & pre & post & Hels & _ & Hm' & Hh & Hrd & Ho & Hfresh & Hsync).
  split; [done|]. exists pre, post. eexists.
  split; [done|]. split; [exact Hm'|].
  destruct (add_items_fold items p) as (Hk & Ha & Hc & _ & Hn).
  destruct (regenerate_raw_value_groups
              (foldl (λ t item, add_item item (mod_id_of item) t) p items))
    as (Ek & Eg & Ea & _).
  split; [by rewrite Ek|]. split; [by rewrite Ea|].
  split; [intros item Hin Hnew; rewrite Eg; by apply Hn|].
  split; [intros Hp; by apply regenerate_consistent, Hc|].
  done.
Qed.

Lemma simple_add_adds_exactly_witness :
  let r := add_items_to_category elements ["oak_log"; "mod:lamp"] "block.20"
             None sample_manager in
  r.1 = true
  ∧ ∃ pre post p',
      default [] (modified_elements sample_manager)
      = pre ++ EProperty (new_Property "block.20" "oak_log" (Some "oak_log"))
          :: post
      ∧ modified_elements r.2 = Some (pre ++ EProperty p' :: post)
      ∧ key p' = key (new_Property "block.20" "oak_log" (Some "oak_log"))
      ∧ all_items p'
        = all_items (new_Property "block.20" "oak_log" (Some "oak_log"))
          ∪ list_to_set ["oak_log"; "mod:lamp"]
      ∧ (∀ item, item ∈ ["oak_log"; "mod:lamp"] →
           item ∉ all_items
                    (new_Property "block.20" "oak_log" (Some "oak_log")) →
           recorded (item_groups p') (mod_id_of item) item)
      ∧ (Property_consistent
           (new_Property "block.20" "oak_log" (Some "oak_log")) →
         Property_consistent p')
      ∧ history_stack r.2
        = history_stack sample_manager
          ++ [Some (default [] (modified_elements sample_manager))]
      ∧ redo_stack r.2 = []
      ∧ original_elements r.2 = original_elements sample_manager
      ∧ lookup_sets_fresh elements r.2 (pre ++ EProperty p' :: post)
      ∧ index_in_sync elements r.2 (pre ++ EProperty p' :: post).
Proof.
  apply (simple_add_adds_exactly elements sample_manager
           (default [] (modified_elements sample_manager)) "block.20"
           ["oak_log"; "mod:lamp"]
           (new_Property "block.20" "oak_log" (Some "oak_log"))).
  - by vm_compute.
  - by vm_compute.
  - intros Hall. apply Forall_cons in Hall as [_ Hall].
    apply Forall_cons in Hall as [Hin _]. by vm_compute in Hin.
Defined.

(** ** Creating a category *)

Lemma list_insert_at_app {A} (pre post : list A) x :
  list_insert_at (length pre) x (pre ++ post) = pre ++ x :: post.
Proof.
  unfold list_insert_at. by rewrite take_app_length, drop_app_length.
Qed.

Lemma create_insert pre post x :
  (let els1 := list_insert_at (length pre) x (pre ++ post) in
   if bool_decide (length pre < length els1 - 1)
   then list_insert_at (length pre + 1) EmptyLine els1
   else els1)
  = pre ++ x :: after_new_category post.
Proof.
  cbv zeta. rewrite list_insert_at_app, length_app. simpl.
  destruct post as [|el post]; simpl.
  - rewrite bool_decide_eq_false_2 by lia. done.
  - rewrite bool_decide_eq_true_2 by lia.
    transitivity (list_insert_at (length (pre ++ [x])) EmptyLine
                    ((pre ++ [x]) ++ el :: post)).
    { f_equal; [rewrite length_app; simpl; lia|].
      by rewrite <- (assoc_L (++)). }
    rewrite list_insert_at_app. by rewrite <- (assoc_L (++)).
Qed.

Lemma category_numbers_cons el l :
  category_numbers (el :: l)
  = match el with
    | EProperty p => option_list (numeric_id (key p))
    | _ => []
    end ++ category_numbers l.
Proof.
  unfold category_numbers. simpl.
  destruct el as [| | |p]; try done. by destruct (numeric_id (key p)).
Qed.

Lemma category_numbers_app a b :
  category_numbers (a ++ b) = category_numbers a ++ category_numbers b.
Proof. apply omap_app. Qed.

Lemma insert_scan_split n els : ∀ i,
  match insert_scan n i els with
  | Some pos =>
      ∃ pre post,
        els = pre ++ post ∧ pos = i + length pre
        ∧ Forall (λ c, (c ≤ n)%Z) (category_numbers pre)
        ∧ ∃ c rest, category_numbers post = c :: rest ∧ (n < c)%Z
  | None => Forall (λ c, (c ≤ n)%Z) (category_numbers els)
  end.
Proof.
  induction els as [|el els IH]; intros i; [by constructor|].
  assert (Forall (λ c, (c ≤ n)%Z) (category_numbers [el]) →
    match insert_scan n (S i) els with
    | Some pos =>
        ∃ pre post,
          el :: els = pre ++ post ∧ pos = i + length pre
          ∧ Forall (λ c, (c ≤ n)%Z) (category_numbers pre)
          ∧ ∃ c rest, category_numbers post = c :: rest ∧ (n < c)%Z
    | None => Forall (λ c, (c ≤ n)%Z) (category_numbers (el :: els))
    end) as Hskip.
  { intros Hnums. specialize (IH (S i)).
    destruct (insert_scan n (S i) els) as [pos|].
    - destruct IH as (pre & post & -> & -> & Hpre & Hpost).
      exists (el :: pre), post. split; [done|]. split; [simpl; lia|].
      split; [|done].
      change (el :: pre) with ([el] ++ pre).
      rewrite category_numbers_app. by apply Forall_app.
    - change (el :: els) with ([el] ++ els).
      rewrite category_numbers_app. by apply Forall_app. }
  destruct el as [content| |content|p]; cbn [insert_scan];
    try (apply Hskip; by constructor).
  destruct (numeric_id (key p)) as [c|] eqn:Hc.
  - case_bool_decide as Hlt.
    + exists [], (EProperty p :: els). split; [done|]. split; [simpl; lia|].
      split; [by constructor|]. exists c, (category_numbers els).
      split; [|done]. by rewrite category_numbers_cons, Hc.
    + apply Hskip. rewrite category_numbers_cons, Hc. simpl.
      constructor; [lia|by constructor].
  - apply Hskip. rewrite category_numbers_cons, Hc. by constructor.
Qed.

Lemma find_property_app_general k a b :
  find_property k (a ++ b)
  = match find_property k a with
    | Some p => Some p
    | None => find_property k b
    end.
Proof.
  induction a as [|[| | |p] a IH]; simpl; try done.
  by destruct (decide (key p = k)).
Qed.

Lemma new_Property_empty k :
  new_Property k "" None = mkProperty k [] ∅ None false None None.
Proof. done. Qed.

Section creating.

Variable set_iter : gset string → list string.

Lemma create_new_category_result category_id m els :
  modified_elements m = Some els → truthy (Some els) = true →
  find_property category_id els = None →
  ∃ pre post,
    els = pre ++ post
    ∧ create_new_category set_iter category_id m
      = Returns
          (_build_suggestion_index set_iter
             (set_modified
                (Some (pre ++ EProperty (new_Property category_id "" None)
                         :: after_new_category post))
                (_save_state_for_undo
                   ("Created category '" +:+ category_id +:+ "'") m)))
    ∧ match numeric_id category_id with
      | Some n =>
          Forall (λ c, (c ≤ n)%Z) (category_numbers pre)
          ∧ (post = []
             ∨ ∃ c rest, category_numbers post = c :: rest ∧ (n < c)%Z)
      | None => post = []
      end.
Proof.
  intros Hm Htr Hfind. unfold create_new_category, _find_property.
  rewrite Hm, Htr. cbn [default from_option id]. rewrite Hfind.
  rewrite _save_state_for_undo_modified, Hm.
  assert (∀ pre post, els = pre ++ post →
    (let els0 :=
       list_insert_at (length pre) (EProperty (new_Property category_id "" None))
         els in
     if bool_decide (length pre < length els0 - 1)
     then list_insert_at (length pre + 1) EmptyLine els0 else els0)
    = pre ++ EProperty (new_Property category_id "" None)
        :: after_new_category post) as Hins.
  { intros pre post ->. apply create_insert. }
  assert (∃ pre post, els = pre ++ post ∧ post = []
                      ∧ length els = length pre) as Hend.
  { exists els, []. by rewrite app_nil_r. }
  destruct (numeric_id category_id) as [n|] eqn:Hn.
  - pose proof (insert_scan_split n els 0) as Hscan.
    destruct (insert_scan n 0 els) as [pos|]; cbn [default from_option id].
    + destruct Hscan as (pre & post & Hels & -> & Hpre & Hpost).
      exists pre, post. split; [done|]. simpl.
      rewrite <- (Hins pre post Hels). split; [done|]. split; [done|].
      by right.
    + destruct Hend as (pre & post & Hels & -> & ->).
      exists pre, []. split; [done|].
      rewrite <- (Hins pre [] Hels). split; [done|].
      rewrite app_nil_r in Hels. subst pre. split; [done|]. by left.
  - destruct Hend as (pre & post & Hels & -> & ->).
    exists pre, []. split; [done|]. by rewrite <- (Hins pre [] Hels).
Qed.

Lemma _build_suggestion_index_sync m els :
  modified_elements m = Some els → truthy (Some els) = true →
  index_in_sync set_iter (_build_suggestion_index set_iter m) els.
Proof.
  intros Hm Htr. unfold index_in_sync, _build_suggestion_index.
  rewrite Hm, Htr. cbn [default from_option id].
  by destruct (foldl _ _ _).
Qed.

Lemma find_property_after k post :
  find_property k (after_new_category post) = find_property k post.
Proof. by destruct post. Qed.

Lemma item_in_document_created els pre post category_id item :
  els = pre ++ post →
  item_in_document
    (pre ++ EProperty (new_Property category_id "" None)
       :: after_new_category post) item
  ↔ item_in_document els item.
Proof.
  intros ->. unfold item_in_document. split; intros (q & Hq & Hin);
    exists q; (split; [|done]).
  - apply elem_of_app in Hq as [Hq|Hq]; [apply elem_of_app; by left|].
    apply elem_of_cons in Hq as [[= ->]|Hq].
    { rewrite new_Property_empty in Hin. by apply elem_of_empty in Hin. }
    apply elem_of_app. right. destruct post; [done|].
    by apply elem_of_cons in Hq as [|].
  - apply elem_of_app in Hq as [Hq|Hq]; [apply elem_of_app; by left|].
    apply elem_of_app. right. right. destruct post; [done|]. by right.
Qed.

End creating.

(** X13. [create_new_category] for a key that the loaded document does not
    hold yet: the call returns; the new, empty category is inserted at one
    place of the document, followed by a blank line unless it is the last
    element, and nothing else changes; it serializes as [key=]; it is found
    under its key and has no items; every other key is found as before; the
    old document is pushed on the undo stack; the suggestion indices are
    those of the new document, and lookup sets that were exact stay exact
    although the call does not rebuild them; calling it again changes
    nothing. *)
Theorem create_new_category_inserts (set_iter : gset string → list string)
    (m : Manager) (els : list Element) (category_id : string) :
  (∀ X, set_iter X ≡ₚ elements X) →
  modified_elements m = Some els →
  truthy (Some els) = true →
  find_property category_id els = None →
  ∃ m' pre post,
    create_new_category set_iter category_id m = Returns m'
    ∧ els = pre ++ post
    ∧ modified_elements m'
      = Some (pre ++ EProperty (new_Property category_id "" None)
                :: after_new_category post)
    ∧ to_string (EProperty (new_Property category_id "" None))
      = category_id +:+ "="
    ∧ _find_property category_id m' = Some (new_Property category_id "" None)
    ∧ get_items_in_category category_id m' = []
    ∧ (∀ k, k ≠ category_id → _find_property k m' = _find_property k m)
    ∧ history_stack m' = history_stack m ++ [Some els]
    ∧ index_in_sync set_iter m'
        (pre ++ EProperty (new_Property category_id "" None)
           :: after_new_category post)
    ∧ (lookup_sets_fresh set_iter m els →
       lookup_sets_fresh set_iter m'
         (pre ++ EProperty (new_Property category_id "" None)
            :: after_new_category post))
    ∧ create_new_category set_iter category_id m' = Returns m'.
Proof.
  intros Hperm Hm Htr Hfind.
  destruct (create_new_category_result set_iter category_id m els Hm Htr
              Hfind) as (pre & post & Hels & Hcreate & _).
  set (new := new_Property category_id "" None) in *.
  set (els' := pre ++ EProperty new :: after_new_category post) in *.
  set (d := "Created category '" +:+ category_id +:+ "'") in *.
  set (m1 := set_modified (Some els') (_save_state_for_undo d m)) in *.
  assert (truthy (modified_elements m) = true) as Htr0 by by rewrite Hm.
  assert (truthy (Some els') = true) as Htr'.
  { apply truthy_length. unfold els'. rewrite length_app. simpl. lia. }
  destruct (_build_suggestion_index_fields set_iter m1)
    as (_ & Em & Eh & _ & _). simpl in Em, Eh.
  assert (∀ k, _find_property k (_build_suggestion_index set_iter m1)
               = find_property k els') as Hfind'.
  { intros k. unfold _find_property. by rewrite Em, Htr'. }
  assert (find_property category_id pre = None) as Hpre.
  { rewrite Hels, find_property_app_general in Hfind.
    by destruct (find_property category_id pre). }
  assert (find_property category_id els' = Some new) as Hnew.
  { unfold els'. rewrite find_property_app_general, Hpre. simpl.
    by rewrite decide_True. }
  exists (_build_suggestion_index set_iter m1), pre, post.
  split; [done|]. split; [done|]. split; [done|]. split; [done|].
  split; [by rewrite Hfind'|].
  split; [unfold get_items_in_category; by rewrite Hfind', Hnew|].
  split.
  { intros k Hk. rewrite Hfind'. unfold _find_property. rewrite Htr0, Hm.
    simpl. unfold els'. rewrite Hels, !find_property_app_general.
    destruct (find_property k pre); [done|]. simpl.
    rewrite decide_False by done. apply find_property_after. }
  split.
  { rewrite Eh. destruct (_save_state_pushes d m Htr0) as ([-> _] & _).
    by rewrite Hm. }
  split; [by apply _build_suggestion_index_sync|].
  split.
  { intros (_ & _ & Hv & Hb). split; [done|]. split; [done|].
    unfold _build_suggestion_index.
    destruct (if truthy _ then _ else _) as [idx fam]. simpl.
    unfold _save_state_for_undo. rewrite Htr0. simpl.
    split; [|done]. rewrite Hv. apply set_eq. intros x.
    rewrite !elem_of_all_item_values by done.
    symmetry. by apply item_in_document_created. }
  unfold create_new_category. by rewrite Hfind', Hnew.
Qed.

Lemma create_new_category_inserts_witness :
  ∃ m' pre post,
    create_new_category elements "block.5" sample_manager = Returns m'
    ∧ default [] (modified_elements sample_manager) = pre ++ post
    ∧ modified_elements m'
      = Some (pre ++ EProperty (new_Property "block.5" "" None)
                :: after_new_category post)
    ∧ to_string (EProperty (new_Property "block.5" "" None))
      = "block.5" +:+ "="
    ∧ _find_property "block.5" m' = Some (new_Property "block.5" "" None)
    ∧ get_items_in_category "block.5" m' = []
    ∧ (∀ k, k ≠ "block.5" →
         _find_property k m' = _find_property k sample_manager)
    ∧ history_stack m'
      = history_stack sample_manager
        ++ [Some (default [] (modified_elements sample_manager))]
    ∧ index_in_sync elements m'
        (pre ++ EProperty (new_Property "block.5" "" None)
           :: after_new_category post)
    ∧ (lookup_sets_fresh elements sample_manager
         (default [] (modified_elements sample_manager)) →
       lookup_sets_fresh elements m'
         (pre ++ EProperty (new_Property "block.5" "" None)
            :: after_new_category post))
    ∧ create_new_category elements "block.5" m' = Returns m'.
Proof.
  apply (create_new_category_inserts elements sample_manager
           (default [] (modified_elements sample_manager)) "block.5");
    by vm_compute.
Defined.

(** X14. [create_new_category] keeps the categories in numerical order: if
    the numeric ids of the document's categories ascend, they still ascend
    after a category with a new key was created, and the id of the new key,
    if it is numeric, is among them; the new category stands after every
    category with a smaller or equal id and before the first one with a
    larger id. *)
Theorem create_new_category_keeps_order
    (set_iter : gset string → list string) (m : Manager)
    (els : list Element) (category_id : string) :
  modified_elements m = Some els →
  truthy (Some els) = true →
  find_property category_id els = None →
  Sorted Z.le (category_numbers els) →
  ∃ m' pre post,
    create_new_category set_iter category_id m = Returns m'
    ∧ els = pre ++ post
    ∧ modified_elements m'
      = Some (pre ++ EProperty (new_Property category_id "" None)
                :: after_new_category post)
    ∧ Sorted Z.le
        (category_numbers
           (pre ++ EProperty (new_Property category_id "" None)
              :: after_new_category post))
    ∧ (∀ n, numeric_id category_id = Some n →
         Forall (λ c, (c ≤ n)%Z) (category_numbers pre)
         ∧ Forall (λ c, (n < c)%Z) (category_numbers post)).
Proof.
  intros Hm Htr Hfind Hsorted.
  destruct (create_new_category_result set_iter category_id m els Hm Htr
              Hfind) as (pre & post & Hels & Hcreate & Hnum).
  eexists _, pre, post. split; [exact Hcreate|]. split; [done|].
  split.
  { by destruct (_build_suggestion_index_fields set_iter
       (set_modified
          (Some (pre ++ EProperty (new_Property category_id "" None)
                   :: after_new_category post))
          (_save_state_for_undo
             ("Created category '" +:+ category_id +:+ "'") m)))
      as (_ & -> & _). }
  apply Sorted_StronglySorted in Hsorted; [|apply _].
  rewrite Hels, category_numbers_app in Hsorted.
  apply StronglySorted_app in Hsorted as (Hcross & Hspre & Hspost).
  assert (category_numbers (after_new_category post) = category_numbers post)
    as Hafter by by destruct post.
  rewrite category_numbers_app, category_numbers_cons, Hafter.
  rewrite new_Property_empty. simpl key.
  destruct (numeric_id category_id) as [n|]; simpl.
  - destruct Hnum as [Hle Hgt].
    assert (Forall (λ c, (n < c)%Z) (category_numbers post)) as Hpost.
    { destruct Hgt as [->|(c & rest & Hc & Hlt)]; [by constructor|].
      rewrite Hc in *. apply StronglySorted_cons in Hspost as [Hall _].
      constructor; [done|]. eapply Forall_impl; [exact Hall|].
      intros x ?. simpl in *. lia. }
    split; [|by intros ? [= <-]].
    apply StronglySorted_Sorted, StronglySorted_app_2; [|done|].
    + intros x1 x2 Hx1 [->|Hx2]%elem_of_cons.
      * by apply (proj1 (Forall_forall _ _) Hle).
      * by apply Hcross.
    + apply StronglySorted_cons. split; [|done].
      eapply Forall_impl; [exact Hpost|]. intros x ?. simpl in *. lia.
  - split; [|done]. subst post. simpl. rewrite app_nil_r.
    by apply StronglySorted_Sorted.
Qed.

Lemma create_new_category_keeps_order_witness :
  ∃ m' pre post,
    create_new_category elements "block.5" sample_manager = Returns m'
    ∧ default [] (modified_elements sample_manager) = pre ++ post
    ∧ modified_elements m'
      = Some (pre ++ EProperty (new_Property "block.5" "" None)
                :: after_new_category post)
    ∧ Sorted Z.le
        (category_numbers
           (pre ++ EProperty (new_Property "block.5" "" None)
              :: after_new_category post))
    ∧ (∀ n, numeric_id "block.5" = Some n →
         Forall (λ c, (c ≤ n)%Z) (category_numbers pre)
         ∧ Forall (λ c, (n < c)%Z) (category_numbers post)).
Proof.
  apply (create_new_category_keeps_order elements sample_manager
           (default [] (modified_elements sample_manager)) "block.5");
    try by vm_compute.
  assert (category_numbers (default [] (modified_elements sample_manager))
          = [3; 10; 20]%Z) as -> by by vm_compute.
  repeat constructor; lia.
Defined.

(** ** Navigation *)

Lemma count_char_app c a b :
  count_char c (a +:+ b) = count_char c a + count_char c b.
Proof.
  induction a as [|d a IH]; [by rewrite string_app_nil_l|].
  rewrite string_app_cons. simpl. rewrite IH. lia.
Qed.

Lemma serialize_app a b : serialize (a ++ b) = serialize a +:+ serialize b.
Proof.
  induction a as [|el a IH]; [by rewrite string_app_nil_l|].
  simpl. by rewrite IH, !string_app_assoc.
Qed.

Lemma find_index_spec k els : ∀ i pos,
  find_index k i els = Some pos →
  ∃ j p,
    pos = i + j ∧ els !! j = Some (EProperty p) ∧ key p = k
    ∧ find_property k els = Some p.
Proof.
  induction els as [|el els IH]; intros i pos; [done|].
  assert (find_index k (S i) els = Some pos →
          find_property k (el :: els) = find_property k els →
          ∃ j p, pos = i + j ∧ (el :: els) !! j = Some (EProperty p)
                 ∧ key p = k ∧ find_property k (el :: els) = Some p) as Hskip.
  { intros H Hf. destruct (IH _ _ H) as (j & p & -> & Hj & Hk & Hp).
    exists (S j), p. split; [lia|]. split; [done|]. split; [done|].
    by rewrite Hf. }
  destruct el as [| | |q]; simpl; try (intros H; by apply Hskip).
  destruct (decide (key q = k)) as [Hq|Hq].
  - intros [= <-]. exists 0, q. split; [lia|]. done.
  - intros H. apply Hskip in H; [|simpl; by rewrite decide_False].
    simpl in H. by rewrite decide_False in H.
Qed.

Lemma start_line_scan_spec els : ∀ i start j,
  j < length els →
  start_line_scan (i + Z.of_nat j) i start els
  = Some (start + count_char NL (serialize (take j els))).
Proof.
  induction els as [|el els IH]; intros i start j Hj; simpl in Hj; [lia|].
  simpl. destruct j as [|j].
  - rewrite bool_decide_eq_true_2 by lia. simpl. f_equal. lia.
  - rewrite bool_decide_eq_false_2 by lia.
    replace (i + Z.of_nat (S j))%Z with ((i + 1) + Z.of_nat j)%Z by lia.
    rewrite IH by lia. f_equal. simpl.
    rewrite !count_char_app. simpl. lia.
Qed.

Lemma start_line_scan_before els : ∀ i start idx,
  (idx < i)%Z → start_line_scan idx i start els = None.
Proof.
  induction els as [|el els IH]; intros i start idx Hlt; [done|].
  simpl. rewrite bool_decide_eq_false_2 by lia. apply IH. lia.
Qed.

(** X15. Jumping to a category. When [find_element_index_by_id] finds a
    key, the element at the index it returns is the first category with
    that key, the one [_find_property] returns; and the line number that
    [get_block_start_line] computes for that index is one more than the
    number of line feeds in the text that [get_diff] shows before the
    category, so it is the line on which the category starts in the
    'after' view, also when categories above it span several lines. *)
Theorem jump_to_category_line (m : Manager) (element_id : string) (i : nat) :
  find_element_index_by_id element_id m = Some i →
  ∃ els p,
    modified_elements m = Some els
    ∧ els !! i = Some (EProperty p)
    ∧ key p = element_id
    ∧ _find_property element_id m = Some p
    ∧ serialize els
      = serialize (take i els) +:+ Property_to_string p +:+ nl
        +:+ serialize (drop (S i) els)
    ∧ (get_diff m).2 = serialize els
    ∧ get_block_start_line (Z.of_nat i) m
      = Some (1 + count_char NL (serialize (take i els))).
Proof.
  unfold find_element_index_by_id.
  destruct (modified_elements m) as [els|] eqn:Hm; [|done]. intros Hi.
  destruct (find_index_spec _ _ _ _ Hi) as (j & p & -> & Hj & Hk & Hp).
  simpl in *. exists els, p.
  assert (truthy (Some els) = true) as Htr by by destruct els.
  split; [done|]. split; [done|]. split; [done|].
  split; [unfold _find_property; by rewrite Hm, Htr|].
  split.
  { rewrite <- (take_drop_middle els j _ Hj) at 1.
    by rewrite serialize_app. }
  split; [unfold get_diff, text_of; by rewrite Hm, Htr|].
  unfold get_block_start_line. rewrite Hm.
  apply lookup_lt_Some in Hj.
  rewrite bool_decide_eq_false_2 by lia.
  apply (start_line_scan_spec els 0 1 j Hj).
Qed.

Lemma jump_to_category_line_witness :
  ∃ els p,
    modified_elements sample_manager = Some els
    ∧ els !! 3 = Some (EProperty p)
    ∧ key p = "block.20"
    ∧ _find_property "block.20" sample_manager = Some p
    ∧ serialize els
      = serialize (take 3 els) +:+ Property_to_string p +:+ nl
        +:+ serialize (drop 4 els)
    ∧ (get_diff sample_manager).2 = serialize els
    ∧ get_block_start_line (Z.of_nat 3) sample_manager
      = Some (1 + count_char NL (serialize (take 3 els))).
Proof.
  apply (jump_to_category_line sample_manager "block.20" 3).
  by vm_compute.
Defined.

(** X16. [get_block_start_line] answers exactly for the indices of the
    live document: it returns a line number, at least 1, for every index
    from 0 up to the last element, and [None] for a negative index, for an
    index past the end, and when no document is loaded; the first element
    starts on line 1. *)
Theorem get_block_start_line_range (m : Manager) (element_index : Z) :
  (is_Some (get_block_start_line element_index m)
   ↔ ∃ els, modified_elements m = Some els
            ∧ (0 ≤ element_index < Z.of_nat (length els))%Z)
  ∧ (∀ line, get_block_start_line element_index m = Some line → 1 ≤ line)
  ∧ (∀ line, get_block_start_line 0 m = Some line → line = 1).
Proof.
  unfold get_block_start_line.
  destruct (modified_elements m) as [els|];
    [|split; [split; [by intros [? [=]]|by intros (? & [=] & _)]|done]].
  assert (∀ idx, (0 ≤ idx < Z.of_nat (length els))%Z →
    start_line_scan idx 0 1 els
    = Some (1 + count_char NL (serialize (take (Z.to_nat idx) els))))
    as Hin.
  { intros idx Hidx.
    rewrite <- (start_line_scan_spec els 0 1 (Z.to_nat idx)) by lia.
    f_equal. lia. }
  split; [|split].
  - case_bool_decide as Hge.
    + split; [by intros [? [=]]|]. intros (? & [= <-] & ?). lia.
    + destruct (decide (element_index < 0)%Z) as [Hneg|Hpos].
      * rewrite start_line_scan_before by done.
        split; [by intros [? [=]]|]. intros (? & [= <-] & ?). lia.
      * rewrite Hin by lia. split; [|by eauto].
        intros _. exists els. split; [done|]. lia.
  - intros line. case_bool_decide as Hge; [done|].
    destruct (decide (element_index < 0)%Z) as [Hneg|Hpos].
    + by rewrite start_line_scan_before.
    + rewrite Hin by lia. intros [= <-]. lia.
  - intros line. case_bool_decide as Hge; [done|].
    rewrite Hin by lia. by intros [= <-].
Qed.

(** ** The frame of a template addition *)

Lemma touched_refl K els : touched_only_in K els els.
Proof. apply Forall2_same_length_lookup_2; [done|]. intros; simplify_eq. by left. Qed.

Lemma touched_trans K a b c :
  touched_only_in K a b → touched_only_in K b c → touched_only_in K a c.
Proof.
  unfold touched_only_in. intros Hab. revert c.
  induction Hab as [|x y a b Hxy Hab IH]; intros c Hbc; [by inv Hbc|].
  inv Hbc. constructor; [|by apply IH].
  destruct Hxy as [->|(q & q' & -> & -> & HK & He)]; [done|].
  match goal with H : _ ∨ _ |- _ => destruct H as [<-|(r & r' & Hr & -> & HK' & He')] end.
  - right. by exists q, q'.
  - injection Hr as <-. right. exists q, r'.
    split; [done|]. split; [done|]. split; [done|].
    by eapply extends_trans.
Qed.

Lemma update_property_touched (K : string → Prop) c f els target :
  find_property c els = Some target →
  K c → extends target (f target) →
  touched_only_in K els (update_property c f els).
Proof.
  intros Hfind HK He.
  destruct (find_property_split _ _ _ Hfind) as (pre & post & -> & Hpre & Hk).
  rewrite (update_property_app _ _ _ _ _ Hpre Hk).
  apply Forall2_app; [apply touched_refl|].
  constructor; [|apply touched_refl].
  right. exists target, (f target). by rewrite Hk.
Qed.

Section template_frame.

Variable set_iter : gset string → list string.
Hypothesis set_iter_perm : ∀ X, set_iter X ≡ₚ elements X.

Lemma apply_variations_touched (K : string → Prop) base items st entry :
  K entry.1 → Forall K st.2 →
  let st' := apply_variations base items st entry in
  touched_only_in K st.1.1 st'.1.1 ∧ Forall K st'.2.
Proof.
  destruct st as [[els added] keys], entry as [c variations]. simpl.
  intros HK Hkeys. unfold apply_variations.
  destruct (find_property c els) as [target|] eqn:Hfind;
    [|split; [apply touched_refl|done]].
  destruct (add_variations_extends base items variations target false)
    as (He & _).
  destruct (foldl (add_variation base items) (target, false) variations)
    as [target' [|]]; simpl in *; [|split; [apply touched_refl|done]].
  split; [by apply (update_property_touched K c _ els target)|].
  case_bool_decide; [done|]. apply Forall_app. split; [done|].
  by constructor.
Qed.

Lemma apply_variations_loop_touched (K : string → Prop) base items entries :
  ∀ st,
  Forall (λ entry, K entry.1) entries → Forall K st.2 →
  let st' := foldl (apply_variations base items) st entries in
  touched_only_in K st.1.1 st'.1.1 ∧ Forall K st'.2.
Proof.
  induction entries as [|entry entries IH]; intros st Hent Hkeys;
    cbn [foldl].
  - split; [apply touched_refl|done].
  - apply Forall_cons in Hent as [HK Hent].
    destruct (apply_variations_touched K base items st entry HK Hkeys)
      as [Ht1 Hk1].
    destruct (IH _ Hent Hk1) as [Ht2 Hk2].
    split; [by eapply touched_trans|done].
Qed.

Lemma regenerate_loop_touched (K : string → Prop) keys : ∀ els,
  Forall K keys →
  touched_only_in K els
    (foldl (λ els category_id,
              update_property category_id regenerate_raw_value els)
       els keys).
Proof.
  induction keys as [|c keys IH]; intros els Hkeys; cbn [foldl].
  - apply touched_refl.
  - apply Forall_cons in Hkeys as [HK Hkeys].
    eapply touched_trans; [|by apply IH].
    destruct (find_property c els) as [target|] eqn:Hfind.
    + apply (update_property_touched K c _ els target); [done..|].
      apply regenerate_extends.
    + rewrite update_property_None by done. apply touched_refl.
Qed.

Lemma elem_of_target_fold base els : ∀ (acc : gset string) k,
  k ∈ foldl (λ target_categories el,
               match el with
               | EProperty p =>
                   if existsb (startswith base) (set_iter (all_items p))
                   then target_categories ∪ {[key p]}
                   else target_categories
               | _ => target_categories
               end) acc els
  ↔ k ∈ acc ∨ holds_variant els base k.
Proof.
  induction els as [|el els IH]; intros acc k; cbn [foldl].
  - split; [by left|]. intros [?|(q & item & Hq & _)]; [done|].
    by apply elem_of_nil in Hq.
  - rewrite IH. unfold holds_variant.
    assert (∀ acc' : gset string,
      (k ∈ acc' ↔ k ∈ acc
                  ∨ ∃ q item, el = EProperty q ∧ key q = k
                              ∧ item ∈ all_items q
                              ∧ startswith base item = true) →
      (k ∈ acc' ∨ (∃ q item, EProperty q ∈ els ∧ key q = k
                             ∧ item ∈ all_items q
                             ∧ startswith base item = true))
      ↔ k ∈ acc ∨ (∃ q item, EProperty q ∈ el :: els ∧ key q = k
                             ∧ item ∈ all_items q
                             ∧ startswith base item = true)) as Hgen.
    { intros acc' Hacc. rewrite Hacc. split.
      - intros [[?|(q & item & -> & ?)]|(q & item & Hq & ?)].
        + by left.
        + right. exists q, item. split; [by left|done].
        + right. exists q, item. split; [by right|done].
      - intros [?|(q & item & Hq & ?)]; [by left; left|].
        apply elem_of_cons in Hq as [<-|Hq].
        + left. right. by exists q, item.
        + right. by exists q, item. }
    apply Hgen. destruct el as [| | |p];
      try (split; [by left|by intros [?|(? & ? & [=] & _)]]).
    destruct (existsb (startswith base) (set_iter (all_items p))) eqn:Hex.
    + apply existsb_exists in Hex as (item & Hin & Hs).
      apply list_elem_of_In, elem_of_set_iter in Hin; [|done].
      rewrite elem_of_union, elem_of_singleton. split.
      * intros [? | ->]; [by left|]. right. by exists p, item.
      * intros [?|(q & item' & [= <-] & <- & _)]; [by left|by right].
    + split; [by left|]. intros [?|(q & item & [= <-] & _ & Hin & Hs)]; [done|].
      assert (existsb (startswith base) (set_iter (all_items p)) = true)
        as Hex'; [|congruence].
      apply existsb_exists. exists item. split; [|done].
      by apply list_elem_of_In, elem_of_set_iter.
Qed.

Lemma elem_of_get_target_categories template_item m els k :
  modified_elements m = Some els → truthy (Some els) = true →
  template_item ≠ "" →
  k ∈ get_target_categories_for_template set_iter template_item m
  ↔ holds_variant els (template_base_name_of template_item) k.
Proof.
  intros Hm Htr Ht. unfold get_target_categories_for_template.
  rewrite Hm, Htr, bool_decide_eq_false_2 by done. simpl.
  rewrite sort_strings_perm, elem_of_set_iter by done.
  rewrite elem_of_target_fold. split; [|by right].
  intros [Hin|?]; [|done]. by apply elem_of_empty in Hin.
Qed.

Lemma add_items_template_touched (K : string → Prop) items template_item m
    els :
  modified_elements m = Some els → truthy (Some els) = true →
  (∀ k, holds_variant els (template_base_name_of template_item) k → K k) →
  ∃ els',
    modified_elements (add_items_template set_iter items template_item m).2
    = Some els'
    ∧ touched_only_in K els els'.
Proof.
  intros Hm Htr HK. unfold add_items_template. rewrite Hm, Htr.
  cbn [default from_option id].
  set (base := template_base_name_of template_item) in *.
  set (V := collect_variations set_iter base els).
  assert (Forall (λ entry : string * list string, K entry.1) V) as HV.
  { apply Forall_forall. intros [k vars] Hin. simpl.
    apply (collect_variations_keys set_iter set_iter_perm base els K)
      with (vars := vars); [|done].
    intros q item Hq Hitem Hs. apply HK. by exists q, item. }
  destruct (apply_variations_loop_touched K base items V (els, false, [])
              HV ltac:(by constructor)) as [Ht1 Hk1].
  destruct (foldl (apply_variations base items) (els, false, []) V)
    as [[els1 added] keys]. simpl in Ht1, Hk1.
  pose proof (regenerate_loop_touched K keys els1 Hk1) as Ht2.
  set (els2 := foldl _ els1 keys) in *.
  exists els2. split; [|by eapply touched_trans].
  destruct added; simpl; [|done].
  match goal with |- context [rebuild_indices _ ?x] =>
    by destruct (rebuild_indices_fields set_iter x) as (_ & -> & _)
  end.
Qed.

End template_frame.

(** X17. Template mode changes nothing outside the categories that the
    preview names. [get_target_categories_for_template] returns, sorted and
    without duplicates, exactly the keys of the categories that hold an item
    starting with the template's base name; and after
    [add_items_to_category] with that template the document is, position by
    position, the old one, except that categories with one of these keys may
    have gained items (they lose none). The category argument of the call
    plays no part. *)
Theorem template_add_stays_within_preview
    (set_iter : gset string → list string) (m : Manager)
    (els : list Element) (items : list string)
    (category_id template_item : string) :
  (∀ X, set_iter X ≡ₚ elements X) →
  modified_elements m = Some els →
  truthy (Some els) = true →
  template_item ≠ "" →
  let targets := get_target_categories_for_template set_iter template_item m in
  (∀ k, k ∈ targets
        ↔ holds_variant els (template_base_name_of template_item) k)
  ∧ Sorted String.le targets
  ∧ NoDup targets
  ∧ (∃ els',
       modified_elements
         (add_items_to_category set_iter items category_id
            (Some template_item) m).2 = Some els'
       ∧ touched_only_in (λ k, k ∈ targets) els els')
  ∧ add_items_to_category set_iter items category_id (Some template_item) m
    = add_items_to_category set_iter items "" (Some template_item) m.
Proof.
  intros Hperm Hm Htr Ht targets.
  assert (∀ k, k ∈ targets
               ↔ holds_variant els (template_base_name_of template_item) k)
    as Htargets.
  { intros k. by apply elem_of_get_target_categories. }
  split; [done|].
  assert (Sorted String.le targets ∧ NoDup targets) as [Hs Hn].
  { unfold targets, get_target_categories_for_template.
    rewrite Hm, Htr, bool_decide_eq_false_2 by done. simpl.
    split; [apply sort_strings_sorted|].
    rewrite sort_strings_perm. by apply NoDup_set_iter. }
  split; [done|]. split; [done|].
  unfold add_items_to_category. rewrite bool_decide_eq_false_2 by done.
  split; [|done].
  apply (add_items_template_touched set_iter Hperm); try done.
  intros k Hk. by apply Htargets.
Qed.

Lemma template_add_stays_within_preview_witness :
  let targets :=
    get_target_categories_for_template elements "ns:base" sample_manager in
  (∀ k, k ∈ targets
        ↔ holds_variant (default [] (modified_elements sample_manager))
            (template_base_name_of "ns:base") k)
  ∧ Sorted String.le targets
  ∧ NoDup targets
  ∧ (∃ els',
       modified_elements
         (add_items_to_category elements ["other:base"] "block.20"
            (Some "ns:base") sample_manager).2 = Some els'
       ∧ touched_only_in (λ k, k ∈ targets)
           (default [] (modified_elements sample_manager)) els')
  ∧ add_items_to_category elements ["other:base"] "block.20"
      (Some "ns:base") sample_manager
    = add_items_to_category elements ["other:base"] "" (Some "ns:base")
        sample_manager.
Proof.
  apply (template_add_stays_within_preview elements sample_manager
           (default [] (modified_elements sample_manager)) ["other:base"]
           "block.20" "ns:base"); by vm_compute.
Defined.

(** ** Invariants of a session *)

Lemma update_property_Forall (P : Element → Prop) c f els :
  Forall P els →
  (∀ q, EProperty q ∈ els → P (EProperty q) → P (EProperty (f q))) →
  Forall P (update_property c f els).
Proof.
  intros Hall Hf. destruct (find_property c els) as [target|] eqn:Hfind;
    [|by rewrite update_property_None].
  destruct (find_property_split _ _ _ Hfind) as (pre & post & -> & Hpre & Hk).
  rewrite (update_property_app _ _ _ _ _ Hpre Hk).
  apply Forall_app in Hall as [Hp Hq]. apply Forall_cons in Hq as [Ht Hq].
  apply Forall_app. split; [done|]. constructor; [|done].
  apply Hf; [|done]. apply elem_of_app. right. left.
Qed.

Lemma find_property_elem k els p :
  find_property k els = Some p → EProperty p ∈ els.
Proof.
  intros Hfind.
  destruct (find_property_split _ _ _ Hfind) as (pre & post & -> & _).
  apply elem_of_app. right. left.
Qed.

Lemma add_variation_consistent base items variation : ∀ target added,
  Property_consistent target →
  Property_consistent (add_variation base items (target, added) variation).1.
Proof.
  unfold add_variation.
  induction items as [|i items IH]; intros target added Hc; cbn [foldl];
    [done|].
  destruct (decide (_ ∈ all_items target)); [by apply IH|].
  apply IH. by apply add_item_consistent.
Qed.

Lemma add_variations_consistent base items variations : ∀ target added,
  Property_consistent target →
  Property_consistent
    (foldl (add_variation base items) (target, added) variations).1.
Proof.
  induction variations as [|v variations IH]; intros target added Hc;
    cbn [foldl]; [done|].
  pose proof (add_variation_consistent base items v target added Hc) as Hstep.
  destruct (add_variation base items (target, added) v) as [t a].
  by apply IH.
Qed.

Lemma foldl_extend (groups : list (string * list string)) : ∀ acc,
  foldl (λ all_items g, all_items ++ g.2) acc groups
  = acc ++ concat groups.*2.
Proof.
  induction groups as [|g groups IH]; intros acc; simpl.
  - by rewrite app_nil_r.
  - by rewrite IH, <- (assoc_L (++)).
Qed.

Lemma Forall_removelast {A} (P : A → Prop) l :
  Forall P l → Forall P (removelast l).
Proof.
  induction l as [|x l IH]; [done|]. intros [Hx Hl]%Forall_cons.
  simpl. destruct l; [by constructor|]. constructor; [done|by apply IH].
Qed.

Lemma Forall_last {A} (P : A → Prop) l x :
  Forall P l → last l = Some x → P x.
Proof.
  intros Hall Hl. apply last_Some_elem_of in Hl.
  by apply (proj1 (Forall_forall _ _) Hall).
Qed.

Lemma parse_lines_consistent : ∀ n raws,
  length raws ≤ n → Forall element_consistent (parse_lines raws).
Proof.
  induction n as [|n IH]; intros [|raw rest] Hn; simpl in Hn; try lia;
    try by constructor.
  assert (Forall element_consistent (parse_lines rest)) as Hrest
    by (apply IH; lia).
  rewrite parse_lines_cons. cbv zeta.
  case_bool_decide; [by constructor|].
  destruct (existsb _ directive_keywords); [by constructor|].
  destruct (startswith "#" _); [by constructor|].
  destruct (find_split "=" _) as [[k value]|]; [|by constructor].
  destruct (collect_from_general k rest [] (rstrip_nl value))
    as (taken & rest' & Hsplit & _ & Hcol).
  cbn [app] in Hcol. rewrite Hcol. constructor.
  - unfold property_of_lines. simpl. apply new_Property_items.
  - apply IH. rewrite Hsplit, length_app in Hn. lia.
Qed.

Section session.

Variable set_iter : gset string → list string.

Lemma index_update_property c f els :
  (∀ q, key (f q) = key q ∧ all_items (f q) = all_items q) →
  ∀ st,
    foldl (index_element set_iter) st (update_property c f els)
    = foldl (index_element set_iter) st els.
Proof.
  intros Hf. induction els as [|el els IH]; intros st; [done|].
  destruct el as [| | |p]; simpl; try apply IH.
  destruct (decide (key p = c)); simpl; [|apply IH].
  f_equal. destruct (Hf p) as [Hk Ha].
  unfold index_words, words_in_prop. by rewrite Hk, Ha.
Qed.

Lemma index_in_sync_fields m m' els els' :
  index_in_sync set_iter m els →
  modified_elements m' = Some els' → truthy (Some els') = true →
  _suggestion_index m' = _suggestion_index m →
  _family_index m' = _family_index m →
  foldl (index_element set_iter) (∅, ∅) els'
  = foldl (index_element set_iter) (∅, ∅) els →
  index_in_sync set_iter m' els'.
Proof.
  intros (_ & _ & Hs & Hf) Hm Htr Es Ef Eidx.
  split; [done|]. split; [done|]. by rewrite Es, Ef, Eidx.
Qed.

Lemma index_in_sync_default m els :
  index_in_sync set_iter m els →
  index_in_sync set_iter m (default [] (modified_elements m)).
Proof. intros Hs. destruct Hs as (Hm & ?). by rewrite Hm. Qed.

Lemma rebuilt_in_sync m :
  truthy (modified_elements m) = true →
  index_in_sync set_iter (_build_suggestion_index set_iter m)
    (default [] (modified_elements (_build_suggestion_index set_iter m)))
  ∧ index_in_sync set_iter (rebuild_indices set_iter m)
      (default [] (modified_elements (rebuild_indices set_iter m))).
Proof.
  intros Htr. destruct (modified_elements m) as [els|] eqn:Hm; [|done].
  split.
  - apply index_in_sync_default with (els := els).
    by apply _build_suggestion_index_sync.
  - apply index_in_sync_default with (els := els).
    by apply rebuild_indices_sync.
Qed.

Lemma run_operation_consistent op m m' :
  truthy (modified_elements m) = true →
  document_consistent (modified_elements m) →
  run_operation set_iter op m = Returns m' →
  document_consistent (modified_elements m').
Proof.
  intros Htr Hc. unfold document_consistent in *.
  destruct (modified_elements m) as [els|] eqn:Hm; [|done]. simpl in Hc.
  assert (∀ f, (∀ q, Property_consistent q → Property_consistent (f q)) →
               ∀ c, Forall element_consistent (update_property c f els))
    as Hupd.
  { intros f Hf c. apply update_property_Forall; [done|].
    intros q _. apply Hf. }
  destruct op as [items category_id t|category_id|category_id]; simpl.
  - intros [= <-].
    assert (∀ items c,
      Forall element_consistent
        (default [] (modified_elements
                       (add_items_simple set_iter items c m).2))) as Hsimple.
    { intros items' c. unfold add_items_simple.
      destruct (_find_property c m); [|simpl; by rewrite Hm].
      destruct (forallb _ _); [simpl; by rewrite Hm|]. simpl.
      match goal with |- context [rebuild_indices _ ?x] =>
        destruct (rebuild_indices_fields set_iter x) as (_ & -> & _)
      end.
      simpl. rewrite _save_state_for_undo_modified, Hm. simpl.
      apply Hupd. intros q Hq. apply regenerate_consistent.
      by apply add_items_fold. }
    unfold add_items_to_category.
    destruct t as [t|]; [|apply Hsimple].
    destruct (bool_decide (t = "")); [apply Hsimple|].
    unfold add_items_template. rewrite Hm, Htr. cbn [default from_option id].
    set (base := template_base_name_of t).
    assert (Forall element_consistent
              (foldl (apply_variations base items) (els, false, [])
                 (collect_variations set_iter base els)).1.1) as Hloop.
    { apply (foldl_preserves
               (λ st, Forall element_consistent st.1.1)); [done|].
      intros [[els0 added] keys] [c variations] Hels0. simpl in *.
      unfold apply_variations.
      destruct (find_property c els0) as [target|] eqn:Hfind; [|done].
      pose proof (add_variations_consistent base items variations target
                    false) as Hcons.
      destruct (foldl (add_variation base items) (target, false) variations)
        as [target' [|]]; [|done]. simpl in *.
      apply update_property_Forall; [done|]. intros q _ _. apply Hcons.
      apply find_property_elem in Hfind.
      by apply (proj1 (Forall_forall _ _) Hels0) in Hfind. }
    destruct (foldl (apply_variations base items) _ _)
      as [[els1 added] keys]. simpl in Hloop.
    assert (Forall element_consistent
              (foldl (λ els category_id,
                        update_property category_id regenerate_raw_value els)
                 els1 keys)) as Hreg.
    { apply (foldl_preserves (Forall element_consistent)); [done|].
      intros els0 c Hels0. apply update_property_Forall; [done|].
      intros q _. apply regenerate_consistent. }
    destruct added; simpl; [|done].
    match goal with |- context [rebuild_indices _ ?x] =>
      by destruct (rebuild_indices_fields set_iter x) as (_ & -> & _)
    end.
  - unfold sort_category. rewrite _find_property_save.
    destruct (_find_property category_id m).
    + intros [= <-]. simpl. rewrite _save_state_for_undo_modified, Hm.
      simpl. apply Hupd. intros q Hq.
      by apply regenerate_consistent, sort_items_consistent.
    + destruct (history_stack _); [done|]. intros [= <-]. simpl.
      by rewrite _save_state_for_undo_modified, Hm.
  - destruct (find_property category_id els) as [p|] eqn:Hfind.
    + unfold create_new_category, _find_property. rewrite Hm, Htr. simpl.
      rewrite Hfind. intros [= <-]. by rewrite Hm.
    + destruct (create_new_category_result set_iter category_id m els Hm
                  Htr Hfind) as (pre & post & -> & -> & _).
      intros [= <-].
      match goal with |- context [_build_suggestion_index _ ?x] =>
        destruct (_build_suggestion_index_fields set_iter x)
          as (_ & -> & _)
      end.
      simpl. apply Forall_app in Hc as [Hpre Hpost].
      apply Forall_app. split; [done|]. constructor.
      { simpl. apply new_Property_items. }
      destruct post; [done|]. by constructor.
Qed.

Lemma run_operation_sync op m m' :
  truthy (modified_elements m) = true →
  index_in_sync set_iter m (default [] (modified_elements m)) →
  run_operation set_iter op m = Returns m' →
  index_in_sync set_iter m' (default [] (modified_elements m')).
Proof.
  intros Htr Hsync.
  destruct (modified_elements m) as [els|] eqn:Hm; [|done]. simpl in Hsync.
  destruct op as [items category_id t|category_id|category_id]; simpl.
  - intros [= <-].
    assert (∀ items c,
      let m' := (add_items_simple set_iter items c m).2 in
      index_in_sync set_iter m' (default [] (modified_elements m')))
      as Hsimple.
    { intros items' c. unfold add_items_simple.
      destruct (_find_property c m); [|simpl; by rewrite Hm].
      destruct (forallb _ _); [simpl; by rewrite Hm|]. simpl.
      apply rebuilt_in_sync. simpl. apply truthy_length.
      rewrite update_property_length, _save_state_for_undo_modified, Hm.
      simpl. by apply truthy_length. }
    unfold add_items_to_category.
    destruct t as [t|]; [|apply Hsimple].
    destruct (bool_decide (t = "")); [apply Hsimple|].
    pose proof (add_items_template_effect set_iter items t m
                  ltac:(by rewrite Hm)) as (Htr' & _).
    destruct (add_items_template set_iter items t m).1 eqn:Hr.
    + unfold add_items_template in *. rewrite Hm, Htr in *.
      cbn [default from_option id] in *.
      destruct (foldl (apply_variations _ _) _ _) as [[els1 added] keys].
      destruct added; [|done]. simpl in *.
      match type of Htr' with
      | context [rebuild_indices _ ?x] =>
          destruct (rebuild_indices_fields set_iter x) as (_ & Em & _);
          apply rebuilt_in_sync
      end.
      by rewrite <- Em.
    + rewrite (add_items_template_false set_iter items t m
                 ltac:(by rewrite Hm) Hr).
      rewrite _save_state_for_undo_modified, Hm. simpl.
      apply (index_in_sync_fields m _ els els Hsync); try done.
      * by rewrite _save_state_for_undo_modified.
      * unfold _save_state_for_undo. by rewrite Hm, Htr.
      * unfold _save_state_for_undo. by rewrite Hm, Htr.
  - unfold sort_category. rewrite _find_property_save.
    destruct (_find_property category_id m).
    + intros [= <-]. simpl. rewrite _save_state_for_undo_modified, Hm.
      simpl.
      apply (index_in_sync_fields m _ els _ Hsync); try done.
      * apply truthy_length. rewrite update_property_length.
        by apply truthy_length.
      * unfold _save_state_for_undo. by rewrite Hm, Htr.
      * unfold _save_state_for_undo. by rewrite Hm, Htr.
      * apply index_update_property. intros q.
        destruct (regenerate_raw_value_groups (sort_items_alphabetically q))
          as (-> & _ & -> & _). done.
    + destruct (history_stack _); [done|]. intros [= <-]. simpl.
      rewrite _save_state_for_undo_modified, Hm. simpl.
      apply (index_in_sync_fields m _ els els Hsync); try done.
      * simpl. by rewrite _save_state_for_undo_modified.
      * unfold _save_state_for_undo. by rewrite Hm, Htr.
      * unfold _save_state_for_undo. by rewrite Hm, Htr.
  - unfold create_new_category.
    destruct (_find_property category_id m).
    { intros [= <-]. by rewrite Hm. }
    rewrite _save_state_for_undo_modified, Hm. intros [= <-].
    apply rebuilt_in_sync. simpl. apply truthy_length.
    case_bool_decide; unfold list_insert_at; rewrite !length_app; simpl; lia.
Qed.

Lemma session_ok_step a m m' :
  session_ok set_iter m →
  run_action set_iter a m = Returns m' →
  session_ok set_iter m' ∧ original_elements m' = original_elements m.
Proof.
  intros Hok.
  pose proof Hok as ((Htr & Hth & Htrd) & (Hc & Hch & Hcr) & Hsync).
  destruct a as [op| |]; simpl.
  - intros Hrun.
    destruct (run_operation_effect set_iter op m Htr)
      as (m1 & Hrun1 & Htr' & Ho & Heff).
    destruct (run_operation_redo set_iter op m Htr) as (m2 & Hrun2 & Hredo).
    assert (m1 = m') as -> by congruence.
    assert (m2 = m') as -> by congruence.
    split; [|done].
    assert (history_stack m' = history_stack m ++ [modified_elements m]
            ∨ history_stack m' = history_stack m) as Hh.
    { destruct Heff as [[? _]|[? _]]; [by left|by right]. }
    assert (∀ P : option (list Element) → Prop,
      P (modified_elements m) → Forall P (history_stack m) →
      Forall P (redo_stack m) →
      Forall P (history_stack m') ∧ Forall P (redo_stack m')) as Hstacks.
    { intros P Pm Ph Pr. split.
      - destruct Hh as [-> | ->]; [|done].
        apply Forall_app. split; [done|]. by constructor.
      - destruct Hredo as [-> | ->]; [done|by constructor]. }
    destruct (Hstacks _ Htr Hth Htrd) as [Hth' Htrd'].
    destruct (Hstacks _ Hc Hch Hcr) as [Hch' Hcr'].
    split; [done|]. split.
    + split; [|done]. exact (run_operation_consistent op m m' Htr Hc Hrun).
    + exact (run_operation_sync op m m' Htr Hsync Hrun).
  - unfold undo.
    destruct (last (history_stack m)) as [previous|] eqn:Hlast;
      [|by intros [= <-]].
    simpl. destruct (history_descriptions m) as [|d ds] eqn:Hd; [done|].
    intros [= <-].
    match goal with |- context [_build_suggestion_index _ ?x] =>
      set (m1 := x);
      destruct (_build_suggestion_index_fields set_iter m1)
        as (Eo & Em & Eh & Er & _)
    end.
    split; [|by rewrite Eo].
    assert (truthy previous = true) as Htp
      by exact (Forall_last (λ doc, truthy doc = true) _ _ Hth Hlast).
    split; [|split].
    + rewrite Em, Eh, Er. simpl. split; [done|].
      split; [by apply Forall_removelast|].
      apply Forall_app. split; [done|]. by constructor.
    + rewrite Em, Eh, Er. simpl.
      split; [exact (Forall_last document_consistent _ _ Hch Hlast)|].
      split; [by apply Forall_removelast|].
      apply Forall_app. split; [done|]. by constructor.
    + by apply rebuilt_in_sync.
  - unfold redo. intros [= <-].
    destruct (last (redo_stack m)) as [undone|] eqn:Hlast; [|done].
    match goal with |- context [_build_suggestion_index _ ?x] =>
      set (m1 := x);
      destruct (_build_suggestion_index_fields set_iter m1)
        as (Eo & Em & Eh & Er & _)
    end.
    split; [|by rewrite Eo].
    assert (truthy undone = true) as Htp
      by exact (Forall_last (λ doc, truthy doc = true) _ _ Htrd Hlast).
    split; [|split].
    + rewrite Em, Eh, Er. simpl. split; [done|].
      split; [|by apply Forall_removelast].
      apply Forall_app. split; [done|]. by constructor.
    + rewrite Em, Eh, Er. simpl.
      split; [exact (Forall_last document_consistent _ _ Hcr Hlast)|].
      split; [|by apply Forall_removelast].
      apply Forall_app. split; [done|]. by constructor.
    + by apply rebuilt_in_sync.
Qed.

Lemma session_ok_run actions : ∀ m m',
  session_ok set_iter m →
  run_actions set_iter actions m = Returns m' →
  session_ok set_iter m' ∧ original_elements m' = original_elements m.
Proof.
  induction actions as [|a actions IH]; intros m m' Hok; simpl.
  - by intros [= <-].
  - destruct (run_action set_iter a m) as [m1|] eqn:Hstep; [|done]. simpl.
    intros Hrun. destruct (session_ok_step a m m1 Hok Hstep) as [Hok1 Ho1].
    destruct (IH m1 m' Hok1 Hrun) as [Hok' Ho']. split; [done|congruence].
Qed.

Lemma session_ok_load file m :
  (load_file set_iter file m).1 = true →
  session_ok set_iter (load_file set_iter file m).2.
Proof.
  intros Hl.
  destruct (load_file_success set_iter file m Hl)
    as (Hne & _ & Hm & Hh & Hr & _).
  pose proof (load_file_in_sync set_iter file m Hl) as Hsync.
  split; [|split; [|done]].
  - rewrite Hm, Hh, Hr. split; [by destruct (parse file)|].
    split; by constructor.
  - rewrite Hh, Hr. split; [|split; by constructor].
    unfold document_consistent. rewrite Hm. simpl.
    destruct file as [text|]; [|by constructor]. simpl.
    by apply (parse_lines_consistent (length (readlines text))).
Qed.

End session.

(** X18. In a session that begins with a successful [load_file], after any
    sequence of additions, sorts, category creations, undos and redos that
    returns, the original document is still the parsed file and the 'before'
    text of [get_diff] is unchanged; the live document is not empty; every
    category of the live document is consistent (distinct group keys, no
    item filed twice, [all_items] equal to the set of filed items); and
    [get_items_in_category] lists the items of a category without
    repetition, exactly the members of its [all_items]. *)
Theorem session_keeps_documents_consistent
    (set_iter : gset string → list string) (file : option string)
    (m0 m' : Manager) (actions : list action) :
  (load_file set_iter file m0).1 = true →
  run_actions set_iter actions (load_file set_iter file m0).2 = Returns m' →
  original_elements m' = Some (parse file)
  ∧ (get_diff m').1 = serialize (parse file)
  ∧ truthy (modified_elements m') = true
  ∧ (∀ p, EProperty p ∈ default [] (modified_elements m') →
          Property_consistent p)
  ∧ (∀ category_id, NoDup (get_items_in_category category_id m'))
  ∧ (∀ category_id p item,
       _find_property category_id m' = Some p →
       item ∈ get_items_in_category category_id m' ↔ item ∈ all_items p).
Proof.
  intros Hl Hrun.
  pose proof (session_ok_load set_iter file m0 Hl) as Hok.
  destruct (session_ok_run set_iter actions _ _ Hok Hrun)
    as (((Htr & _) & (Hc & _) & _) & Ho).
  destruct (load_file_success set_iter file m0 Hl) as (Hne & Ho0 & _).
  rewrite Ho0 in Ho.
  assert (∀ p, EProperty p ∈ default [] (modified_elements m') →
               Property_consistent p) as Hcons.
  { intros p Hp. by apply (proj1 (Forall_forall _ _) Hc) in Hp. }
  split; [done|].
  split; [unfold get_diff, text_of; rewrite Ho; by destruct (parse file)|].
  split; [done|]. split; [done|].
  assert (∀ category_id p, _find_property category_id m' = Some p →
    get_items_in_category category_id m' = items_of p
    ∧ Property_consistent p) as Hitems.
  { intros c p Hfind. split.
    - unfold get_items_in_category. rewrite Hfind. by rewrite foldl_extend.
    - apply Hcons. apply _find_property_Some in Hfind as (els & -> & _ & Hf).
      by apply find_property_elem in Hf. }
  split.
  - intros c. destruct (_find_property c m') as [p|] eqn:Hfind.
    + destruct (Hitems c p Hfind) as [-> (_ & Hn & _)]. done.
    + unfold get_items_in_category. rewrite Hfind. constructor.
  - intros c p item Hfind. destruct (Hitems c p Hfind) as [-> (_ & _ & Ha)].
    symmetry. apply Ha.
Qed.

Lemma sample_session_runs :
  (load_file elements (Some sample_text) new_Manager).1 = true
  ∧ run_actions elements sample_actions
      (load_file elements (Some sample_text) new_Manager).2
    = Returns sample_session.
Proof. split; by vm_compute. Qed.

Lemma session_keeps_documents_consistent_witness :
  original_elements sample_session = Some (parse (Some sample_text))
  ∧ (get_diff sample_session).1 = serialize (parse (Some sample_text))
  ∧ truthy (modified_elements sample_session) = true
  ∧ (∀ p, EProperty p ∈ default [] (modified_elements sample_session) →
          Property_consistent p)
  ∧ (∀ category_id,
       NoDup (get_items_in_category category_id sample_session))
  ∧ (∀ category_id p item,
       _find_property category_id sample_session = Some p →
       item ∈ get_items_in_category category_id sample_session
       ↔ item ∈ all_items p).
Proof.
  apply (session_keeps_documents_consistent elements (Some sample_text)
           new_Manager sample_session sample_actions);
    apply sample_session_runs.
Defined.

(** X19. In a session that begins with a successful [load_file], after any
    sequence of additions, sorts, category creations, undos and redos that
    returns, the keyword index and the family index are exactly the ones
    [_build_suggestion_index] computes from the live document, although
    [sort_category] and an addition that adds nothing do not rebuild them;
    so the suggestions are always computed from the live document. *)
Theorem session_keeps_index_in_sync
    (set_iter : gset string → list string) (file : option string)
    (m0 m' : Manager) (actions : list action) :
  (load_file set_iter file m0).1 = true →
  run_actions set_iter actions (load_file set_iter file m0).2 = Returns m' →
  index_in_sync set_iter m' (default [] (modified_elements m'))
  ∧ _build_suggestion_index set_iter m' = m'.
Proof.
  intros Hl Hrun.
  pose proof (session_ok_load set_iter file m0 Hl) as Hok.
  destruct (session_ok_run set_iter actions _ _ Hok Hrun)
    as ((_ & _ & Hsync) & _).
  split; [done|]. destruct Hsync as (Hm & Htr & Hs & Hf).
  unfold _build_suggestion_index. rewrite Hm in *. simpl in *.
  rewrite Htr. rewrite (surjective_pairing (foldl _ _ _)), <- Hs, <- Hf.
  rewrite <- Hm. by destruct m'.
Qed.

Lemma session_keeps_index_in_sync_witness :
  index_in_sync elements sample_session
    (default [] (modified_elements sample_session))
  ∧ _build_suggestion_index elements sample_session = sample_session.
Proof.
  apply (session_keeps_index_in_sync elements (Some sample_text)
           new_Manager sample_session sample_actions);
    apply sample_session_runs.
Defined.

(** ** Applying the auto-mapper's result *)

Lemma elem_of_od_setdefault_inv {V} t (v0 : V) d k v :
  (k, v) ∈ od_setdefault t v0 d → (k, v) ∈ d ∨ (k = t ∧ v = v0).
Proof.
  unfold od_setdefault. destruct (od_mem t d); [by left|].
  intros [?|[= -> ->]%list_elem_of_singleton]%elem_of_app; [by left|by right].
Qed.

Lemma elem_of_od_alter_inv {V} (f : V → V) t d k v :
  (k, v) ∈ od_alter f t d →
  (k, v) ∈ d ∨ (k = t ∧ ∃ v0, (t, v0) ∈ d ∧ v = f v0).
Proof.
  induction d as [|[k' v'] d IH]; simpl; [by left|].
  destruct (decide (k' = t)) as [->|Hne].
  - intros [[= -> ->]|Hin]%elem_of_cons.
    + right. split; [done|]. exists v'. split; [left|done].
    + left. by right.
  - intros [[= -> ->]|Hin]%elem_of_cons; [left; left|].
    destruct (IH Hin) as [?|(-> & v0 & ? & ->)]; [left; by right|].
    right. split; [done|]. exists v0. split; [by right|done].
Qed.

Lemma group_by_template_eq mapped_list :
  group_by_template mapped_list
  = foldl (λ acc entry, collect_item "" entry.1.2 acc entry.1.1) []
      mapped_list.
Proof.
  unfold group_by_template. generalize (@nil (string * list string)).
  induction mapped_list as [|[[item t] tgt] l IH]; intros acc; [done|].
  cbn [foldl]. by rewrite IH.
Qed.

Lemma group_by_template_complete mapped_list item t tgt :
  (item, t, tgt) ∈ mapped_list →
  recorded (group_by_template mapped_list) t item.
Proof.
  rewrite group_by_template_eq. generalize (@nil (string * list string)).
  induction mapped_list as [|entry l IH]; intros acc Hin;
    [by apply elem_of_nil in Hin|].
  cbn [foldl]. apply elem_of_cons in Hin as [<- | Hin]; [|by apply IH].
  simpl. generalize (collect_item_new "" t acc item eq_refl).
  generalize (collect_item "" t acc item). clear.
  induction l as [|entry l IH]; intros acc Hrec; [done|].
  cbn [foldl]. apply IH. by apply collect_item_mono.
Qed.

Lemma group_by_template_sound mapped_list t items item :
  (t, items) ∈ group_by_template mapped_list → item ∈ items →
  ∃ tgt, (item, t, tgt) ∈ mapped_list.
Proof.
  rewrite group_by_template_eq.
  assert (∀ (acc : list (string * list string)),
    (∀ t items item, (t, items) ∈ acc → item ∈ items →
       ∃ tgt, (item, t, tgt) ∈ mapped_list) →
    ∀ l, (∀ e, e ∈ l → e ∈ mapped_list) →
    ∀ t items item,
      (t, items) ∈ foldl (λ acc entry,
                            collect_item "" entry.1.2 acc entry.1.1) acc l →
      item ∈ items → ∃ tgt, (item, t, tgt) ∈ mapped_list) as Hgen.
  { intros acc Hacc l. revert acc Hacc.
    induction l as [|[[item0 t0] tgt0] l IH]; intros acc Hacc Hl; [done|].
    cbn [foldl]. apply IH; [|intros e He; apply Hl; by right].
    intros t' items' item' Hin Hitem. simpl in Hin.
    unfold collect_item in Hin. simpl in Hin.
    apply elem_of_od_alter_inv in Hin
      as [Hin|(-> & v0 & Hin & ->)].
    - apply elem_of_od_setdefault_inv in Hin as [Hin|[-> ->]].
      + by eapply Hacc.
      + by apply elem_of_nil in Hitem.
    - apply elem_of_app in Hitem as [Hitem | ->%list_elem_of_singleton].
      + apply elem_of_od_setdefault_inv in Hin as [Hin|[_ ->]].
        * by eapply Hacc.
        * by apply elem_of_nil in Hitem.
      + exists tgt0. apply Hl. left. }
  intros Hin Hitem. eapply (Hgen [] ); [|done|exact Hin|exact Hitem].
  intros ? ? ? H. by apply elem_of_nil in H.
Qed.
